(** * aiotarantool: the tornado transport of the tarantool client

    A shallow embedding of [tarantool/tornado.py]: the connection object
    with its waiter table, the reader and writer loops, request dispatch
    with its retry loop, and the schema cache.

    Python objects that are shared between coroutines (the futures stored
    in the waiter table and awaited by a dispatcher) live in an object
    store indexed by address; coroutines are run one after the other
    between their suspension points, the way the tornado event loop runs
    them. *)

From Stdlib Require Import ZArith Lia.
From Stdlib.Init Require Import Byte.
From stdpp Require Import base gmap strings list pretty.

Open Scope Z_scope.

(** ** Data *)

Abbreviation bytes := (list byte).

(** Address of a [Future] object in the object store. *)
Abbreviation addr := nat.

(** A field of a tuple returned by the server. *)
Inductive Value :=
| VInt (z : Z)
| VStr (s : string).

(** [tarantool.response.Response], as far as the transport looks at it:
    the object is also the sequence of the returned tuples. *)
Record Response := mkResponse {
  sync : Z;
  return_code : Z;
  completion_status : Z;
  return_message : string;
  rows : list (list Value);
}.

(** [tarantool.request.Request]: the correlation id it was built with and
    its encoding ([bytes(request)]). *)
Record Request := mkRequest {
  request_sync : Z;
  request_bytes : bytes;
}.

(** Exceptions that the modelled code raises or lets through. *)
Inductive Exc :=
| NetworkError (msg : string)
| DatabaseError (code : Z) (msg : string)
| SchemaError (msg : string)
| KeyError
| IndexError
| TypeError
| AttributeError
| UnboundLocalError
| UnpackException
| InvalidStateError
| CancelledError.

(** [tornado.concurrent.Future], a single-assignment slot (the asyncio
    future that tornado uses): [set_result] and [set_exception] raise
    [InvalidStateError] on a slot that is already done, [cancel] leaves a
    done slot alone. *)
Inductive Future :=
| Pending
| Result (r : Response)
| Exception (e : Exc)
| Cancelled.

(** The coroutine behind [_reader_task] / [_writer_task]. *)
Inductive Task :=
| Running
| Crashed (e : Exc).

(** Key of the schema cache and of an index registry: a numeric id or a
    name ([isinstance(space, str)]). *)
Abbreviation SchemaKey := (Z + string)%type.

Record SchemaIndex := mkSchemaIndex {
  iid : Z;
  index_name : string;
  index_space : Z;
}.

Record SchemaSpace := mkSchemaSpace {
  sid : Z;
  name : string;
  indexes : gmap SchemaKey SchemaIndex;
}.

(** Effects that leave the connection object, in the order they happen. *)
Inductive Event :=
| EvDecode (body : bytes)            (* Response(self, body) *)
| EvLogError (r : Response)          (* logger.error("git happens ...") *)
| EvRegister (k : Z) (a : addr)      (* self._waiters[k] = Future() *)
| EvResolve (a : addr) (f : Future)  (* a future leaves Pending *)
| EvEnqueue (data : bytes)           (* self._write_buf += data *)
| EvWrite (data : bytes)             (* self.stream.write(data) *)
| EvWarn (msg : string).             (* warn(msg, RetryWarning) *)

(** The connection object, the object store of its futures, the local
    buffer of the reader coroutine, and the chunks the stream will still
    deliver. *)
Record State := mkState {
  (* tarantool.tornado.Connection *)
  user : option string;
  password : option string;
  lock : nat;                          (* tornado.locks.Semaphore() *)
  connected : bool;
  req_num : Z;
  _waiters : gmap Z addr;
  _reader_task : option Task;
  _writer_task : option Task;
  _write_event : option bool;          (* tornado.locks.Event, set or not *)
  _write_buf : option bytes;
  schema : gmap SchemaKey SchemaSpace; (* Schema.schema *)
  (* object store *)
  futures : list Future;
  (* local variable buf of _response_reader *)
  reader_buf : bytes;
  (* what stream.read_bytes will return, one chunk per call *)
  socket_in : list bytes;
  trace : list Event;
}.

(** [Connection.__init__] *)
Definition Connection (usr pwd : option string) (input : list bytes) : State :=
  {| user := usr; password := pwd; lock := 1%nat;
     connected := false; req_num := 0; _waiters := ∅;
     _reader_task := None; _writer_task := None;
     _write_event := None; _write_buf := None;
     schema := ∅; futures := []; reader_buf := [];
     socket_in := input; trace := [] |}.

(** Field updates. *)
Definition set_user (v : option string) (s : State) : State :=
  mkState v (password s) (lock s) (connected s) (req_num s) (_waiters s)
    (_reader_task s) (_writer_task s) (_write_event s) (_write_buf s)
    (schema s) (futures s) (reader_buf s) (socket_in s) (trace s).
Definition set_password (v : option string) (s : State) : State :=
  mkState (user s) v (lock s) (connected s) (req_num s) (_waiters s)
    (_reader_task s) (_writer_task s) (_write_event s) (_write_buf s)
    (schema s) (futures s) (reader_buf s) (socket_in s) (trace s).
Definition set_lock (v : nat) (s : State) : State :=
  mkState (user s) (password s) v (connected s) (req_num s) (_waiters s)
    (_reader_task s) (_writer_task s) (_write_event s) (_write_buf s)
    (schema s) (futures s) (reader_buf s) (socket_in s) (trace s).
Definition set_connected (v : bool) (s : State) : State :=
  mkState (user s) (password s) (lock s) v (req_num s) (_waiters s)
    (_reader_task s) (_writer_task s) (_write_event s) (_write_buf s)
    (schema s) (futures s) (reader_buf s) (socket_in s) (trace s).
Definition set_req_num (v : Z) (s : State) : State :=
  mkState (user s) (password s) (lock s) (connected s) v (_waiters s)
    (_reader_task s) (_writer_task s) (_write_event s) (_write_buf s)
    (schema s) (futures s) (reader_buf s) (socket_in s) (trace s).
Definition set_waiters (v : gmap Z addr) (s : State) : State :=
  mkState (user s) (password s) (lock s) (connected s) (req_num s) v
    (_reader_task s) (_writer_task s) (_write_event s) (_write_buf s)
    (schema s) (futures s) (reader_buf s) (socket_in s) (trace s).
Definition set_reader_task (v : option Task) (s : State) : State :=
  mkState (user s) (password s) (lock s) (connected s) (req_num s) (_waiters s)
    v (_writer_task s) (_write_event s) (_write_buf s)
    (schema s) (futures s) (reader_buf s) (socket_in s) (trace s).
Definition set_writer_task (v : option Task) (s : State) : State :=
  mkState (user s) (password s) (lock s) (connected s) (req_num s) (_waiters s)
    (_reader_task s) v (_write_event s) (_write_buf s)
    (schema s) (futures s) (reader_buf s) (socket_in s) (trace s).
Definition set_write_event (v : option bool) (s : State) : State :=
  mkState (user s) (password s) (lock s) (connected s) (req_num s) (_waiters s)
    (_reader_task s) (_writer_task s) v (_write_buf s)
    (schema s) (futures s) (reader_buf s) (socket_in s) (trace s).
Definition set_write_buf (v : option bytes) (s : State) : State :=
  mkState (user s) (password s) (lock s) (connected s) (req_num s) (_waiters s)
    (_reader_task s) (_writer_task s) (_write_event s) v
    (schema s) (futures s) (reader_buf s) (socket_in s) (trace s).
Definition set_schema (v : gmap SchemaKey SchemaSpace) (s : State) : State :=
  mkState (user s) (password s) (lock s) (connected s) (req_num s) (_waiters s)
    (_reader_task s) (_writer_task s) (_write_event s) (_write_buf s)
    v (futures s) (reader_buf s) (socket_in s) (trace s).
Definition set_futures (v : list Future) (s : State) : State :=
  mkState (user s) (password s) (lock s) (connected s) (req_num s) (_waiters s)
    (_reader_task s) (_writer_task s) (_write_event s) (_write_buf s)
    (schema s) v (reader_buf s) (socket_in s) (trace s).
Definition set_reader_buf (v : bytes) (s : State) : State :=
  mkState (user s) (password s) (lock s) (connected s) (req_num s) (_waiters s)
    (_reader_task s) (_writer_task s) (_write_event s) (_write_buf s)
    (schema s) (futures s) v (socket_in s) (trace s).
Definition set_socket_in (v : list bytes) (s : State) : State :=
  mkState (user s) (password s) (lock s) (connected s) (req_num s) (_waiters s)
    (_reader_task s) (_writer_task s) (_write_event s) (_write_buf s)
    (schema s) (futures s) (reader_buf s) v (trace s).
Definition set_trace (v : list Event) (s : State) : State :=
  mkState (user s) (password s) (lock s) (connected s) (req_num s) (_waiters s)
    (_reader_task s) (_writer_task s) (_write_event s) (_write_buf s)
    (schema s) (futures s) (reader_buf s) (socket_in s) v.

(** ** The monad of the embedding

    A piece of a coroutine is a state transformer that returns, raises,
    suspends for ever (it waits for something the rest of the run never
    provides), or runs out of the fuel given to a loop.  Whatever a piece
    did to the state before it raised stays done. *)

Inductive result (A : Type) :=
| Ok (a : A)
| Raise (e : Exc)
| Suspended
| OutOfFuel.
Arguments Ok {A} a.
Arguments Raise {A} e.
Arguments Suspended {A}.
Arguments OutOfFuel {A}.

Definition M (A : Type) : Type := State -> result A * State.

Definition ret {A} (a : A) : M A := fun s => (Ok a, s).
Definition raise {A} (e : Exc) : M A := fun s => (Raise e, s).
Definition bind {A B} (m : M A) (k : A -> M B) : M B :=
  fun s =>
    match m s with
    | (Ok a, s') => k a s'
    | (Raise e, s') => (Raise e, s')
    | (Suspended, s') => (Suspended, s')
    | (OutOfFuel, s') => (OutOfFuel, s')
    end.

Notation "x <- m ;; k" := (bind m (fun x => k))
  (at level 100, m at next level, right associativity).
Notation "m ;;; k" := (bind m (fun _ => k))
  (at level 100, right associativity).

Definition get : M State := fun s => (Ok s, s).
Definition modify (f : State -> State) : M unit := fun s => (Ok tt, f s).
Definition emit (ev : Event) : M unit :=
  modify (fun s => set_trace (trace s ++ [ev]) s).

(** [try: m finally: h] *)
Definition finally {A} (m : M A) (h : State -> State) : M A :=
  fun s => let (r, s') := m s in (r, h s').

(** ** Futures *)

(** [tornado.concurrent.Future()] *)
Definition new_future : M addr :=
  fun s => (Ok (length (futures s)), set_futures (futures s ++ [Pending]) s).

Definition resolve (a : addr) (f : Future) : M unit :=
  modify (fun s => set_futures (<[a := f]> (futures s)) s) ;;;
  emit (EvResolve a f).

Definition set_result (a : addr) (r : Response) : M unit :=
  s <- get ;;
  match futures s !! a with
  | Some Pending => resolve a (Result r)
  | _ => raise InvalidStateError
  end.

Definition set_exception (a : addr) (e : Exc) : M unit :=
  s <- get ;;
  match futures s !! a with
  | Some Pending => resolve a (Exception e)
  | _ => raise InvalidStateError
  end.

Definition cancel (a : addr) : M unit :=
  s <- get ;;
  match futures s !! a with
  | Some Pending => resolve a Cancelled
  | _ => ret tt
  end.

(** [yield waiter], once the event loop comes back to the coroutine: the
    result of a done future, and no progress on a pending one. *)
Definition future_result (a : addr) : M Response :=
  s <- get ;;
  match futures s !! a with
  | Some (Result r) => ret r
  | Some (Exception e) => raise e
  | Some Cancelled => raise CancelledError
  | _ => fun s => (Suspended, s)
  end.

(** ** [Connection.generate_sync] *)

(** [self._waiters[k] = tornado.concurrent.Future()] *)
Definition register (k : Z) : M addr :=
  a <- new_future ;;
  modify (fun s => set_waiters (<[k := a]> (_waiters s)) s) ;;;
  emit (EvRegister k a) ;;;
  ret a.

Definition generate_sync : M Z :=
  modify (fun s => set_req_num (req_num s + 1) s) ;;;
  s <- get ;;
  (if 10000000 <? req_num s then modify (set_req_num 0) else ret tt) ;;;
  s <- get ;;
  register (req_num s) ;;;
  ret (req_num s).

(** A request object is built around a fresh correlation id: its
    constructor calls [conn.generate_sync()] and encodes the id. *)
Definition new_request (encode : Z -> bytes) : M Request :=
  k <- generate_sync ;;
  ret (mkRequest k (encode k)).

(** ** The collaborators

    What the transport imports from the [tarantool] package and from
    [msgpack]: constants, the encoders of the requests it builds itself,
    and the two decoders of the reader loop.  [None] from a decoder stands
    for an exception raised inside it. *)

Class Tarantool := {
  RETRY_MAX_ATTEMPTS : nat;
  SPACE_SPACE : Z;
  INDEX_SPACE_PRIMARY : Z;
  INDEX_SPACE_NAME : Z;
  (* msgpack.unpackb on the five bytes of a length prefix *)
  unpackb : bytes -> option Z;
  (* Response(self, body) *)
  Response_unpack : bytes -> option Response;
  (* bytes(RequestAuthenticate(self, self._salt, user, password)) *)
  RequestAuthenticate : string -> string -> Z -> bytes;
  (* bytes(RequestSelect(self, space, index, key, offset, limit, iterator)) *)
  RequestSelect : Z -> Z -> list Value -> Z -> Z -> Z -> Z -> bytes;
  (* the fields SchemaSpace reads from a tuple of the space table *)
  space_of_tuple : list Value -> option (Z * string);
}.

(** ** Python slices *)

Definition slice_index (len i : Z) : Z :=
  if i <? 0 then Z.max 0 (len + i) else Z.min i len.

(** [l[lo:hi]] *)
Definition pyslice {A} (l : list A) (lo hi : Z) : list A :=
  let len := Z.of_nat (length l) in
  let lo' := slice_index len lo in
  let hi' := slice_index len hi in
  take (Z.to_nat (hi' - lo')) (drop (Z.to_nat lo') l).

(** [l[lo:]] *)
Definition pyslice_from {A} (l : list A) (lo : Z) : list A :=
  drop (Z.to_nat (slice_index (Z.of_nat (length l)) lo)) l.

(** ** The exclusion lock *)

(** [yield self.lock.acquire()] *)
Definition acquire : M unit :=
  fun s =>
    match lock s with
    | O => (Suspended, s)
    | S n => (Ok tt, set_lock n s)
    end.

Definition release (s : State) : State := set_lock (S (lock s)) s.

(** [with (yield self.lock.acquire()): body]: the lock is given back when
    the body returns or raises. *)
Definition with_lock {A} (body : M A) : M A :=
  acquire ;;;
  fun s =>
    match body s with
    | (Ok a, s') => (Ok a, release s')
    | (Raise e, s') => (Raise e, release s')
    | r => r
    end.

Fixpoint for_each {A} (l : list A) (f : A -> M unit) : M unit :=
  match l with
  | [] => ret tt
  | x :: l' => f x ;;; for_each l' f
  end.

(** ** [Connection._do_close]

    The waiters are visited in the order of [map_to_list]; Python visits
    them in insertion order, and only the order of the [EvResolve] events
    depends on it. *)

Definition _do_close (exc : option Exc) : M unit :=
  s <- get ;;
  if negb (connected s) then ret tt
  else
    with_lock (
      modify (set_connected false) ;;;
      (* yield self._tcp_client.close() *)
      s <- get ;;
      match _reader_task s with
      | None => raise AttributeError
      | Some _ =>
        modify (set_reader_task None) ;;;
        match _writer_task s with
        | None => raise AttributeError
        | Some _ =>
          modify (set_writer_task None) ;;;
          modify (set_write_event None) ;;;
          modify (set_write_buf None) ;;;
          for_each (map_to_list (_waiters s)).*2
            (fun waiter =>
               match exc with
               | None => cancel waiter
               | Some e => set_exception waiter e
               end) ;;;
          modify (set_waiters ∅)
        end
      end).

(** [Connection.close] *)
Definition close : M unit := _do_close None.

(** ** [Connection._response_writer]

    One pass of the loop body, entered when [self._write_event.wait()]
    returns. *)

Definition writer_iteration : M unit :=
  s <- get ;;
  match _write_buf s with
  | Some (b :: to_write) =>
    modify (set_write_buf (Some [])) ;;;
    emit (EvWrite (b :: to_write))
  | _ => ret tt
  end ;;;
  s <- get ;;
  match _write_event s with
  | Some _ => modify (set_write_event (Some false))
  | None => raise AttributeError
  end.

Section Transport.
Context `{Tarantool}.

(** ** [Connection._response_reader] *)

(** Lines 265-276: what the loop does with a decoded response. *)
Definition dispatch_response (response : Response) : M unit :=
  s <- get ;;
  match _waiters s !! sync response with
  | None => emit (EvLogError response)
  | Some waiter =>
    (if return_code response =? 0
     then set_result waiter response
     else set_exception waiter
            (DatabaseError (return_code response) (return_message response))) ;;;
    modify (fun s => set_waiters (delete (sync response) (_waiters s)) s)
  end.

(** Lines 253-276: the inner loop over the frames of [buf]; it returns
    the final [curr]. *)
Fixpoint frames_loop (fuel : nat) (buf : bytes) (len_buf curr : Z) : M Z :=
  match fuel with
  | O => fun s => (OutOfFuel, s)
  | S fuel' =>
    if 5 <=? len_buf - curr then
      let length_pack := pyslice buf curr (curr + 5) in
      match unpackb length_pack with
      | None => raise UnpackException
      | Some length =>
        if len_buf - curr <? 5 + length then ret curr
        else
          let body := pyslice buf (curr + 5) (curr + 5 + length) in
          let curr := curr + (5 + length) in
          emit (EvDecode body) ;;;
          match Response_unpack body with
          | None => raise UnpackException
          | Some response =>
            dispatch_response response ;;;
            frames_loop fuel' buf len_buf curr
          end
      end
    else ret curr
  end.

(** Lines 245-280: one pass of the outer loop body, with the chunk that
    [read_bytes] returned.  The inner loop gets one more unit of fuel than
    the buffer has bytes, which is enough whenever the declared lengths
    keep [curr] moving forward. *)
Definition reader_iteration (tmp_buf : bytes) : M unit :=
  (match tmp_buf with
   | [] => _do_close (Some (NetworkError "Lost connection to server during query"))
   | _ => ret tt
   end) ;;;
  s <- get ;;
  let buf := reader_buf s ++ tmp_buf in
  modify (set_reader_buf buf) ;;;
  let len_buf := Z.of_nat (length buf) in
  curr <- frames_loop (S (length buf)) buf len_buf 0 ;;
  if curr =? 0 then ret tt
  else modify (set_reader_buf (pyslice_from buf curr)).

(** Lines 243-282: the loop, from its first read on, run over the chunks
    that the stream delivers; with no chunk left it waits in
    [read_bytes]. *)
Fixpoint _response_reader (chunks : list bytes) : M unit :=
  s <- get ;;
  if connected s then
    match chunks with
    | [] => fun s => (Suspended, s)
    | tmp_buf :: chunks =>
      reader_iteration tmp_buf ;;; _response_reader chunks
    end
  else _do_close None.

(** ** The event loop between two steps of a dispatcher *)

(** An exception that escapes a background coroutine ends that coroutine
    and nothing else. *)
Definition background (set_task : option Task -> State -> State) (m : M unit) : M unit :=
  fun s =>
    match m s with
    | (Raise e, s') => (Ok tt, set_task (Some (Crashed e)) s')
    | r => r
    end.

(** The writer runs when its event is set. *)
Definition writer_turn : M unit :=
  s <- get ;;
  match _writer_task s, _write_event s with
  | Some Running, Some true => background set_writer_task writer_iteration
  | _, _ => ret tt
  end.

(** The reader takes the next chunk from the stream; [false] when it
    cannot move. *)
Definition reader_turn : M bool :=
  s <- get ;;
  match _reader_task s, socket_in s with
  | Some Running, tmp_buf :: rest =>
    modify (set_socket_in rest) ;;;
    background set_reader_task (reader_iteration tmp_buf) ;;;
    ret true
  | _, _ => ret false
  end.

Definition is_pending (a : addr) (s : State) : bool :=
  match futures s !! a with
  | Some Pending | None => true
  | _ => false
  end.

(** The reader runs until the future is done or the stream has nothing
    more to deliver. *)
Fixpoint pump (chunks : nat) (a : addr) : M unit :=
  s <- get ;;
  if is_pending a s then
    match chunks with
    | O => fun s => (Suspended, s)
    | S n =>
      moved <- reader_turn ;;
      if (moved : bool) then pump n a else fun s => (Suspended, s)
    end
  else ret tt.

(** [response = yield waiter] *)
Definition await (waiter : addr) : M Response :=
  writer_turn ;;;
  s <- get ;;
  pump (length (socket_in s)) waiter ;;;
  future_result waiter.

(** ** [Connection._send_request] *)

(** Lines 293-296: an attempt, up to its suspension point. *)
Definition send_attempt (request : Request) : M addr :=
  s <- get ;;
  match _waiters s !! request_sync request with
  | None => raise KeyError
  | Some waiter =>
    match _write_buf s with
    | None => raise TypeError
    | Some buf =>
      modify (set_write_buf (Some (buf ++ request_bytes request))) ;;;
      emit (EvEnqueue (request_bytes request)) ;;;
      match _write_event s with
      | None => raise AttributeError
      | Some _ => modify (set_write_event (Some true)) ;;; ret waiter
      end
    end
  end.

(** Lines 301-305: what follows the response of an attempt; [Some] is
    [return response], [None] goes on to the next attempt. *)
Definition send_resume (request : Request) (response : Response) : M (option Response) :=
  if completion_status response =? 1 then
    register (request_sync request) ;;;
    emit (EvWarn (return_message response)) ;;;
    ret None
  else ret (Some response).

(** Lines 292-308; [response] is the variable of that name, unbound
    before the first attempt. *)
Fixpoint send_loop (attempts : nat) (request : Request) (response : option Response)
  : M Response :=
  match attempts with
  | O =>
    match response with
    | Some r => raise (DatabaseError (return_code r) (return_message r))
    | None => raise UnboundLocalError
    end
  | S n =>
    waiter <- send_attempt request ;;
    response <- await waiter ;;
    r <- send_resume request response ;;
    match r with
    | Some response => ret response
    | None => send_loop n request (Some response)
    end
  end.

(** ** [Connection.connect]

    The stream is taken to connect, and the greeting to have been read:
    [socket_in] holds what the server sends after it. *)

Definition truthy (o : option string) : bool :=
  match o with
  | Some (String _ _) => true
  | _ => false
  end.

(** Lines 169-180; [true] stands for the [return] under the lock. *)
Definition connect_locked : M bool :=
  with_lock (
    s <- get ;;
    if connected s then ret true
    else
      modify (set_write_event (Some false)) ;;;
      modify (set_write_buf (Some [])) ;;;
      modify (set_connected true) ;;;
      modify (set_reader_buf []) ;;;
      modify (set_reader_task (Some Running)) ;;;
      modify (set_writer_task (Some Running)) ;;;
      ret false).

(** [self.authenticate] and the [_send_request] inside it find the
    connection up when [connect] calls them, so that the call comes down
    to building the request and running the attempts. *)
Definition connect : M unit :=
  s <- get ;;
  if connected s then ret tt
  else
    returned <- connect_locked ;;
    if (returned : bool) then ret tt
    else
      s <- get ;;
      match user s, password s with
      | Some u, Some p =>
        if truthy (user s) && truthy (password s) then
          request <- new_request (RequestAuthenticate u p) ;;
          send_loop RETRY_MAX_ATTEMPTS request None ;;;
          ret tt
        else ret tt
      | _, _ => ret tt
      end.

Definition _send_request (request : Request) : M Response :=
  s <- get ;;
  (if connected s then ret tt else connect) ;;;
  send_loop RETRY_MAX_ATTEMPTS request None.

(** [Connection.authenticate] *)
Definition authenticate (u p : string) : M Response :=
  modify (set_user (Some u)) ;;;
  modify (set_password (Some p)) ;;;
  s <- get ;;
  (if connected s then ret tt else connect) ;;;
  request <- new_request (RequestAuthenticate u p) ;;
  _send_request request.

(** [Connection.select] on a numeric space and a numeric index (neither
    [isinstance(..., str)] branch is taken); [key] is what [check_key]
    returned. *)
Definition select (space_name : Z) (key : list Value)
    (offset limit index_name iterator_type : Z) : M Response :=
  request <- new_request
    (RequestSelect space_name index_name key offset limit iterator_type) ;;
  _send_request request.

(** ** [Schema.get_space] *)

(** Modelled from the spec: [tarantool.schema.SchemaSpace] is not in the
    source.  "exactly one => construct and cache a Schema Space (id, name,
    empty index registry), return it": the descriptor is built from the
    fields of the tuple and stored in the cache under its id and under its
    name, so that a later lookup by either finds it. *)
Definition SchemaSpace_new (array : list Value) : M SchemaSpace :=
  match space_of_tuple array with
  | None => raise IndexError
  | Some (i, n) =>
    let sp := mkSchemaSpace i n ∅ in
    modify (fun s => set_schema (<[inr n := sp]> (<[inl i := sp]> (schema s))) s) ;;;
    ret sp
  end.

Definition no_space_message (space : SchemaKey) : string :=
  match space with
  | inr n => "There's no space with name '" +:+ n +:+ "'"
  | inl i => "There's no space with id '" +:+ pretty i +:+ "'"
  end.

(** Lines 83-92: what the lookup does with the answer of the select.
    With more than one tuple the code adds a string and the response
    object, which is a [TypeError] before [SchemaError] is built. *)
Definition get_space_rows (space : SchemaKey) (array : list (list Value))
  : M SchemaSpace :=
  if (1 <? length array)%nat then raise TypeError
  else
    match array with
    | [] => raise (SchemaError (no_space_message space))
    | row :: _ =>
      if (length row =? 0)%nat
      then raise (SchemaError (no_space_message space))
      else SchemaSpace_new row
    end.

Definition key_of (space : SchemaKey) : list Value :=
  match space with
  | inl i => [VInt i]
  | inr n => [VStr n]
  end.

Definition get_space (space : SchemaKey) : M SchemaSpace :=
  s <- get ;;
  match schema s !! space with
  | Some sp => ret sp
  | None =>
    (if connected s then ret tt else connect) ;;;
    with_lock (
      s <- get ;;
      match schema s !! space with
      | Some sp => ret sp
      | None =>
        let _index := match space with
                      | inr _ => INDEX_SPACE_NAME
                      | inl _ => INDEX_SPACE_PRIMARY
                      end in
        array <- select SPACE_SPACE (key_of space) 0 4294967295 _index 0 ;;
        get_space_rows space (rows array)
      end)
  end.

(** [Schema.flush] *)
Definition flush : M unit := modify (set_schema ∅).

End Transport.

(** ** The requests of the API that name a space

    [insert], [select], [update] and [delete], on a space given by its id
    or by its name and an index given by its id (the
    [isinstance(index_name, str)] branch is not taken); [key] is what
    [check_key] returned. *)

Class Requests := {
  (* bytes(RequestInsert(self, space, values)) *)
  RequestInsert : Z -> list Value -> Z -> bytes;
  (* bytes(RequestUpdate(self, space, index, key, op_list)) *)
  RequestUpdate : Z -> Z -> list Value -> list Value -> Z -> bytes;
  (* bytes(RequestDelete(self, space, index, key)) *)
  RequestDelete : Z -> Z -> list Value -> Z -> bytes;
}.

(** The methods have a module of their own: [insert] and [delete] are
    also the names of the operations on finite maps. *)
Module Methods.
Section Methods.
Context `{Tarantool} `{Requests}.

(** Lines 323-325, 339-341, 357-359 and 375-377: a space that is given by
    name is looked up, and its id taken from the descriptor. *)
Definition space_id (space_name : SchemaKey) : M Z :=
  match space_name with
  | inr n => sp <- get_space (inr n) ;; ret (sid sp)
  | inl i => ret i
  end.

(** [Connection.insert] *)
Definition insert (space_name : SchemaKey) (values : list Value) : M Response :=
  space_name <- space_id space_name ;;
  request <- new_request (RequestInsert space_name values) ;;
  _send_request request.

(** [Connection.select] *)
Definition select (space_name : SchemaKey) (key : list Value)
    (offset limit index_name iterator_type : Z) : M Response :=
  space_name <- space_id space_name ;;
  request <- new_request
    (RequestSelect space_name index_name key offset limit iterator_type) ;;
  _send_request request.

(** [Connection.update] *)
Definition update (space_name : SchemaKey) (key op_list : list Value)
    (index_name : Z) : M Response :=
  space_name <- space_id space_name ;;
  request <- new_request (RequestUpdate space_name index_name key op_list) ;;
  _send_request request.

(** [Connection.delete] *)
Definition delete (space_name : SchemaKey) (key : list Value)
    (index_name : Z) : M Response :=
  space_name <- space_id space_name ;;
  request <- new_request (RequestDelete space_name index_name key) ;;
  _send_request request.

End Methods.
End Methods.

(** ** An instance of the collaborators, to run the model

    The length prefix is a msgpack [uint32] ([0xce] and four big-endian
    bytes) or [int32] ([0xd2]); a body is three bytes, the correlation id,
    the return code and the completion status, followed by one byte per
    returned tuple: the id of a space called "users", or zero for a
    tuple without fields. *)

Module Demo.

Definition be32 (a b c d : byte) : Z :=
  Z.of_N (Byte.to_N a) * 16777216 + Z.of_N (Byte.to_N b) * 65536
  + Z.of_N (Byte.to_N c) * 256 + Z.of_N (Byte.to_N d).

Definition unpack_length (p : bytes) : option Z :=
  match p with
  | [xce; a; b; c; d] => Some (be32 a b c d)
  | [xd2; a; b; c; d] =>
    let v := be32 a b c d in
    Some (if v <? 2147483648 then v else v - 4294967296)
  | _ => None
  end.

Definition unpack_response (body : bytes) : option Response :=
  match body with
  | k :: rc :: cs :: tuples =>
    Some (mkResponse (Z.of_N (Byte.to_N k)) (Z.of_N (Byte.to_N rc))
            (Z.of_N (Byte.to_N cs))
            (if Z.of_N (Byte.to_N cs) =? 1 then "retry" else "")
            ((fun b => match b with
                       | x00 => []
                       | _ => [VInt (Z.of_N (Byte.to_N b)); VInt 0; VStr "users"]
                       end) <$> tuples))
  | _ => None
  end.

Definition tuple_fields (t : list Value) : option (Z * string) :=
  match t with
  | VInt i :: _ :: VStr n :: _ => Some (i, n)
  | _ => None
  end.

Definition encode (tag : byte) (k : Z) : bytes :=
  [tag; match Byte.of_N (Z.to_N k) with Some b => b | None => x00 end].

Definition wire : Tarantool := {|
  RETRY_MAX_ATTEMPTS := 10;
  SPACE_SPACE := 280;
  INDEX_SPACE_PRIMARY := 0;
  INDEX_SPACE_NAME := 2;
  unpackb := unpack_length;
  Response_unpack := unpack_response;
  RequestAuthenticate := fun _ _ => encode x07;
  RequestSelect := fun _ _ _ _ _ _ => encode x01;
  space_of_tuple := tuple_fields;
|}.

(** A frame: the prefix and the body. *)
Definition frame (body : bytes) : bytes :=
  [xce; x00; x00; x00;
   match Byte.of_N (N.of_nat (length body)) with Some b => b | None => x00 end]
  ++ body.

(** A connection that is up, without credentials. *)
Definition up (input : list bytes) : State :=
  Eval vm_compute in (@connect wire (Connection None None input)).2.

End Demo.

(** * Properties *)

(** Reduction of field reads over field updates, and nothing else. *)
Ltac state_simpl :=
  cbn [user password lock connected req_num _waiters _reader_task
       _writer_task _write_event _write_buf schema futures reader_buf
       socket_in trace
       set_user set_password set_lock set_connected set_req_num set_waiters
       set_reader_task set_writer_task set_write_event set_write_buf
       set_schema set_futures set_reader_buf set_socket_in set_trace
       fst snd] in *.

Lemma state_ext (s1 s2 : State) :
  user s1 = user s2 -> password s1 = password s2 -> lock s1 = lock s2 ->
  connected s1 = connected s2 -> req_num s1 = req_num s2 ->
  _waiters s1 = _waiters s2 -> _reader_task s1 = _reader_task s2 ->
  _writer_task s1 = _writer_task s2 -> _write_event s1 = _write_event s2 ->
  _write_buf s1 = _write_buf s2 -> schema s1 = schema s2 ->
  futures s1 = futures s2 -> reader_buf s1 = reader_buf s2 ->
  socket_in s1 = socket_in s2 -> trace s1 = trace s2 ->
  s1 = s2.
Proof. destruct s1, s2; simpl; intros; by subst. Qed.

(** Two states are equal when their fields are. *)
Ltac state_eq := apply state_ext; state_simpl; try done.

Lemma generate_sync_unfold (s : State) :
  let k := if 10000000 <? req_num s + 1 then 0 else req_num s + 1 in
  generate_sync s =
    (Ok k,
     set_trace (trace s ++ [EvRegister k (length (futures s))])
       (set_waiters (<[k := length (futures s)]> (_waiters s))
          (set_futures (futures s ++ [Pending]) (set_req_num k s)))).
Proof.
  unfold generate_sync, bind, modify, get; simpl.
  destruct (10000000 <? req_num s + 1); reflexivity.
Qed.

(** ** The waiter table *)

(** Every id of the table maps to one slot of its own, and the slot is
    unresolved. *)
Definition waiters_ok (s : State) : Prop :=
  (forall k a, _waiters s !! k = Some a -> futures s !! a = Some Pending)
  /\ (forall k1 k2 a,
        _waiters s !! k1 = Some a -> _waiters s !! k2 = Some a -> k1 = k2).

Lemma waiters_ok_init usr pwd input : waiters_ok (Connection usr pwd input).
Proof. split; simpl; intros *; rewrite lookup_empty; discriminate. Qed.

Lemma waiters_ok_lt (s : State) k a :
  waiters_ok s -> _waiters s !! k = Some a -> (a < length (futures s))%nat.
Proof. intros [Hp _] Hk. eapply lookup_lt_Some, Hp, Hk. Qed.

Lemma register_unfold (k : Z) (s : State) :
  register k s =
    (Ok (length (futures s)),
     set_trace (trace s ++ [EvRegister k (length (futures s))])
       (set_waiters (<[k := length (futures s)]> (_waiters s))
          (set_futures (futures s ++ [Pending]) s))).
Proof. reflexivity. Qed.

Lemma waiters_ok_insert_fresh (s s' : State) (k : Z) :
  waiters_ok s ->
  futures s' = futures s ++ [Pending] ->
  _waiters s' = <[k := length (futures s)]> (_waiters s) ->
  waiters_ok s'.
Proof.
  intros Hok Hf Hw. destruct Hok as [Hp Hi]. split.
  - intros k' a. rewrite Hw, Hf. destruct (decide (k = k')) as [->|Hne].
    + rewrite lookup_insert_eq. intros [= <-].
      rewrite lookup_app_r by lia. by rewrite Nat.sub_diag.
    + rewrite lookup_insert_ne by done. intros Hk.
      rewrite lookup_app_l; [by eapply Hp|].
      eapply lookup_lt_Some, Hp, Hk.
  - intros k1 k2 a. rewrite Hw.
    destruct (decide (k = k1)) as [E1|H1], (decide (k = k2)) as [E2|H2];
      subst; rewrite ?lookup_insert_eq, ?lookup_insert_ne by done; try done.
    + intros [= <-] Hk. apply Hp, lookup_lt_Some in Hk. lia.
    + intros Hk [= <-]. apply Hp, lookup_lt_Some in Hk. lia.
    + apply Hi.
Qed.

Lemma waiters_ok_register (k : Z) (s : State) :
  waiters_ok s -> waiters_ok (register k s).2.
Proof. intros Hok. by eapply waiters_ok_insert_fresh. Qed.

Lemma waiters_ok_generate_sync (s : State) :
  waiters_ok s -> waiters_ok (generate_sync s).2.
Proof.
  intros Hok. rewrite generate_sync_unfold; simpl.
  eapply waiters_ok_insert_fresh; [exact Hok|done..].
Qed.

(** The slot a response is resolved with (lines 271-274). *)
Definition outcome_of (response : Response) : Future :=
  if return_code response =? 0 then Result response
  else Exception (DatabaseError (return_code response) (return_message response)).

Section Reader.
Context `{Tarantool}.

Lemma dispatch_response_unmatched (r : Response) (s : State) :
  _waiters s !! sync r = None ->
  dispatch_response r s = (Ok tt, set_trace (trace s ++ [EvLogError r]) s).
Proof. intros Hw. unfold dispatch_response, bind, get. by rewrite Hw. Qed.

Lemma dispatch_response_matched (r : Response) (s : State) (a : addr) :
  _waiters s !! sync r = Some a ->
  futures s !! a = Some Pending ->
  dispatch_response r s =
    (Ok tt,
     set_waiters (delete (sync r) (_waiters s))
       (set_trace (trace s ++ [EvResolve a (outcome_of r)])
          (set_futures (<[a := outcome_of r]> (futures s)) s))).
Proof.
  intros Hw Hf. unfold dispatch_response, outcome_of, bind, get. rewrite Hw.
  destruct (return_code r =? 0);
    unfold set_result, set_exception, bind, get; by rewrite Hf.
Qed.

Lemma waiters_ok_delete_resolved (s s' : State) (k : Z) (a : addr) (f : Future) :
  waiters_ok s ->
  _waiters s !! k = Some a ->
  futures s' = <[a := f]> (futures s) ->
  _waiters s' = delete k (_waiters s) ->
  waiters_ok s'.
Proof.
  intros [Hp Hi] Hk Hf Hw. split.
  - intros k' a'. rewrite Hw, Hf. destruct (decide (k = k')) as [->|Hne].
    + by rewrite lookup_delete_eq.
    + rewrite lookup_delete_ne by done. intros Hk'.
      rewrite list_lookup_insert_ne; [by eapply Hp|].
      intros <-. apply Hne. by eapply Hi.
  - intros k1 k2 a'. rewrite Hw. rewrite !lookup_delete_Some.
    intros [_ H1] [_ H2]. by eapply Hi.
Qed.

Lemma waiters_ok_dispatch_response (r : Response) (s : State) :
  waiters_ok s -> waiters_ok (dispatch_response r s).2.
Proof.
  intros Hok. destruct (_waiters s !! sync r) as [a|] eqn:Hw.
  - rewrite (dispatch_response_matched r s a Hw) by (by eapply (proj1 Hok)).
    by eapply waiters_ok_delete_resolved.
  - rewrite dispatch_response_unmatched by done. exact Hok.
Qed.

(** A complete frame at [curr]: the prefix, its declared length, and the
    body that the loop cuts out. *)
Definition frame_at (buf : bytes) (curr length : Z) (body : bytes) : Prop :=
  5 <= Z.of_nat (List.length buf) - curr
  /\ unpackb (pyslice buf curr (curr + 5)) = Some length
  /\ 5 + length <= Z.of_nat (List.length buf) - curr
  /\ body = pyslice buf (curr + 5) (curr + 5 + length).

Lemma frames_loop_frame (fuel : nat) (buf : bytes) (curr length : Z)
    (body : bytes) (r : Response) (s : State) :
  frame_at buf curr length body ->
  Response_unpack body = Some r ->
  frames_loop (S fuel) buf (Z.of_nat (List.length buf)) curr s =
    (dispatch_response r ;;;
     frames_loop fuel buf (Z.of_nat (List.length buf)) (curr + (5 + length)))
      (set_trace (trace s ++ [EvDecode body]) s).
Proof.
  intros (H5 & Hu & Hl & ->) Hr. simpl.
  destruct (Z.leb_spec 5 (Z.of_nat (List.length buf) - curr)); [|lia].
  rewrite Hu.
  destruct (Z.ltb_spec (Z.of_nat (List.length buf) - curr) (5 + length)); [lia|].
  unfold bind at 1. simpl. by rewrite Hr.
Qed.

End Reader.

(** ** Relations that every step of the event loop respects

    [R] relates the state before a piece of code to the state after it.
    It only looks at the object store, the waiter table, the trace and
    the counter. *)

Section Respects.
Context `{Tarantool}.
Variable R : State -> State -> Prop.
Hypothesis R_trans : forall s1 s2 s3, R s1 s2 -> R s2 s3 -> R s1 s3.
Hypothesis R_same : forall s s',
  futures s' = futures s -> _waiters s' = _waiters s -> trace s' = trace s ->
  req_num s' = req_num s ->
  R s s'.

Definition respects {A} (m : M A) : Prop := forall s, R s (m s).2.

Lemma R_refl s : R s s.
Proof. by apply R_same. Qed.

Lemma respects_ret {A} (a : A) : respects (ret a).
Proof. intros s. apply R_refl. Qed.

Lemma respects_raise {A} (e : Exc) : respects (@raise A e).
Proof. intros s. apply R_refl. Qed.

Lemma respects_stop {A} (r : result A) : respects (fun s => (r, s)).
Proof. intros s. apply R_refl. Qed.

Lemma respects_get : respects get.
Proof. intros s. apply R_refl. Qed.

Lemma respects_modify (f : State -> State) :
  (forall s, futures (f s) = futures s /\ _waiters (f s) = _waiters s
             /\ trace (f s) = trace s /\ req_num (f s) = req_num s) ->
  respects (modify f).
Proof. intros Hf s. destruct (Hf s) as (? & ? & ? & ?). by apply R_same. Qed.

Lemma respects_bind {A B} (m : M A) (k : A -> M B) :
  respects m -> (forall a, respects (k a)) -> respects (bind m k).
Proof.
  intros Hm Hk s. unfold bind. specialize (Hm s).
  destruct (m s) as [[a|e| |] s1]; simpl in *; try done.
  eapply R_trans; [exact Hm|apply Hk].
Qed.

(** [get] followed by code that is fine for the state it reads. *)
Lemma respects_get_bind {A} (k : State -> M A) :
  (forall s, R s (k s s).2) -> respects (bind get k).
Proof. intros Hk s. apply Hk. Qed.

Lemma respects_with_lock {A} (body : M A) :
  respects body -> respects (with_lock body).
Proof.
  intros Hb s. unfold with_lock, bind, acquire.
  destruct (lock s) as [|n]; [apply R_refl|].
  specialize (Hb (set_lock n s)).
  destruct (body (set_lock n s)) as [[a|e| |] s1]; simpl in *;
    (apply (R_trans _ (set_lock n s)); [by apply R_same|]);
    first [exact Hb|apply (R_trans _ s1); [exact Hb|by apply R_same]].
Qed.

Lemma respects_background (set_task : option Task -> State -> State) (m : M unit) :
  (forall t s, futures (set_task t s) = futures s
               /\ _waiters (set_task t s) = _waiters s
               /\ trace (set_task t s) = trace s
               /\ req_num (set_task t s) = req_num s) ->
  respects m -> respects (background set_task m).
Proof.
  intros Hset Hm s. unfold background. specialize (Hm s).
  destruct (m s) as [[a|e| |] s1]; simpl in *; try done.
  eapply R_trans; [exact Hm|].
  destruct (Hset (Some (Crashed e)) s1) as (?&?&?&?). by apply R_same.
Qed.

Lemma respects_for_each {A} (l : list A) (f : A -> M unit) :
  (forall w, w ∈ l -> respects (f w)) -> respects (for_each l f).
Proof.
  induction l as [|w l IH]; intros Hf; simpl; [apply respects_ret|].
  apply respects_bind; [apply Hf; by left|].
  intros _. apply IH. intros w' Hw'. apply Hf. by right.
Qed.

End Respects.

(** Relations that do not mind which slot is resolved, nor what is in the
    table. *)
Section Resolutions.
Context `{Tarantool}.
Variable R : State -> State -> Prop.
Hypothesis R_trans : forall s1 s2 s3, R s1 s2 -> R s2 s3 -> R s1 s3.
Hypothesis R_same : forall s s',
  futures s' = futures s -> _waiters s' = _waiters s -> trace s' = trace s ->
  req_num s' = req_num s ->
  R s s'.
Hypothesis R_resolve : forall w f, respects R (resolve w f).
Hypothesis R_log : forall r, respects R (emit (EvLogError r)).
Hypothesis R_table : forall g : State -> gmap Z addr,
  respects R (modify (fun s => set_waiters (g s) s)).

Lemma respects_set_result w r : respects R (set_result w r).
Proof.
  intros s. unfold set_result, bind, get.
  destruct (futures s !! w) as [[]|]; first [apply R_resolve|by apply R_same].
Qed.

Lemma respects_set_exception w e : respects R (set_exception w e).
Proof.
  intros s. unfold set_exception, bind, get.
  destruct (futures s !! w) as [[]|]; first [apply R_resolve|by apply R_same].
Qed.

Lemma respects_cancel w : respects R (cancel w).
Proof.
  intros s. unfold cancel, bind, get.
  destruct (futures s !! w) as [[]|]; first [apply R_resolve|by apply R_same].
Qed.

Lemma respects_do_close exc : respects R (_do_close exc).
Proof.
  unfold _do_close. apply respects_bind; [done|by apply respects_get|].
  intros s0. destruct (negb (connected s0)); [by apply respects_ret|].
  apply respects_with_lock; [done..|].
  apply respects_bind; [done|by apply respects_modify|intros _].
  apply respects_bind; [done|by apply respects_get|intros s].
  destruct (_reader_task s); [|by apply respects_raise].
  apply respects_bind; [done|by apply respects_modify|intros _].
  destruct (_writer_task s); [|by apply respects_raise].
  apply respects_bind; [done|by apply respects_modify|intros _].
  apply respects_bind; [done|by apply respects_modify|intros _].
  apply respects_bind; [done|by apply respects_modify|intros _].
  apply respects_bind; [done| |intros _; apply (R_table (fun _ => ∅))].
  apply respects_for_each; [done..|]. intros w _.
  destruct exc; [apply respects_set_exception|apply respects_cancel].
Qed.

Lemma respects_dispatch_response (r : Response) :
  respects R (dispatch_response r).
Proof.
  unfold dispatch_response. apply respects_bind; [done|by apply respects_get|].
  intros s. destruct (_waiters s !! sync r) as [w|]; [|apply R_log].
  apply respects_bind; [done| |intros _; apply R_table].
  destruct (return_code r =? 0);
    [apply respects_set_result|apply respects_set_exception].
Qed.

End Resolutions.

Section Loops.
Context `{Tarantool}.
Variable R : State -> State -> Prop.
Hypothesis R_trans : forall s1 s2 s3, R s1 s2 -> R s2 s3 -> R s1 s3.
Hypothesis R_same : forall s s',
  futures s' = futures s -> _waiters s' = _waiters s -> trace s' = trace s ->
  req_num s' = req_num s ->
  R s s'.

#[local] Abbreviation respects := (respects R).
#[local] Abbreviation respects_ret := (respects_ret R R_same).
#[local] Abbreviation respects_raise := (respects_raise R R_same).
#[local] Abbreviation respects_stop := (respects_stop R R_same).
#[local] Abbreviation respects_get := (respects_get R R_same).
#[local] Abbreviation respects_modify := (respects_modify R R_same).
#[local] Abbreviation respects_bind := (respects_bind R R_trans).
#[local] Abbreviation respects_with_lock := (respects_with_lock R R_trans R_same).
#[local] Abbreviation respects_background := (respects_background R R_trans R_same).

(** What the reader and the writer do to the store, the table and the
    trace. *)
Hypothesis R_dispatch_response : forall r, respects (dispatch_response r).
Hypothesis R_do_close : forall exc, respects (_do_close exc).
Hypothesis R_decode : forall body, respects (emit (EvDecode body)).
Hypothesis R_write : forall data, respects (emit (EvWrite data)).

Lemma respects_frames_loop (fuel : nat) (buf : bytes) (len_buf curr : Z) :
  respects (frames_loop fuel buf len_buf curr).
Proof.
  revert curr. induction fuel as [|fuel IH]; intros curr; simpl.
  - apply respects_stop.
  - destruct (5 <=? len_buf - curr); [|apply respects_ret].
    destruct (unpackb _) as [length|]; [|apply respects_raise].
    destruct (len_buf - curr <? 5 + length); [apply respects_ret|].
    apply respects_bind; [apply R_decode|intros _].
    destruct (Response_unpack _) as [r|]; [|apply respects_raise].
    apply respects_bind; [apply R_dispatch_response|intros _; apply IH].
Qed.

Lemma respects_reader_iteration (tmp_buf : bytes) :
  respects (reader_iteration tmp_buf).
Proof.
  unfold reader_iteration. apply respects_bind.
  { destruct tmp_buf; [apply R_do_close|apply respects_ret]. }
  intros _. apply respects_bind; [apply respects_get|intros s0].
  apply respects_bind; [by apply respects_modify|intros _].
  apply respects_bind; [apply respects_frames_loop|intros curr].
  destruct (curr =? 0); [apply respects_ret|by apply respects_modify].
Qed.

Lemma respects_writer_iteration : respects writer_iteration.
Proof.
  unfold writer_iteration.
  apply respects_bind; [apply respects_get|intros s0]. apply respects_bind.
  { destruct (_write_buf s0) as [[|b to_write]|]; try apply respects_ret.
    apply respects_bind; [by apply respects_modify|intros _; apply R_write]. }
  intros _. apply respects_bind; [apply respects_get|intros s1].
  destruct (_write_event s1); [by apply respects_modify|apply respects_raise].
Qed.

Lemma respects_writer_turn : respects writer_turn.
Proof.
  unfold writer_turn. apply respects_bind; [apply respects_get|intros s0].
  destruct (_writer_task s0) as [[|e]|]; try apply respects_ret.
  destruct (_write_event s0) as [[|]|]; try apply respects_ret.
  apply respects_background; [done|apply respects_writer_iteration].
Qed.

Lemma respects_reader_turn : respects reader_turn.
Proof.
  unfold reader_turn. apply respects_bind; [apply respects_get|intros s0].
  destruct (_reader_task s0) as [[|e]|]; try apply respects_ret.
  destruct (socket_in s0) as [|tmp_buf rest]; [apply respects_ret|].
  apply respects_bind; [by apply respects_modify|intros _].
  apply respects_bind; [|intros _; apply respects_ret].
  apply respects_background; [done|apply respects_reader_iteration].
Qed.

Lemma respects_pump (chunks : nat) (a : addr) : respects (pump chunks a).
Proof.
  induction chunks as [|n IH]; simpl;
    (apply respects_bind; [apply respects_get|intros s0]);
    (destruct (is_pending a s0); [|apply respects_ret]).
  - apply respects_stop.
  - apply respects_bind; [apply respects_reader_turn|intros moved].
    destruct moved; [apply IH|apply respects_stop].
Qed.

Lemma respects_future_result (a : addr) : respects (future_result a).
Proof.
  unfold future_result. apply respects_bind; [apply respects_get|intros s0].
  destruct (futures s0 !! a) as [[]|];
    first [apply respects_ret|apply respects_raise|apply respects_stop].
Qed.

Lemma respects_await (waiter : addr) : respects (await waiter).
Proof.
  unfold await. apply respects_bind; [apply respects_writer_turn|intros _].
  apply respects_bind; [apply respects_get|intros s0].
  apply respects_bind; [apply respects_pump|intros _].
  apply respects_future_result.
Qed.

Lemma respects_response_reader (chunks : list bytes) :
  respects (_response_reader chunks).
Proof.
  induction chunks as [|tmp_buf chunks IH]; simpl;
    (apply respects_bind; [apply respects_get|intros s0]);
    (destruct (connected s0); [|apply R_do_close]).
  - apply respects_stop.
  - apply respects_bind; [apply respects_reader_iteration|intros _; apply IH].
Qed.

(** What a dispatcher adds to that. *)
Hypothesis R_generate_sync : respects generate_sync.
Hypothesis R_register : forall k, respects (register k).
Hypothesis R_enqueue : forall data, respects (emit (EvEnqueue data)).
Hypothesis R_warn : forall msg, respects (emit (EvWarn msg)).

Lemma respects_new_request (encode : Z -> bytes) : respects (new_request encode).
Proof.
  unfold new_request.
  apply respects_bind; [apply R_generate_sync|intros k; apply respects_ret].
Qed.

Lemma respects_send_attempt (request : Request) : respects (send_attempt request).
Proof.
  unfold send_attempt. apply respects_bind; [apply respects_get|intros s0].
  destruct (_waiters s0 !! request_sync request); [|apply respects_raise].
  destruct (_write_buf s0); [|apply respects_raise].
  apply respects_bind; [by apply respects_modify|intros _].
  apply respects_bind; [apply R_enqueue|intros _].
  destruct (_write_event s0); [|apply respects_raise].
  apply respects_bind; [by apply respects_modify|intros _; apply respects_ret].
Qed.

Lemma respects_send_resume (request : Request) (response : Response) :
  respects (send_resume request response).
Proof.
  unfold send_resume. destruct (completion_status response =? 1);
    [|apply respects_ret].
  apply respects_bind; [apply R_register|intros _].
  apply respects_bind; [apply R_warn|intros _; apply respects_ret].
Qed.

Lemma respects_send_loop (attempts : nat) (request : Request)
    (response : option Response) :
  respects (send_loop attempts request response).
Proof.
  revert response. induction attempts as [|n IH]; intros response; simpl.
  - destruct response; apply respects_raise.
  - apply respects_bind; [apply respects_send_attempt|intros waiter].
    apply respects_bind; [apply respects_await|intros resp].
    apply respects_bind; [apply respects_send_resume|intros [r|]];
      [apply respects_ret|apply IH].
Qed.

Lemma respects_connect : respects connect.
Proof.
  unfold connect. apply respects_bind; [apply respects_get|intros s0].
  destruct (connected s0); [apply respects_ret|].
  apply respects_bind; [|intros returned].
  { unfold connect_locked. apply respects_with_lock.
    apply respects_bind; [apply respects_get|intros s1].
    destruct (connected s1); [apply respects_ret|].
    repeat (apply respects_bind; [by apply respects_modify|intros _]).
    apply respects_ret. }
  destruct returned; [apply respects_ret|].
  apply respects_bind; [apply respects_get|intros s1].
  destruct (user s1) as [u|]; [|apply respects_ret].
  destruct (password s1) as [p|]; [|apply respects_ret].
  destruct (_ && _); [|apply respects_ret].
  apply respects_bind; [apply respects_new_request|intros request].
  apply respects_bind; [apply respects_send_loop|intros _; apply respects_ret].
Qed.

Lemma respects_send_request (request : Request) :
  respects (_send_request request).
Proof.
  unfold _send_request. apply respects_bind; [apply respects_get|intros s0].
  apply respects_bind; [|intros _; apply respects_send_loop].
  destruct (connected s0); [apply respects_ret|apply respects_connect].
Qed.

Lemma respects_authenticate (u p : string) : respects (authenticate u p).
Proof.
  unfold authenticate.
  apply respects_bind; [by apply respects_modify|intros _].
  apply respects_bind; [by apply respects_modify|intros _].
  apply respects_bind; [apply respects_get|intros s0].
  apply respects_bind; [|intros _].
  { destruct (connected s0); [apply respects_ret|apply respects_connect]. }
  apply respects_bind; [apply respects_new_request|intros request].
  apply respects_send_request.
Qed.

Lemma respects_select space_name key offset limit index_name iterator_type :
  respects (select space_name key offset limit index_name iterator_type).
Proof.
  unfold select.
  apply respects_bind; [apply respects_new_request|intros request].
  apply respects_send_request.
Qed.

Lemma respects_get_space (space : SchemaKey) : respects (get_space space).
Proof.
  unfold get_space. apply respects_bind; [apply respects_get|intros s0].
  destruct (schema s0 !! space); [apply respects_ret|].
  apply respects_bind; [|intros _].
  { destruct (connected s0); [apply respects_ret|apply respects_connect]. }
  apply respects_with_lock.
  apply respects_bind; [apply respects_get|intros s1].
  destruct (schema s1 !! space); [apply respects_ret|].
  apply respects_bind; [apply respects_select|intros array].
  unfold get_space_rows. destruct (1 <? length (rows array))%nat;
    [apply respects_raise|].
  destruct (rows array) as [|row ?]; [apply respects_raise|].
  destruct (length row =? 0)%nat; [apply respects_raise|].
  unfold SchemaSpace_new. destruct (space_of_tuple row) as [[i n]|];
    [|apply respects_raise].
  apply respects_bind; [by apply respects_modify|intros _; apply respects_ret].
Qed.

End Loops.

(** ** Slots that are not in the waiter table *)

(** The slot at [a] exists and no id of the table maps to it. *)
Definition untouched (a : addr) (s : State) : Prop :=
  (a < length (futures s))%nat /\ forall k, _waiters s !! k <> Some a.

(** Such a slot stays out of the table, with its content. *)
Definition keeps (a : addr) (s s' : State) : Prop :=
  untouched a s -> untouched a s' /\ futures s' !! a = futures s !! a.

Lemma keeps_trans a s1 s2 s3 : keeps a s1 s2 -> keeps a s2 s3 -> keeps a s1 s3.
Proof.
  intros H12 H23 H1. destruct (H12 H1) as [H2 E2].
  destruct (H23 H2) as [H3 E3]. split; [done|congruence].
Qed.

Lemma keeps_same a s s' :
  futures s' = futures s -> _waiters s' = _waiters s -> trace s' = trace s ->
  req_num s' = req_num s ->
  keeps a s s'.
Proof. intros Hf Hw _ _ [Hl Hk]. unfold untouched. by rewrite Hf, Hw. Qed.

Lemma keeps_emit a ev : respects (keeps a) (emit ev).
Proof. intros s [Hl Hk]. by split. Qed.

Lemma keeps_resolve a w f : w <> a -> respects (keeps a) (resolve w f).
Proof.
  intros Hne s [Hl Hk]. unfold resolve, bind, modify, emit, untouched; simpl.
  rewrite length_insert, list_lookup_insert_ne by done. done.
Qed.

Lemma keeps_set_result a w r : w <> a -> respects (keeps a) (set_result w r).
Proof.
  intros Hne s. unfold set_result, bind, get.
  destruct (futures s !! w) as [[]|];
    first [by apply keeps_resolve|by apply keeps_same].
Qed.

Lemma keeps_set_exception a w e : w <> a -> respects (keeps a) (set_exception w e).
Proof.
  intros Hne s. unfold set_exception, bind, get.
  destruct (futures s !! w) as [[]|];
    first [by apply keeps_resolve|by apply keeps_same].
Qed.

Lemma keeps_cancel a w : w <> a -> respects (keeps a) (cancel w).
Proof.
  intros Hne s. unfold cancel, bind, get.
  destruct (futures s !! w) as [[]|];
    first [by apply keeps_resolve|by apply keeps_same].
Qed.

Lemma keeps_delete a k :
  respects (keeps a) (modify (fun s => set_waiters (delete k (_waiters s)) s)).
Proof.
  intros s [Hl Hk]. split; [split; [done|]|done]. simpl. intros k'.
  rewrite lookup_delete_Some. intros [_ Hk']. by eapply Hk.
Qed.

Lemma keeps_register a k : respects (keeps a) (register k).
Proof.
  intros s [Hl Hk]. rewrite register_unfold. unfold untouched; simpl.
  rewrite length_app, lookup_app_l by done. split; [split; [lia|]|done].
  intros k'. destruct (decide (k = k')) as [->|Hne].
  - rewrite lookup_insert_eq. intros [= Heq]. lia.
  - rewrite lookup_insert_ne by done. apply Hk.
Qed.

Lemma keeps_generate_sync a : respects (keeps a) generate_sync.
Proof.
  intros s [Hl Hk]. rewrite generate_sync_unfold. unfold untouched.
  state_simpl. rewrite length_app, lookup_app_l by done.
  split; [split; [lia|]|done]. intros k'.
  match goal with |- <[?k := _]> _ !! _ <> _ =>
    destruct (decide (k = k')) as [->|Hne] end.
  - rewrite lookup_insert_eq. intros [= Heq]. lia.
  - rewrite lookup_insert_ne by done. apply Hk.
Qed.

Lemma keeps_do_close `{Tarantool} a exc : respects (keeps a) (_do_close exc).
Proof.
  pose proof (keeps_trans a) as Ht. pose proof (keeps_same a) as Hs.
  unfold _do_close. apply respects_bind; [exact Ht|by apply respects_get|].
  intros s0. destruct (negb (connected s0)); [by apply respects_ret|].
  apply respects_with_lock; [exact Ht|exact Hs|].
  apply respects_bind; [exact Ht|by apply respects_modify|intros _].
  apply respects_get_bind. intros s Hun.
  assert (forall w, w ∈ (map_to_list (_waiters s)).*2 -> w <> a) as Hl.
  { intros w Hw ->. apply list_elem_of_fmap in Hw as [[k a'] [-> Hka]].
    apply elem_of_map_to_list in Hka. by eapply (proj2 Hun). }
  revert Hun.
  destruct (_reader_task s); [|by apply respects_raise].
  apply respects_bind; [exact Ht|by apply respects_modify|intros _].
  destruct (_writer_task s); [|by apply respects_raise].
  apply respects_bind; [exact Ht|by apply respects_modify|intros _].
  apply respects_bind; [exact Ht|by apply respects_modify|intros _].
  apply respects_bind; [exact Ht|by apply respects_modify|intros _].
  apply respects_bind; [exact Ht| |intros _].
  - apply respects_for_each; [exact Ht|exact Hs|]. intros w Hw. destruct exc.
    + by apply keeps_set_exception, Hl.
    + by apply keeps_cancel, Hl.
  - intros s1 [Hlen _]. split; [split; [done|]|done].
    simpl. intros k. by rewrite lookup_empty.
Qed.

Lemma keeps_dispatch_response `{Tarantool} a r :
  respects (keeps a) (dispatch_response r).
Proof.
  pose proof (keeps_trans a) as Ht. pose proof (keeps_same a) as Hs.
  unfold dispatch_response. apply respects_get_bind. intros s Hun.
  destruct (_waiters s !! sync r) as [w|] eqn:Hw; [|by apply keeps_emit].
  assert (w <> a) as Hne by (intros ->; by eapply (proj2 Hun)).
  revert Hun. apply respects_bind; [exact Ht| |intros _; apply keeps_delete].
  destruct (return_code r =? 0);
    [by apply keeps_set_result|by apply keeps_set_exception].
Qed.

(** ** Everything that can happen to a connection object

    The operations of the connection and of the schema, the loops of the
    reader and of the writer, and the pieces of a dispatch between two
    suspension points. *)

Inductive conn_step `{Tarantool} : State -> State -> Prop :=
| step_generate_sync s : conn_step s (generate_sync s).2
| step_response_reader s chunks : conn_step s (_response_reader chunks s).2
| step_send_attempt s request : conn_step s (send_attempt request s).2
| step_await s waiter : conn_step s (await waiter s).2
| step_send_resume s request response :
    conn_step s (send_resume request response s).2
| step_frames_loop s fuel buf len_buf curr :
    conn_step s (frames_loop fuel buf len_buf curr s).2
| step_reader_iteration s tmp_buf : conn_step s (reader_iteration tmp_buf s).2
| step_writer_iteration s : conn_step s (writer_iteration s).2
| step_do_close s exc : conn_step s (_do_close exc s).2
| step_connect s : conn_step s (connect s).2
| step_send_request s request : conn_step s (_send_request request s).2
| step_authenticate s u p : conn_step s (authenticate u p s).2
| step_select s space_name key offset limit index_name iterator_type :
    conn_step s
      (select space_name key offset limit index_name iterator_type s).2
| step_get_space s space : conn_step s (get_space space s).2
| step_flush s : conn_step s (flush s).2.

Section Steps.
Context `{Tarantool}.

Lemma conn_step_keeps a s s' : conn_step s s' -> keeps a s s'.
Proof.
  pose proof (keeps_trans a) as Ht. pose proof (keeps_same a) as Hs.
  pose proof (keeps_dispatch_response a) as Hd.
  pose proof (keeps_do_close a) as Hc.
  pose proof (keeps_register a) as Hr.
  pose proof (keeps_generate_sync a) as Hg.
  pose proof (fun b => keeps_emit a (EvDecode b)) as Hev1.
  pose proof (fun b => keeps_emit a (EvWrite b)) as Hev2.
  pose proof (fun b => keeps_emit a (EvEnqueue b)) as Hev3.
  pose proof (fun b => keeps_emit a (EvWarn b)) as Hev4.
  destruct 1.
  - apply Hg.
  - by apply respects_response_reader.
  - by apply respects_send_attempt.
  - by apply respects_await.
  - by apply respects_send_resume.
  - by apply respects_frames_loop.
  - by apply respects_reader_iteration.
  - by apply respects_writer_iteration.
  - apply Hc.
  - by apply respects_connect.
  - by apply respects_send_request.
  - by apply respects_authenticate.
  - by apply respects_select.
  - by apply respects_get_space.
  - by apply Hs.
Qed.

Lemma conn_steps_keeps a s s' : rtc conn_step s s' -> keeps a s s'.
Proof.
  induction 1 as [s|s1 s2 s3 H12 _ IH]; [by apply keeps_same|].
  eapply keeps_trans; [by apply conn_step_keeps|exact IH].
Qed.

End Steps.

(** ** Allocation over an id that is still waited for *)

(** C10: [generate_sync] always leaves the id it returns mapped to a new,
    unresolved slot.  When the id was still in the waiter table, the slot
    that was registered under it is no longer in the table, and nothing
    that happens to the connection afterwards resolves it or puts it
    back: the reader loop only resolves slots that it finds in the
    table. *)
Theorem generate_sync_drops_pending_waiter `{Tarantool} (s : State) :
  let k := if req_num s + 1 <=? 10000000 then req_num s + 1 else 0 in
  let fresh := length (futures s) in
  let s1 := (generate_sync s).2 in
  ((generate_sync s).1 = Ok k
   /\ futures s !! fresh = None
   /\ _waiters s1 !! k = Some fresh
   /\ futures s1 !! fresh = Some Pending)
  /\ forall old : addr,
       waiters_ok s ->
       _waiters s !! k = Some old ->
       old <> fresh
       /\ (forall k', _waiters s1 !! k' <> Some old)
       /\ forall s2, rtc conn_step s1 s2 ->
            futures s2 !! old = Some Pending
            /\ forall k', _waiters s2 !! k' <> Some old.
Proof.
  intros k fresh s1. subst s1. rewrite generate_sync_unfold. simpl.
  replace (if 10000000 <? req_num s + 1 then 0 else req_num s + 1) with k
    by (subst k; destruct (Z.ltb_spec 10000000 (req_num s + 1)),
          (Z.leb_spec (req_num s + 1) 10000000); lia).
  split.
  - repeat split.
    + apply lookup_ge_None_2. subst fresh. lia.
    + apply lookup_insert_eq.
    + subst fresh. rewrite lookup_app_r by lia. by rewrite Nat.sub_diag.
  - intros old Hok Hold.
    pose proof (waiters_ok_lt s k old Hok Hold) as Hlt.
    assert (forall k', <[k:=fresh]> (_waiters s) !! k' <> Some old) as Hout.
    { intros k'. destruct (decide (k = k')) as [<-|Hne].
      - rewrite lookup_insert_eq. intros [= Heq]. subst fresh. lia.
      - rewrite lookup_insert_ne by done. intros Hk'.
        apply Hne. by eapply (proj2 Hok). }
    split; [subst fresh; lia|]. split; [exact Hout|].
    intros s2 Hsteps. apply (conn_steps_keeps old) in Hsteps.
    destruct Hsteps as [[_ Hk2] Hf2].
    { split; [simpl; rewrite length_app; lia|exact Hout]. }
    split; [|exact Hk2]. rewrite Hf2. simpl.
    rewrite lookup_app_l by done. by eapply (proj1 Hok).
Qed.

(** ** The frames of the reader loop *)

Lemma pyslice_length {A} (l : list A) (lo hi : Z) :
  0 <= lo <= hi -> hi <= Z.of_nat (length l) ->
  Z.of_nat (length (pyslice l lo hi)) = hi - lo.
Proof.
  intros Hlo Hhi. unfold pyslice, slice_index.
  destruct (Z.ltb_spec lo 0), (Z.ltb_spec hi 0); try lia.
  rewrite length_take, length_drop. lia.
Qed.

(** The trace grows, by events that all satisfy [P]. *)
Definition grows (P : Event -> Prop) (s s' : State) : Prop :=
  exists evs, trace s' = trace s ++ evs /\ Forall P evs.

Lemma grows_trans P s1 s2 s3 : grows P s1 s2 -> grows P s2 s3 -> grows P s1 s3.
Proof.
  intros (e1 & H1 & N1) (e2 & H2 & N2). exists (e1 ++ e2). split.
  - by rewrite H2, H1, app_assoc.
  - by apply Forall_app.
Qed.

Lemma grows_same P s s' :
  futures s' = futures s -> _waiters s' = _waiters s -> trace s' = trace s ->
  req_num s' = req_num s ->
  grows P s s'.
Proof. intros _ _ Ht _. exists []. split; [by rewrite app_nil_r|done]. Qed.

Lemma grows_emit (P : Event -> Prop) ev : P ev -> respects (grows P) (emit ev).
Proof. intros Hev s. exists [ev]. split; [done|]. by apply Forall_singleton. Qed.

Lemma grows_resolve (P : Event -> Prop) w f :
  P (EvResolve w f) -> respects (grows P) (resolve w f).
Proof. intros Hev s. exists [EvResolve w f]. split; [done|]. by apply Forall_singleton. Qed.

Section Grows.
Context `{Tarantool}.
Variable P : Event -> Prop.
Hypothesis P_resolve : forall w f, P (EvResolve w f).

Lemma grows_table (g : State -> gmap Z addr) :
  respects (grows P) (modify (fun s => set_waiters (g s) s)).
Proof. intros s. exists []. split; [simpl; by rewrite app_nil_r|done]. Qed.

Lemma grows_do_close exc : respects (grows P) (_do_close exc).
Proof.
  apply respects_do_close;
    [apply grows_trans|apply grows_same
    |intros w f; by apply grows_resolve|apply grows_table].
Qed.

Hypothesis P_log : forall r, P (EvLogError r).

Lemma grows_dispatch_response (r : Response) :
  respects (grows P) (dispatch_response r).
Proof.
  apply respects_dispatch_response;
    [apply grows_trans|apply grows_same|intros w f; by apply grows_resolve
    |intros r'; by apply grows_emit|apply grows_table].
Qed.

End Grows.

Definition not_decode (ev : Event) : Prop := forall body, ev <> EvDecode body.

Section Frames.
Context `{Tarantool}.

(** Every body that the loop hands to the decoder is a complete frame of
    the buffer. *)
Lemma frames_loop_decodes (fuel : nat) (buf : bytes) (curr : Z) (s : State) :
  exists evs,
    trace (frames_loop fuel buf (Z.of_nat (length buf)) curr s).2 = trace s ++ evs
    /\ forall body, EvDecode body ∈ evs ->
         exists pos len, frame_at buf pos len body.
Proof.
  revert curr s. induction fuel as [|fuel IH]; intros curr s; simpl.
  { exists []. split; [by rewrite app_nil_r|]. by intros body ?%elem_of_nil. }
  assert (exists evs, trace s = trace s ++ evs
          /\ forall body, EvDecode body ∈ evs ->
               exists pos len, frame_at buf pos len body) as Hnone.
  { exists []. split; [by rewrite app_nil_r|]. by intros body ?%elem_of_nil. }
  destruct (Z.leb_spec 5 (Z.of_nat (length buf) - curr)) as [H5|]; [|done].
  destruct (unpackb (pyslice buf curr (curr + 5))) as [len|] eqn:Hu; [|done].
  destruct (Z.ltb_spec (Z.of_nat (length buf) - curr) (5 + len)) as [|Hl];
    [done|].
  set (body := pyslice buf (curr + 5) (curr + 5 + len)).
  assert (frame_at buf curr len body) as Hframe by done.
  unfold bind at 1; simpl.
  destruct (Response_unpack body) as [r|]; simpl.
  2:{ exists [EvDecode body]. split; [done|].
      intros b [= ->]%list_elem_of_singleton. eauto. }
  unfold bind at 1.
  destruct (grows_dispatch_response not_decode
              ltac:(by intros ???) ltac:(by intros ??) r
              (set_trace (trace s ++ [EvDecode body]) s)) as (e1 & He1 & Hn1).
  rewrite Forall_forall in Hn1.
  destruct (dispatch_response r _) as [[[]|e| |] s1]; simpl in *.
  - destruct (IH (curr + (5 + len)) s1) as (e2 & He2 & Hf2).
    exists (EvDecode body :: e1 ++ e2). split.
    + rewrite He2, He1. by rewrite <- !app_assoc.
    + intros b [[= ->]|[Hin|Hin]%elem_of_app]%elem_of_cons; eauto.
      by destruct (Hn1 _ Hin b).
  - exists (EvDecode body :: e1). split; [by rewrite He1, <- app_assoc|].
    intros b [[= ->]|Hin]%elem_of_cons; eauto. by destruct (Hn1 _ Hin b).
  - exists (EvDecode body :: e1). split; [by rewrite He1, <- app_assoc|].
    intros b [[= ->]|Hin]%elem_of_cons; eauto. by destruct (Hn1 _ Hin b).
  - exists (EvDecode body :: e1). split; [by rewrite He1, <- app_assoc|].
    intros b [[= ->]|Hin]%elem_of_cons; eauto. by destruct (Hn1 _ Hin b).
Qed.

(** The bytes at [curr] do not make a complete frame yet. *)
Definition incomplete_at (buf : bytes) (curr : Z) : Prop :=
  Z.of_nat (length buf) - curr < 5
  \/ exists len, unpackb (pyslice buf curr (curr + 5)) = Some len
                 /\ Z.of_nat (length buf) - curr < 5 + len.

Lemma frames_loop_incomplete (fuel : nat) (buf : bytes) (curr : Z) (s : State) :
  incomplete_at buf curr ->
  frames_loop (S fuel) buf (Z.of_nat (length buf)) curr s = (Ok curr, s).
Proof.
  intros [Hlt|(len & Hu & Hlt)]; simpl.
  - by destruct (Z.leb_spec 5 (Z.of_nat (length buf) - curr)); [lia|].
  - destruct (Z.leb_spec 5 (Z.of_nat (length buf) - curr)); [|done].
    rewrite Hu. by destruct (Z.ltb_spec (Z.of_nat (length buf) - curr) (5 + len));
      [|lia].
Qed.

End Frames.


(** ** Closing *)

(** What [_do_close] leaves in a slot that was pending. *)
Definition close_outcome (exc : option Exc) : Future :=
  match exc with
  | None => Cancelled
  | Some e => Exception e
  end.

Definition resolve_all (o : Future) (l : list addr) (fs : list Future) : list Future :=
  foldl (fun fs w => <[w := o]> fs) fs l.

Lemma resolve_all_length o l fs : length (resolve_all o l fs) = length fs.
Proof.
  revert fs. induction l as [|w l IH]; intros fs; simpl; [done|].
  unfold resolve_all in *. simpl. by rewrite IH, length_insert.
Qed.

Lemma resolve_all_notin o l fs a : a ∉ l -> resolve_all o l fs !! a = fs !! a.
Proof.
  revert fs. induction l as [|w l IH]; intros fs Hin; [done|].
  apply not_elem_of_cons in Hin as [Hne Hin]. unfold resolve_all in *. simpl.
  rewrite IH by done. by apply list_lookup_insert_ne.
Qed.

Lemma resolve_all_in o l fs a :
  NoDup l -> a ∈ l -> (a < length fs)%nat -> resolve_all o l fs !! a = Some o.
Proof.
  revert fs. induction l as [|w l IH]; intros fs Hnd Hin Hlt.
  { by apply elem_of_nil in Hin. }
  apply NoDup_cons in Hnd as [Hw Hnd]. unfold resolve_all in *. simpl.
  apply elem_of_cons in Hin as [->|Hin].
  - fold (resolve_all o l (<[w:=o]> fs)). rewrite resolve_all_notin by done.
    by apply list_lookup_insert_eq.
  - apply IH; [done..|by rewrite length_insert].
Qed.

Lemma for_each_close (exc : option Exc) (l : list addr) (s : State) :
  NoDup l ->
  (forall w, w ∈ l -> futures s !! w = Some Pending) ->
  for_each l (fun waiter =>
                match exc with
                | None => cancel waiter
                | Some e => set_exception waiter e
                end) s
  = (Ok tt,
     set_trace (trace s ++ ((fun w => EvResolve w (close_outcome exc)) <$> l))
       (set_futures (resolve_all (close_outcome exc) l (futures s)) s)).
Proof.
  revert s. induction l as [|w l IH]; intros s Hnd Hp; simpl.
  { unfold ret, set_trace, set_futures; simpl. rewrite app_nil_r. by destruct s. }
  apply NoDup_cons in Hnd as [Hw Hnd].
  assert (futures s !! w = Some Pending) as Hpw by (apply Hp; by left).
  unfold bind at 1.
  assert ((match exc with
           | None => cancel w
           | Some e => set_exception w e
           end) s
          = (Ok tt, set_trace (trace s ++ [EvResolve w (close_outcome exc)])
                      (set_futures (<[w := close_outcome exc]> (futures s)) s)))
    as ->.
  { destruct exc; unfold cancel, set_exception, bind, get; by rewrite Hpw. }
  rewrite IH; [|done|].
  - unfold set_trace, set_futures, resolve_all; simpl. by rewrite <- app_assoc.
  - intros w' Hw'. simpl. rewrite list_lookup_insert_ne by (by intros ->).
    apply Hp. by right.
Qed.

Lemma waiters_values_NoDup (s : State) :
  waiters_ok s -> NoDup (map_to_list (_waiters s)).*2.
Proof.
  intros [_ Hi]. apply NoDup_fmap_2_strong; [|apply NoDup_map_to_list].
  intros [k1 a1] [k2 a2] H1%elem_of_map_to_list H2%elem_of_map_to_list Heq.
  simpl in Heq. subst a2. f_equal. by eapply Hi.
Qed.

Lemma waiters_values_elem (s : State) (a : addr) :
  a ∈ (map_to_list (_waiters s)).*2 <-> exists k, _waiters s !! k = Some a.
Proof.
  rewrite list_elem_of_fmap. split.
  - intros [[k a'] [-> Hin%elem_of_map_to_list]]. by exists k.
  - intros [k Hk]. exists (k, a). split; [done|]. by apply elem_of_map_to_list.
Qed.

(** The state that closing a connected instance leaves. *)
Definition closed (exc : option Exc) (s : State) : State :=
  let l := (map_to_list (_waiters s)).*2 in
  set_waiters ∅
    (set_trace (trace s ++ ((fun w => EvResolve w (close_outcome exc)) <$> l))
       (set_futures (resolve_all (close_outcome exc) l (futures s))
          (set_write_buf None (set_write_event None
             (set_writer_task None (set_reader_task None
                (set_connected false s))))))).

Lemma do_close_connected (exc : option Exc) (s : State) :
  connected s = true ->
  lock s <> 0%nat ->
  _reader_task s <> None ->
  _writer_task s <> None ->
  waiters_ok s ->
  _do_close exc s = (Ok tt, closed exc s).
Proof.
  intros Hc Hl Hr Hw Hok.
  destruct (lock s) as [|n] eqn:Hlock; [done|].
  destruct (_reader_task s) as [t1|] eqn:Hrt; [|done].
  destruct (_writer_task s) as [t2|] eqn:Hwt; [|done].
  unfold _do_close, with_lock, bind, get, modify, acquire.
  cbv beta. rewrite Hc. cbn [negb]. cbv beta iota. rewrite Hlock.
  cbv beta iota. cbn [_reader_task _writer_task _waiters set_connected set_lock].
  rewrite Hrt, Hwt. cbv beta iota. rewrite for_each_close.
  - unfold closed, release. f_equal. by state_eq.
  - by apply waiters_values_NoDup.
  - intros w [k Hk]%waiters_values_elem. state_simpl. by eapply (proj1 Hok).
Qed.

(** ** What holds of every state of a connection *)

Definition counter_ok (s : State) : Prop := 0 <= req_num s <= 10000000.

(** The two relations that carry the invariants through the steps. *)
Definition keeps_counter (s s' : State) : Prop := counter_ok s -> counter_ok s'.
Definition keeps_waiters (s s' : State) : Prop := waiters_ok s -> waiters_ok s'.

Lemma keeps_counter_same s s' : req_num s' = req_num s -> keeps_counter s s'.
Proof. unfold keeps_counter, counter_ok. by intros ->. Qed.

Lemma keeps_waiters_same s s' :
  futures s' = futures s -> _waiters s' = _waiters s -> keeps_waiters s s'.
Proof. unfold keeps_waiters, waiters_ok. by intros -> ->. Qed.

Lemma do_close_cases (exc : option Exc) (s : State) :
  waiters_ok s ->
  (_do_close exc s).2 = closed exc s
  \/ (futures (_do_close exc s).2 = futures s
      /\ _waiters (_do_close exc s).2 = _waiters s).
Proof.
  intros Hok. destruct (connected s) eqn:Hc.
  2:{ right. unfold _do_close, bind, get. by rewrite Hc. }
  destruct (lock s) as [|n] eqn:Hl.
  { right. unfold _do_close, with_lock, bind, get, acquire.
    cbv beta. rewrite Hc. cbn [negb]. cbv beta iota. by rewrite Hl. }
  destruct (_reader_task s) as [t1|] eqn:Hrt, (_writer_task s) as [t2|] eqn:Hwt.
  - left. rewrite (do_close_connected exc s Hc);
      [done|by rewrite Hl|by rewrite Hrt|by rewrite Hwt|done].
  - right. unfold _do_close, with_lock, bind, get, modify, acquire.
    cbv beta. rewrite Hc. cbn [negb]. cbv beta iota. rewrite Hl. cbv beta iota.
    cbn [_reader_task _writer_task set_connected set_lock]. by rewrite Hrt, Hwt.
  - right. unfold _do_close, with_lock, bind, get, modify, acquire.
    cbv beta. rewrite Hc. cbn [negb]. cbv beta iota. rewrite Hl. cbv beta iota.
    cbn [_reader_task _writer_task set_connected set_lock]. by rewrite Hrt.
  - right. unfold _do_close, with_lock, bind, get, modify, acquire.
    cbv beta. rewrite Hc. cbn [negb]. cbv beta iota. rewrite Hl. cbv beta iota.
    cbn [_reader_task _writer_task set_connected set_lock]. by rewrite Hrt.
Qed.

Section Invariants.
Context `{Tarantool}.

Lemma conn_step_counter s s' : conn_step s s' -> keeps_counter s s'.
Proof.
  assert (forall s1 s2 s3, keeps_counter s1 s2 -> keeps_counter s2 s3 ->
                           keeps_counter s1 s3) as Ht
    by (unfold keeps_counter; auto).
  assert (forall s s', futures s' = futures s -> _waiters s' = _waiters s ->
                       trace s' = trace s -> req_num s' = req_num s ->
                       keeps_counter s s') as Hs
    by (intros; by apply keeps_counter_same).
  assert (forall ev, respects keeps_counter (emit ev)) as Hev
    by (intros ev s0; by apply keeps_counter_same).
  assert (forall w f, respects keeps_counter (resolve w f)) as Hres
    by (intros w f s0; by apply keeps_counter_same).
  assert (forall g : State -> gmap Z addr,
            respects keeps_counter (modify (fun s => set_waiters (g s) s))) as Htab
    by (intros g s0; by apply keeps_counter_same).
  pose proof (respects_dispatch_response _ Ht Hs Hres (fun r => Hev _) Htab) as Hd.
  pose proof (respects_do_close _ Ht Hs Hres Htab) as Hc.
  assert (forall k, respects keeps_counter (register k)) as Hr
    by (intros k s0; by apply keeps_counter_same).
  assert (respects keeps_counter generate_sync) as Hg.
  { intros s0 Hc0. rewrite generate_sync_unfold. unfold counter_ok in *.
    state_simpl. destruct (Z.ltb_spec 10000000 (req_num s0 + 1)); lia. }
  destruct 1.
  - apply Hg.
  - by apply respects_response_reader.
  - by apply respects_send_attempt.
  - by apply respects_await.
  - by apply respects_send_resume.
  - by apply respects_frames_loop.
  - by apply respects_reader_iteration.
  - by apply respects_writer_iteration.
  - apply Hc.
  - by apply respects_connect.
  - by apply respects_send_request.
  - by apply respects_authenticate.
  - by apply respects_select.
  - by apply respects_get_space.
  - by apply Hs.
Qed.

Lemma conn_step_waiters s s' : conn_step s s' -> keeps_waiters s s'.
Proof.
  assert (forall s1 s2 s3, keeps_waiters s1 s2 -> keeps_waiters s2 s3 ->
                           keeps_waiters s1 s3) as Ht
    by (unfold keeps_waiters; auto).
  assert (forall s s', futures s' = futures s -> _waiters s' = _waiters s ->
                       trace s' = trace s -> req_num s' = req_num s ->
                       keeps_waiters s s') as Hs
    by (intros; by apply keeps_waiters_same).
  assert (forall ev, respects keeps_waiters (emit ev)) as Hev
    by (intros ev s0; by apply keeps_waiters_same).
  assert (forall r, respects keeps_waiters (dispatch_response r)) as Hd
    by (intros r s0 Hok; by apply waiters_ok_dispatch_response).
  assert (forall exc, respects keeps_waiters (_do_close exc)) as Hc.
  { intros exc s0 Hok. destruct (do_close_cases exc s0 Hok) as [->|[Hf Hw]].
    - split; simpl; intros *; rewrite lookup_empty; discriminate.
    - by apply (keeps_waiters_same s0). }
  assert (forall k, respects keeps_waiters (register k)) as Hr
    by (intros k s0 Hok; by apply waiters_ok_register).
  assert (respects keeps_waiters generate_sync) as Hg
    by (intros s0 Hok; by apply waiters_ok_generate_sync).
  destruct 1.
  - apply Hg.
  - by apply respects_response_reader.
  - by apply respects_send_attempt.
  - by apply respects_await.
  - by apply respects_send_resume.
  - by apply respects_frames_loop.
  - by apply respects_reader_iteration.
  - by apply respects_writer_iteration.
  - apply Hc.
  - by apply respects_connect.
  - by apply respects_send_request.
  - by apply respects_authenticate.
  - by apply respects_select.
  - by apply respects_get_space.
  - by apply Hs.
Qed.

(** From a new connection object on, the counter stays between 0 and the
    ceiling, and the waiter table maps every id to an unresolved slot of
    its own. *)
Lemma conn_steps_invariants usr pwd input s :
  rtc conn_step (Connection usr pwd input) s -> counter_ok s /\ waiters_ok s.
Proof.
  intros Hsteps.
  assert (counter_ok (Connection usr pwd input)
          /\ waiters_ok (Connection usr pwd input)) as Hinit.
  { split; [unfold counter_ok; simpl; lia|apply waiters_ok_init]. }
  revert Hinit. induction Hsteps as [s|s1 s2 s3 H12 _ IH]; [done|].
  intros [Hc Hw]. apply IH. split.
  - by apply (conn_step_counter s1 s2).
  - by apply (conn_step_waiters s1 s2).
Qed.

(** C6: from a counter value [n] the next id is [n + 1] when that is at
    most 10,000,000 and [0] otherwise, and the counter is left at the id;
    whatever has happened to a connection object since it was created,
    the id that [generate_sync] returns lies between 0 and 10,000,000. *)
Theorem generate_sync_next_id :
  (forall s : State,
     (generate_sync s).1 =
       Ok (if req_num s + 1 <=? 10000000 then req_num s + 1 else 0)
     /\ Ok (req_num (generate_sync s).2) = (generate_sync s).1)
  /\ (forall usr pwd input s,
        rtc conn_step (Connection usr pwd input) s ->
        match (generate_sync s).1 with
        | Ok k => 0 <= k <= 10000000
        | _ => False
        end).
Proof.
  split.
  - intros s. rewrite generate_sync_unfold; simpl.
    destruct (Z.ltb_spec 10000000 (req_num s + 1)),
             (Z.leb_spec (req_num s + 1) 10000000); try lia; done.
  - intros usr pwd input s Hsteps.
    destruct (conn_steps_invariants usr pwd input s Hsteps) as [Hc _].
    unfold counter_ok in Hc. rewrite generate_sync_unfold; simpl.
    destruct (Z.ltb_spec 10000000 (req_num s + 1)); lia.
Qed.

End Invariants.

Section ReaderLoop.
Context `{Tarantool}.

Lemma reader_iteration_incomplete (tmp_buf : bytes) (s : State) :
  tmp_buf <> [] ->
  incomplete_at (reader_buf s ++ tmp_buf) 0 ->
  reader_iteration tmp_buf s = (Ok tt, set_reader_buf (reader_buf s ++ tmp_buf) s).
Proof.
  intros Hne Hinc. unfold reader_iteration.
  destruct tmp_buf as [|b tmp_buf]; [done|].
  pose proof (frames_loop_incomplete (length (reader_buf s ++ b :: tmp_buf))
    _ 0 (set_reader_buf (reader_buf s ++ b :: tmp_buf) s) Hinc) as E.
  unfold bind, get, modify, ret. cbv beta iota. by rewrite E.
Qed.

Lemma dispatch_response_ok (r : Response) (s : State) :
  waiters_ok s ->
  (dispatch_response r s).1 = Ok tt /\ waiters_ok (dispatch_response r s).2.
Proof.
  intros Hok. split; [|by apply waiters_ok_dispatch_response].
  destruct (_waiters s !! sync r) as [a|] eqn:Hw.
  - by rewrite (dispatch_response_matched r s a Hw) by (by eapply (proj1 Hok)).
  - by rewrite dispatch_response_unmatched.
Qed.

Lemma dispatch_response_returns (r : Response) (s : State) :
  (dispatch_response r s).1 = Ok tt
  \/ exists e, (dispatch_response r s).1 = Raise e.
Proof.
  unfold dispatch_response, bind, get.
  destruct (_waiters s !! sync r) as [w|]; [|by left].
  destruct (return_code r =? 0); unfold set_result, set_exception, bind, get;
    destruct (futures s !! w) as [[]|]; simpl; eauto.
Qed.

(** With declared lengths that are not negative, [curr] moves forward by
    five bytes at least in every pass, and the loop is done before the
    fuel that [reader_iteration] gives it is used up. *)
Lemma frames_loop_fuel (fuel : nat) (buf : bytes) (curr : Z) (s : State) :
  (forall p len, unpackb p = Some len -> 0 <= len) ->
  (Z.to_nat (Z.of_nat (length buf) - curr) < fuel)%nat ->
  (frames_loop fuel buf (Z.of_nat (length buf)) curr s).1 <> OutOfFuel.
Proof.
  intros Hlen. revert curr s.
  induction fuel as [|fuel IH]; intros curr s Hfuel; [lia|]. simpl.
  destruct (Z.leb_spec 5 (Z.of_nat (length buf) - curr)) as [H5|]; [|done].
  destruct (unpackb (pyslice buf curr (curr + 5))) as [len|] eqn:Hu; [|done].
  apply Hlen in Hu.
  destruct (Z.ltb_spec (Z.of_nat (length buf) - curr) (5 + len)) as [|Hl];
    [done|].
  unfold bind at 1. simpl.
  destruct (Response_unpack _) as [r|]; [|done]. unfold bind.
  destruct (dispatch_response_returns r
              (set_trace (trace s ++ [EvDecode
                 (pyslice buf (curr + 5) (curr + 5 + len))]) s)) as [Hd|[e Hd]];
    destruct (dispatch_response r _) as [res s1]; simpl in Hd; subst res;
    [|done].
  apply IH. lia.
Qed.

(** From [curr] on the buffer holds complete frames that decode to the
    given responses, and then, at [stop], something that is not a
    complete frame. *)
Inductive framed (buf : bytes) : Z -> list Response -> Z -> Prop :=
| framed_nil curr : incomplete_at buf curr -> framed buf curr [] curr
| framed_cons curr len body r rs stop :
    frame_at buf curr len body ->
    Response_unpack body = Some r ->
    framed buf (curr + (5 + len)) rs stop ->
    framed buf curr (r :: rs) stop.

(** Over such a buffer the loop never raises, whichever ids are waited
    for: it ends at [stop]. *)
Lemma frames_loop_framed (buf : bytes) (curr : Z) (rs : list Response) (stop : Z) :
  framed buf curr rs stop ->
  forall (fuel : nat) (s : State),
    waiters_ok s ->
    (length rs < fuel)%nat ->
    (frames_loop fuel buf (Z.of_nat (length buf)) curr s).1 = Ok stop
    /\ waiters_ok (frames_loop fuel buf (Z.of_nat (length buf)) curr s).2.
Proof.
  induction 1 as [curr Hinc|curr len body r rs stop Hf Hr _ IH];
    intros [|fuel] s Hok Hfuel; simpl in Hfuel; try lia.
  - by rewrite frames_loop_incomplete.
  - rewrite (frames_loop_frame fuel buf curr len body r s Hf Hr). unfold bind.
    destruct (dispatch_response_ok r (set_trace (trace s ++ [EvDecode body]) s))
      as [Hd Hok1]; [exact Hok|].
    destruct (dispatch_response r _) as [res s1]. simpl in Hd, Hok1. subst res.
    apply IH; [exact Hok1|lia].
Qed.

(** C2: every body that the inner loop hands to the response decoder is
    cut out of the buffer at a position where the buffer holds the 5-byte
    prefix and at least the declared length after it (and it has exactly
    that many bytes); where fewer than 5 bytes plus the declared length
    are available the loop stops there without touching anything, and the
    reader keeps the bytes for the next read. *)
Theorem reader_decodes_only_complete_frames
    (fuel : nat) (buf : bytes) (curr : Z) (s : State) :
  (exists evs,
     trace (frames_loop fuel buf (Z.of_nat (length buf)) curr s).2 = trace s ++ evs
     /\ forall body, EvDecode body ∈ evs ->
          exists pos len,
            frame_at buf pos len body
            /\ (0 <= pos -> 0 <= len -> Z.of_nat (length body) = len))
  /\ (incomplete_at buf curr ->
      frames_loop (S fuel) buf (Z.of_nat (length buf)) curr s = (Ok curr, s))
  /\ (forall tmp_buf,
        tmp_buf <> [] ->
        incomplete_at (reader_buf s ++ tmp_buf) 0 ->
        reader_iteration tmp_buf s
          = (Ok tt, set_reader_buf (reader_buf s ++ tmp_buf) s)).
Proof.
  split; [|split].
  - destruct (frames_loop_decodes fuel buf curr s) as (evs & Ht & Hd).
    exists evs. split; [exact Ht|]. intros body Hin.
    destruct (Hd body Hin) as (pos & len & Hf). exists pos, len.
    split; [exact Hf|]. intros Hpos Hlen.
    destruct Hf as (_ & _ & Hl & ->). rewrite pyslice_length; lia.
  - apply frames_loop_incomplete.
  - intros tmp_buf. apply reader_iteration_incomplete.
Qed.

(** C4: a complete frame whose correlation id is not in the waiter table
    is logged and dropped: the table and the slots stay as they are, and
    the loop goes on with the frames that follow in the buffer; what it
    returns is what it returns for them.  When these are complete frames
    up to some position, the loop gets there and returns, without an
    exception. *)
Theorem reader_discards_unmatched_frame
    (fuel : nat) (buf : bytes) (curr len : Z) (body : bytes)
    (r : Response) (s : State) :
  frame_at buf curr len body ->
  Response_unpack body = Some r ->
  _waiters s !! sync r = None ->
  frames_loop (S fuel) buf (Z.of_nat (length buf)) curr s =
    frames_loop fuel buf (Z.of_nat (length buf)) (curr + (5 + len))
      (set_trace (trace s ++ [EvDecode body; EvLogError r]) s)
  /\ forall rs stop,
       waiters_ok s ->
       framed buf (curr + (5 + len)) rs stop ->
       (length rs < fuel)%nat ->
       (frames_loop (S fuel) buf (Z.of_nat (length buf)) curr s).1 = Ok stop.
Proof.
  intros Hf Hr Hw.
  assert (frames_loop (S fuel) buf (Z.of_nat (length buf)) curr s =
          frames_loop fuel buf (Z.of_nat (length buf)) (curr + (5 + len))
            (set_trace (trace s ++ [EvDecode body; EvLogError r]) s)) as Heq.
  { rewrite (frames_loop_frame fuel buf curr len body r s Hf Hr).
    unfold bind. rewrite dispatch_response_unmatched by done.
    unfold set_trace; simpl. by rewrite <- app_assoc. }
  split; [exact Heq|]. intros rs stop Hok Hrest Hfuel. rewrite Heq.
  by apply (frames_loop_framed buf _ rs stop Hrest).
Qed.

(** C5: a complete frame whose correlation id is in the waiter table
    resolves the slot registered under it, with the response when the
    return code is zero and with a database error carrying the code and
    the message otherwise, and removes the id from the table before the
    loop goes on; the slot just resolved is not touched again by anything
    that happens to the connection.  In every state that a connection
    object gets into, the table maps every id to an unresolved slot of
    its own. *)
Theorem reader_resolves_matching_waiter :
  (forall usr pwd input s,
     rtc conn_step (Connection usr pwd input) s -> waiters_ok s)
  /\ forall (fuel : nat) (buf : bytes) (curr len : Z) (body : bytes)
       (r : Response) (s : State) (a : addr),
      waiters_ok s ->
      frame_at buf curr len body ->
      Response_unpack body = Some r ->
      _waiters s !! sync r = Some a ->
      let s1 :=
        set_waiters (delete (sync r) (_waiters s))
          (set_trace (trace s ++ [EvDecode body; EvResolve a (outcome_of r)])
             (set_futures (<[a := outcome_of r]> (futures s)) s)) in
      frames_loop (S fuel) buf (Z.of_nat (length buf)) curr s =
        frames_loop fuel buf (Z.of_nat (length buf)) (curr + (5 + len)) s1
      /\ futures s !! a = Some Pending
      /\ futures s1 !! a =
           Some (if return_code r =? 0 then Result r
                 else Exception
                        (DatabaseError (return_code r) (return_message r)))
      /\ _waiters s1 !! sync r = None
      /\ (forall k, k <> sync r -> _waiters s1 !! k = _waiters s !! k)
      /\ waiters_ok s1
      /\ forall s2, rtc conn_step s1 s2 -> futures s2 !! a = Some (outcome_of r).
Proof.
  split; [intros usr pwd input s Hsteps;
          by apply (conn_steps_invariants usr pwd input)|].
  intros fuel buf curr len body r s a Hok Hf Hr Hw s1.
  pose proof (proj1 Hok _ _ Hw) as Hp.
  pose proof (lookup_lt_Some _ _ _ Hp) as Hlt.
  assert (waiters_ok s1) as Hok1
    by (by eapply (waiters_ok_delete_resolved s s1 (sync r) a)).
  assert (futures s1 !! a = Some (outcome_of r)) as Ha
    by (by apply list_lookup_insert_eq).
  split; [|split; [exact Hp|split; [exact Ha|split; [|split; [|split]]]]].
  - rewrite (frames_loop_frame fuel buf curr len body r s Hf Hr).
    unfold bind. rewrite (dispatch_response_matched r _ a) by done.
    subst s1. f_equal. state_eq. by rewrite <- app_assoc.
  - apply lookup_delete_eq.
  - intros k Hk. by apply lookup_delete_ne.
  - exact Hok1.
  - intros s2 Hsteps.
    apply (conn_steps_keeps a) in Hsteps. destruct Hsteps as [_ ->]; [|done].
    split; [subst s1; simpl; by rewrite length_insert|].
    intros k. subst s1; simpl. rewrite lookup_delete_Some.
    intros [Hne Hk]. apply Hne. by eapply (proj2 Hok).
Qed.

End ReaderLoop.

(** ** Dispatch *)

(** What has been appended to the outbound buffer, in order. *)
Definition enqueued (evs : list Event) : list bytes :=
  omap (fun ev => match ev with EvEnqueue data => Some data | _ => None end) evs.

Definition not_enqueue (ev : Event) : Prop := forall data, ev <> EvEnqueue data.

Lemma enqueued_app evs1 evs2 : enqueued (evs1 ++ evs2) = enqueued evs1 ++ enqueued evs2.
Proof. apply omap_app. Qed.

Lemma enqueued_not_enqueue evs : Forall not_enqueue evs -> enqueued evs = [].
Proof.
  induction 1 as [|ev evs Hev _ IH]; [done|].
  destruct ev; try exact IH. by destruct (Hev data).
Qed.

Lemma new_request_unfold (encode : Z -> bytes) (s : State) :
  let k := if req_num s + 1 <=? 10000000 then req_num s + 1 else 0 in
  new_request encode s =
    (Ok (mkRequest k (encode k)),
     set_trace (trace s ++ [EvRegister k (length (futures s))])
       (set_waiters (<[k := length (futures s)]> (_waiters s))
          (set_futures (futures s ++ [Pending]) (set_req_num k s)))).
Proof.
  intros k. unfold new_request, bind. rewrite generate_sync_unfold.
  replace (if 10000000 <? req_num s + 1 then 0 else req_num s + 1) with k; [done|].
  subst k. destruct (Z.ltb_spec 10000000 (req_num s + 1)),
    (Z.leb_spec (req_num s + 1) 10000000); lia.
Qed.

Lemma send_attempt_ok (request : Request) (s : State) a buf ev :
  _waiters s !! request_sync request = Some a ->
  _write_buf s = Some buf ->
  _write_event s = Some ev ->
  send_attempt request s =
    (Ok a,
     set_write_event (Some true)
       (set_trace (trace s ++ [EvEnqueue (request_bytes request)])
          (set_write_buf (Some (buf ++ request_bytes request)) s))).
Proof.
  intros Hw Hb He. unfold send_attempt, bind, get. by rewrite Hw, Hb, He.
Qed.

Lemma send_attempt_no_waiter (request : Request) (s : State) :
  _waiters s !! request_sync request = None ->
  send_attempt request s = (Raise KeyError, s).
Proof. intros Hw. unfold send_attempt, bind, get. by rewrite Hw. Qed.

Lemma send_attempt_inv (request : Request) (s s1 : State) (w : addr) :
  send_attempt request s = (Ok w, s1) ->
  _waiters s !! request_sync request = Some w
  /\ trace s1 = trace s ++ [EvEnqueue (request_bytes request)]
  /\ futures s1 = futures s
  /\ _waiters s1 = _waiters s.
Proof.
  unfold send_attempt, bind, get, modify, emit.
  destruct (_waiters s !! request_sync request) as [a|]; [|done].
  destruct (_write_buf s) as [buf|]; [|done]. simpl.
  destruct (_write_event s) as [ev|]; [|done]. by intros [= <- <-].
Qed.

Lemma send_resume_retry (request : Request) (response : Response) (s : State) :
  completion_status response = 1 ->
  send_resume request response s =
    (Ok None,
     set_trace (trace s ++ [EvRegister (request_sync request) (length (futures s));
                            EvWarn (return_message response)])
       (set_waiters (<[request_sync request := length (futures s)]> (_waiters s))
          (set_futures (futures s ++ [Pending]) s))).
Proof.
  intros Hcs. unfold send_resume. rewrite Hcs. simpl.
  unfold bind. rewrite register_unfold. unfold emit, modify, ret; simpl.
  unfold set_trace; simpl. by rewrite <- app_assoc.
Qed.

Lemma send_resume_final (request : Request) (response : Response) (s : State) :
  completion_status response <> 1 ->
  send_resume request response s = (Ok (Some response), s).
Proof.
  intros Hcs. unfold send_resume.
  by destruct (Z.eqb_spec (completion_status response) 1).
Qed.

Section Dispatch.
Context `{Tarantool}.

Lemma await_enqueued (waiter : addr) (s : State) :
  enqueued (trace (await waiter s).2) = enqueued (trace s).
Proof.
  destruct (respects_await (grows not_enqueue)
              (grows_trans _) (grows_same _)
              (grows_dispatch_response not_enqueue
                 ltac:(by intros ???) ltac:(by intros ??))
              (grows_do_close not_enqueue ltac:(by intros ???))
              (fun b => grows_emit not_enqueue (EvDecode b) ltac:(by intros ?))
              (fun b => grows_emit not_enqueue (EvWrite b) ltac:(by intros ?))
              waiter s) as (evs & -> & Hevs).
  rewrite enqueued_app, (enqueued_not_enqueue evs) by done. apply app_nil_r.
Qed.

(** A run of attempts that all end in a response whose completion status
    is "retry needed": each attempt is made, its slot is awaited, and the
    response is followed by the re-registration of lines 304-305. *)
Inductive retried (request : Request) : State -> list Response -> State -> Prop :=
| retried_nil s : retried request s [] s
| retried_cons s waiter s1 response s2 responses s3 :
    send_attempt request s = (Ok waiter, s1) ->
    await waiter s1 = (Ok response, s2) ->
    completion_status response = 1 ->
    retried request (send_resume request response s2).2 responses s3 ->
    retried request s (response :: responses) s3.

Lemma send_loop_retried (request : Request) s responses s' :
  retried request s responses s' ->
  forall (n : nat) (prev : option Response),
    send_loop (length responses + n) request prev s =
      send_loop n request
        (match last responses with Some r => Some r | None => prev end) s'.
Proof.
  induction 1 as [s|s waiter s1 response s2 responses s3 Ha Hw Hcs _ IH];
    intros n prev; [done|].
  simpl. unfold bind at 1. rewrite Ha. unfold bind at 1. rewrite Hw.
  unfold bind at 1. rewrite send_resume_retry by done.
  rewrite send_resume_retry in IH by done. rewrite IH.
  destruct responses as [|r responses]; [reflexivity|].
  change (last (response :: r :: responses)) with (last (r :: responses)).
  destruct (last (r :: responses)) eqn:E; [done|by apply last_None in E].
Qed.

Lemma retried_enqueued (request : Request) s responses s' :
  retried request s responses s' ->
  enqueued (trace s') =
    enqueued (trace s) ++ replicate (length responses) (request_bytes request).
Proof.
  induction 1 as [s|s waiter s1 response s2 responses s3 Ha Hw Hcs _ IH].
  { by rewrite app_nil_r. }
  rewrite IH. rewrite send_resume_retry by done. simpl trace.
  rewrite enqueued_app. simpl enqueued. rewrite app_nil_r.
  pose proof (await_enqueued waiter s1) as Hq. rewrite Hw in Hq. simpl in Hq.
  rewrite Hq. apply send_attempt_inv in Ha as (_ & -> & _ & _).
  rewrite enqueued_app. simpl. by rewrite <- app_assoc.
Qed.

End Dispatch.

Section Requests.
Context `{Tarantool}.

Lemma send_request_connected (request : Request) (s : State) :
  connected s = true ->
  _send_request request s = send_loop RETRY_MAX_ATTEMPTS request None s.
Proof. intros Hc. unfold _send_request, bind, get. by rewrite Hc. Qed.

Lemma retried_registered (request : Request) s responses s' :
  retried request s responses s' ->
  responses <> [] ->
  exists fs,
    futures s' = fs ++ [Pending]
    /\ _waiters s' !! request_sync request = Some (length fs).
Proof.
  induction 1 as [s|s waiter s1 response s2 responses s3 Ha Hw Hcs Hrest IH];
    [done|intros _].
  destruct responses as [|r' responses]; [|by apply IH].
  inversion Hrest; subst. rewrite send_resume_retry by done. simpl.
  exists (futures s2). split; [done|]. apply lookup_insert_eq.
Qed.

(** C7: when every one of the [RETRY_MAX_ATTEMPTS] attempts ends in a
    response whose completion status is "retry needed", the call raises a
    database error with the return code and the message of the last of
    these responses; a response with another completion status is
    returned as soon as it is there, with nothing done after it. *)
Theorem send_request_retry_budget (request : Request) (s : State) :
  connected s = true ->
  (forall responses s' r,
     retried request s responses s' ->
     length responses = RETRY_MAX_ATTEMPTS ->
     last responses = Some r ->
     _send_request request s =
       (Raise (DatabaseError (return_code r) (return_message r)), s'))
  /\ (forall responses s1 waiter s2 response s3,
        retried request s responses s1 ->
        (length responses < RETRY_MAX_ATTEMPTS)%nat ->
        send_attempt request s1 = (Ok waiter, s2) ->
        await waiter s2 = (Ok response, s3) ->
        completion_status response <> 1 ->
        _send_request request s = (Ok response, s3)).
Proof.
  intros Hc. split.
  - intros responses s' r Hrun Hlen Hlast.
    rewrite send_request_connected by done. rewrite <- Hlen.
    rewrite <- (Nat.add_0_r (length responses)).
    rewrite (send_loop_retried request s responses s' Hrun 0 None).
    by rewrite Hlast.
  - intros responses s1 waiter s2 response s3 Hrun Hlen Ha Hw Hcs.
    rewrite send_request_connected by done.
    replace RETRY_MAX_ATTEMPTS
      with (length responses + S (RETRY_MAX_ATTEMPTS - S (length responses)))%nat
      by lia.
    rewrite (send_loop_retried request s responses s1 Hrun).
    simpl. unfold bind at 1. rewrite Ha. unfold bind at 1. rewrite Hw.
    unfold bind at 1. by rewrite send_resume_final.
Qed.

(** C9, as the code has it: building a request registers a new pending
    slot under the new correlation id and appends nothing; an attempt
    appends the bytes of the request only when the table has a slot for
    its id, and raises [KeyError] before the append otherwise.  On a
    connection that is up, the registration comes first in the trace and
    the append second, and the slot is still registered and pending when
    the dispatcher suspends.  It stays so while the reader handles
    responses for other ids, and the first response for the id is
    delivered to it.  That response takes the id out of the table, and a
    retry puts it back only when the dispatcher resumes: a further
    response for the id that the reader handles in between finds no
    waiter, and is logged and dropped. *)
Theorem waiter_registered_before_enqueue (encode : Z -> bytes) (s : State) :
  let k := if req_num s + 1 <=? 10000000 then req_num s + 1 else 0 in
  let a := length (futures s) in
  let request := mkRequest k (encode k) in
  let s1 := (new_request encode s).2 in
  ((new_request encode s).1 = Ok request
   /\ trace s1 = trace s ++ [EvRegister k a]
   /\ _write_buf s1 = _write_buf s
   /\ futures s !! a = None
   /\ _waiters s1 !! k = Some a
   /\ futures s1 !! a = Some Pending)
  /\ (forall (rq : Request) (s0 : State),
        _waiters s0 !! request_sync rq = None ->
        send_attempt rq s0 = (Raise KeyError, s0))
  /\ (forall buf ev,
        _write_buf s = Some buf ->
        _write_event s = Some ev ->
        exists s2,
          send_attempt request s1 = (Ok a, s2)
          /\ trace s2 = trace s ++ [EvRegister k a; EvEnqueue (encode k)]
          /\ _write_buf s2 = Some (buf ++ encode k)
          /\ _waiters s2 !! k = Some a
          /\ futures s2 !! a = Some Pending
          /\ forall r, sync r = k ->
               futures (dispatch_response r s2).2 !! a = Some (outcome_of r))
  /\ (forall (s0 : State) (a0 : addr) (r : Response),
        waiters_ok s0 ->
        _waiters s0 !! k = Some a0 ->
        sync r <> k ->
        waiters_ok (dispatch_response r s0).2
        /\ _waiters (dispatch_response r s0).2 !! k = Some a0
        /\ futures (dispatch_response r s0).2 !! a0 = Some Pending)
  /\ (forall (s0 : State) (a0 : addr) (r r' : Response),
        waiters_ok s0 ->
        _waiters s0 !! k = Some a0 ->
        sync r = k ->
        sync r' = k ->
        let s3 := (dispatch_response r s0).2 in
        futures s3 !! a0 = Some (outcome_of r)
        /\ _waiters s3 !! k = None
        /\ dispatch_response r' s3
           = (Ok tt, set_trace (trace s3 ++ [EvLogError r']) s3)
        /\ (completion_status r = 1 ->
            _waiters (send_resume request r s3).2 !! k
            = Some (length (futures s3)))).
Proof.
  intros k a request s1.
  split; [|split; [|split; [|split]]].
  - subst s1. rewrite new_request_unfold. fold k. simpl.
    repeat split; try done.
    + apply lookup_ge_None_2. subst a. lia.
    + apply lookup_insert_eq.
    + subst a. rewrite lookup_app_r by lia. by rewrite Nat.sub_diag.
  - apply send_attempt_no_waiter.
  - subst s1. rewrite new_request_unfold. fold k. simpl.
    assert ((futures s ++ [Pending]) !! a = Some Pending) as Hp.
    { subst a. rewrite lookup_app_r by lia. by rewrite Nat.sub_diag. }
    intros buf ev Hb He. eexists. split.
    { apply (send_attempt_ok request _ a buf ev); simpl; try done.
      apply lookup_insert_eq. }
    simpl. rewrite <- app_assoc. repeat split; try done.
    + apply lookup_insert_eq.
    + intros r Hr. rewrite (dispatch_response_matched r _ a); simpl.
      * apply list_lookup_insert_eq. rewrite length_app. simpl. subst a. lia.
      * rewrite Hr. apply lookup_insert_eq.
      * done.
  - intros s0 a0 r Hok Hk Hne.
    split; [by apply waiters_ok_dispatch_response|].
    destruct (_waiters s0 !! sync r) as [a'|] eqn:Hr.
    + rewrite (dispatch_response_matched r s0 a' Hr)
        by (by eapply (proj1 Hok)).
      state_simpl. rewrite lookup_delete_ne by done. split; [done|].
      rewrite list_lookup_insert_ne; [by eapply (proj1 Hok)|].
      intros ->. apply Hne. by eapply (proj2 Hok).
    + rewrite dispatch_response_unmatched by done. state_simpl.
      split; [done|by eapply (proj1 Hok)].
  - intros s0 a0 r r' Hok Hk Hr Hr' s3. subst s3.
    rewrite <- Hr in Hk.
    rewrite (dispatch_response_matched r s0 a0 Hk) by (by eapply (proj1 Hok)).
    state_simpl.
    split; [apply list_lookup_insert_eq; by eapply waiters_ok_lt|].
    split; [rewrite <- Hr; apply lookup_delete_eq|]. split.
    + rewrite dispatch_response_unmatched; [done|].
      state_simpl. rewrite Hr', <- Hr. apply lookup_delete_eq.
    + intros Hcs. rewrite send_resume_retry by done. state_simpl.
      rewrite length_insert. change (request_sync request) with k.
      apply lookup_insert_eq.
Qed.

End Requests.

(** ** The schema cache *)

Section Schema.
Context `{Tarantool}.

Definition space_index (space : SchemaKey) : Z :=
  match space with
  | inr _ => INDEX_SPACE_NAME
  | inl _ => INDEX_SPACE_PRIMARY
  end.

Lemma get_space_miss (space : SchemaKey) (s s1 : State) (n : nat) (array : Response) :
  schema s !! space = None ->
  connected s = true ->
  lock s = S n ->
  select SPACE_SPACE (key_of space) 0 4294967295 (space_index space) 0
    (set_lock n s) = (Ok array, s1) ->
  get_space space s =
    match get_space_rows space (rows array) s1 with
    | (Ok sp, s2) => (Ok sp, release s2)
    | (Raise e, s2) => (Raise e, release s2)
    | r => r
    end.
Proof.
  intros Hmiss Hc Hl Hsel. unfold get_space, with_lock, acquire.
  unfold bind at 1, get. rewrite Hmiss, Hc. unfold bind at 1, ret.
  unfold bind at 1. rewrite Hl. unfold bind at 1, get.
  cbn [schema set_lock]. rewrite Hmiss. unfold bind at 1.
  fold (space_index space). by rewrite Hsel.
Qed.

(** C8, as the code has it: on a cache miss the lookup raises the
    space-not-found schema error when the select returned no tuple, and
    also when it returned a single tuple that has no fields; a single
    tuple with fields is turned into a descriptor, which is stored in the
    cache and returned. *)
Theorem get_space_inspects_rows
    (space : SchemaKey) (s s1 : State) (n : nat) (array : Response) :
  schema s !! space = None ->
  connected s = true ->
  lock s = S n ->
  select SPACE_SPACE (key_of space) 0 4294967295 (space_index space) 0
    (set_lock n s) = (Ok array, s1) ->
  (rows array = [] \/ rows array = [[]] ->
   get_space space s =
     (Raise (SchemaError (no_space_message space)), release s1))
  /\ (forall row i nm,
        rows array = [row] ->
        row <> [] ->
        space_of_tuple row = Some (i, nm) ->
        let sp := mkSchemaSpace i nm ∅ in
        let s2 :=
          release (set_schema (<[inr nm := sp]> (<[inl i := sp]> (schema s1))) s1) in
        get_space space s = (Ok sp, s2)
        /\ schema s2 !! inl i = Some sp
        /\ schema s2 !! inr nm = Some sp).
Proof.
  intros Hmiss Hc Hl Hsel.
  rewrite (get_space_miss space s s1 n array Hmiss Hc Hl Hsel). split.
  - by intros [->| ->].
  - intros row i nm -> Hrow Htuple sp s2. unfold get_space_rows. simpl.
    destruct row as [|v row]; [done|]. simpl.
    unfold SchemaSpace_new. rewrite Htuple. fold sp. simpl.
    split; [done|]. split.
    + rewrite lookup_insert_ne by done. apply lookup_insert_eq.
    + apply lookup_insert_eq.
Qed.

End Schema.

(** * More of the transport *)

(** ** The cycle of correlation ids *)

(** [n] calls of [generate_sync] in a row, with the ids they return. *)
Fixpoint generate_syncs (n : nat) : M (list Z) :=
  match n with
  | O => ret []
  | S n' =>
    k <- generate_sync ;;
    ks <- generate_syncs n' ;;
    ret (k :: ks)
  end.

Lemma generate_syncs_ids (n : nat) (s : State) :
  counter_ok s ->
  (generate_syncs n s).1 =
    Ok ((fun j => (req_num s + Z.of_nat j) mod 10000001) <$> seq 1 n).
Proof.
  revert s. induction n as [|n IH]; intros s Hc; [done|].
  cbn [generate_syncs]. unfold bind at 1. rewrite generate_sync_unfold.
  cbv zeta. unfold bind at 1.
  match goal with |- context [generate_syncs n ?s1] =>
    specialize (IH s1); destruct (generate_syncs n s1) as [res s2] end.
  unfold counter_ok in *. state_simpl.
  rewrite IH by (destruct (Z.ltb_spec 10000000 (req_num s + 1)); lia).
  cbn [fst ret]. f_equal. cbn [seq]. rewrite <- (fmap_S_seq 1 n).
  rewrite fmap_cons, <- list_fmap_compose. f_equal.
  - destruct (Z.ltb_spec 10000000 (req_num s + 1)).
    + replace (req_num s + Z.of_nat 1) with (1 * 10000001) by lia.
      by rewrite Z.mod_mul.
    + rewrite Z.mod_small; lia.
  - apply list_fmap_ext. intros _ j _. cbn [compose].
    destruct (Z.ltb_spec 10000000 (req_num s + 1)).
    + replace (req_num s + Z.of_nat (S j))
        with (0 + Z.of_nat j + 1 * 10000001) by lia.
      by rewrite Z.mod_add.
    + f_equal. lia.
Qed.

(** X1: the ids go round a cycle of 10,000,001: from a counter at [c] the
    [j]-th call returns [(c + j) mod 10000001], so that any 10,000,001
    calls in a row, or fewer, return ids that are all different. *)
Theorem generate_sync_cycle (n : nat) (s : State) :
  counter_ok s ->
  exists ks,
    (generate_syncs n s).1 = Ok ks
    /\ ks = (fun j => (req_num s + Z.of_nat j) mod 10000001) <$> seq 1 n
    /\ (Z.of_nat n <= 10000001 -> NoDup ks).
Proof.
  intros Hc. eexists. split; [by apply generate_syncs_ids|]. split; [done|].
  intros Hn. apply NoDup_fmap_2_strong; [|apply NoDup_seq].
  intros j1 j2 [H1 H1']%elem_of_seq [H2 H2']%elem_of_seq Heq.
  apply Z.cong_iff_ex in Heq as [q Hq]. assert (q = 0) by lia. lia.
Qed.

(** ** Responses in any order *)

(** What a response does to the store, the table and the trace, when the
    table maps every id to an unresolved slot of its own. *)
Lemma dispatch_response_effect (r : Response) (s : State) :
  waiters_ok s ->
  (dispatch_response r s).1 = Ok tt
  /\ futures (dispatch_response r s).2 =
       match _waiters s !! sync r with
       | Some a => <[a := outcome_of r]> (futures s)
       | None => futures s
       end
  /\ _waiters (dispatch_response r s).2 = delete (sync r) (_waiters s)
  /\ trace (dispatch_response r s).2 =
       trace s ++ [match _waiters s !! sync r with
                   | Some a => EvResolve a (outcome_of r)
                   | None => EvLogError r
                   end].
Proof.
  intros Hok. destruct (_waiters s !! sync r) as [a|] eqn:Hw.
  - by rewrite (dispatch_response_matched r s a Hw) by (by eapply (proj1 Hok)).
  - rewrite dispatch_response_unmatched by done. state_simpl.
    by rewrite delete_id.
Qed.

(** X2: two responses with different correlation ids can come in either
    order: each resolves the slot registered under its own id and no
    other, and the store and the table end up the same. *)
Theorem dispatch_response_any_order (r1 r2 : Response) (s : State) :
  waiters_ok s ->
  sync r1 <> sync r2 ->
  let s12 := (dispatch_response r2 (dispatch_response r1 s).2).2 in
  let s21 := (dispatch_response r1 (dispatch_response r2 s).2).2 in
  ((dispatch_response r1 ;;; dispatch_response r2) s).1 = Ok tt
  /\ ((dispatch_response r2 ;;; dispatch_response r1) s).1 = Ok tt
  /\ futures s12 = futures s21
  /\ _waiters s12 = _waiters s21
  /\ trace s12 ≡ₚ trace s21
  /\ (forall a, _waiters s !! sync r1 = Some a ->
        futures s12 !! a = Some (outcome_of r1))
  /\ (forall a, _waiters s !! sync r2 = Some a ->
        futures s12 !! a = Some (outcome_of r2)).
Proof.
  intros Hok Hne s12 s21.
  destruct (dispatch_response_effect r1 s Hok) as (R1 & F1 & W1 & T1).
  destruct (dispatch_response_effect r2 s Hok) as (R2 & F2 & W2 & T2).
  pose proof (waiters_ok_dispatch_response r1 s Hok) as Hok1.
  pose proof (waiters_ok_dispatch_response r2 s Hok) as Hok2.
  destruct (dispatch_response_effect r2 _ Hok1) as (R12 & F12 & W12 & T12).
  destruct (dispatch_response_effect r1 _ Hok2) as (R21 & F21 & W21 & T21).
  fold s12 in F12, W12, T12. fold s21 in F21, W21, T21.
  rewrite W1, lookup_delete_ne in F12, T12 by done.
  rewrite W2, lookup_delete_ne in F21, T21 by done.
  assert (forall a1 a2, _waiters s !! sync r1 = Some a1 ->
            _waiters s !! sync r2 = Some a2 -> a1 <> a2) as Hdiff.
  { intros a1 a2 H1 H2 ->. apply Hne. by eapply (proj2 Hok). }
  split; [|split; [|split; [|split; [|split; [|split]]]]].
  - unfold bind. destruct (dispatch_response r1 s) as [res s1].
    simpl in R1. subst res. exact R12.
  - unfold bind. destruct (dispatch_response r2 s) as [res s2].
    simpl in R2. subst res. exact R21.
  - rewrite F12, F21, F1, F2.
    destruct (_waiters s !! sync r1) as [a1|] eqn:H1,
             (_waiters s !! sync r2) as [a2|] eqn:H2; try done.
    apply list_insert_insert_ne. intros ->. by eapply Hdiff.
  - rewrite W12, W21, W1, W2. apply delete_delete.
  - rewrite T12, T21, T1, T2, <- !app_assoc. apply Permutation_app_head.
    apply perm_swap.
  - intros a Ha. rewrite F12, F1, Ha.
    pose proof (lookup_lt_Some _ _ _ (proj1 Hok _ _ Ha)) as Hlt.
    destruct (_waiters s !! sync r2) as [a2|] eqn:H2.
    + rewrite list_lookup_insert_ne by (intros ->; by eapply Hdiff).
      by apply list_lookup_insert_eq.
    + by apply list_lookup_insert_eq.
  - intros a Ha. rewrite F12, Ha.
    apply list_lookup_insert_eq. rewrite F1.
    pose proof (lookup_lt_Some _ _ _ (proj1 Hok _ _ Ha)) as Hlt.
    destruct (_waiters s !! sync r1); by rewrite ?length_insert.
Qed.

(** ** Frames and chunks *)

Lemma bind_assoc {A B C} (m : M A) (k : A -> M B) (j : B -> M C) (s : State) :
  bind (bind m k) j s = bind m (fun a => bind (k a) j) s.
Proof. unfold bind. by destruct (m s) as [[a|e| |] s1]. Qed.

Lemma bind_unfold {A B} (m : M A) (k : A -> M B) (s : State) :
  bind m k s =
    match m s with
    | (Ok a, s') => k a s'
    | (Raise e, s') => (Raise e, s')
    | (Suspended, s') => (Suspended, s')
    | (OutOfFuel, s') => (OutOfFuel, s')
    end.
Proof. reflexivity. Qed.

Lemma bind_emit {B} (ev : Event) (k : unit -> M B) (s : State) :
  bind (emit ev) k s = k tt (set_trace (trace s ++ [ev]) s).
Proof. reflexivity. Qed.

Lemma bind_ext {A B} (m : M A) (k1 k2 : A -> M B) (s : State) :
  (forall a s1, k1 a s1 = k2 a s1) -> bind m k1 s = bind m k2 s.
Proof. intros Hk. unfold bind. by destruct (m s) as [[a|e| |] s1]. Qed.

Lemma pyslice_app_l {A} (l ext : list A) (lo hi : Z) :
  0 <= lo -> 0 <= hi <= Z.of_nat (length l) ->
  pyslice (l ++ ext) lo hi = pyslice l lo hi.
Proof.
  intros Hlo Hhi. unfold pyslice, slice_index. rewrite length_app.
  destruct (Z.ltb_spec lo 0), (Z.ltb_spec hi 0); try lia.
  rewrite (Z.min_l hi), (Z.min_l hi) by lia.
  destruct (Z.le_gt_cases lo (Z.of_nat (length l))) as [Hle|Hgt].
  - rewrite (Z.min_l lo), (Z.min_l lo) by lia.
    rewrite drop_app_le by lia. rewrite take_app_le; [done|].
    rewrite length_drop. lia.
  - replace (Z.to_nat (hi - Z.min lo _)) with 0%nat by lia.
    replace (Z.to_nat (hi - Z.min lo _)) with 0%nat by lia. done.
Qed.

Lemma pyslice_drop {A} (l : list A) (c : nat) (lo hi : Z) :
  (c <= length l)%nat -> 0 <= lo -> 0 <= hi ->
  pyslice (drop c l) lo hi = pyslice l (Z.of_nat c + lo) (Z.of_nat c + hi).
Proof.
  intros Hc Hlo Hhi. unfold pyslice, slice_index. rewrite length_drop.
  destruct (Z.ltb_spec lo 0), (Z.ltb_spec hi 0),
    (Z.ltb_spec (Z.of_nat c + lo) 0), (Z.ltb_spec (Z.of_nat c + hi) 0); try lia.
  rewrite drop_drop. f_equal; [|f_equal]; lia.
Qed.

Section Framing.
Context `{Tarantool}.

Lemma frame_at_app_l (buf ext : bytes) (curr len : Z) (body : bytes) :
  0 <= curr -> 0 <= len ->
  frame_at buf curr len body -> frame_at (buf ++ ext) curr len body.
Proof.
  intros Hc Hl (H5 & Hu & Hlen & ->). unfold frame_at.
  rewrite length_app, !pyslice_app_l by lia. repeat split; [lia|done|lia].
Qed.

Lemma frame_at_drop (buf : bytes) (c : nat) (curr len : Z) (body : bytes) :
  (c <= length buf)%nat -> 0 <= curr -> 0 <= len ->
  frame_at (drop c buf) curr len body ->
  frame_at buf (Z.of_nat c + curr) len body.
Proof.
  intros Hc Hcurr Hl (H5 & Hu & Hlen & ->). unfold frame_at.
  rewrite length_drop in H5, Hlen. rewrite !pyslice_drop in * by lia.
  replace (Z.of_nat c + curr + 5) with (Z.of_nat c + (curr + 5)) by lia.
  replace (Z.of_nat c + (curr + 5) + len)
    with (Z.of_nat c + (curr + 5 + len)) by lia.
  repeat split; [lia|done|lia].
Qed.

Lemma incomplete_at_drop (buf : bytes) (c : nat) (curr : Z) :
  (c <= length buf)%nat -> 0 <= curr ->
  incomplete_at (drop c buf) curr <-> incomplete_at buf (Z.of_nat c + curr).
Proof.
  intros Hc Hcurr. unfold incomplete_at.
  rewrite length_drop, pyslice_drop by lia.
  replace (Z.of_nat c + curr + 5) with (Z.of_nat c + (curr + 5)) by lia.
  replace (Z.of_nat (length buf - c) - curr)
    with (Z.of_nat (length buf) - (Z.of_nat c + curr)) by lia.
  done.
Qed.

(** The complete frames of a buffer from [curr] on, with the responses
    they decode to, up to [stop], where no complete frame follows.  The
    declared lengths are natural numbers, as the length prefix of the
    protocol is. *)
Inductive framing (buf : bytes) : Z -> list (bytes * Response) -> Z -> Prop :=
| framing_nil curr : incomplete_at buf curr -> framing buf curr [] curr
| framing_cons curr len body r frames stop :
    frame_at buf curr len body ->
    0 <= len ->
    Response_unpack body = Some r ->
    framing buf (curr + (5 + len)) frames stop ->
    framing buf curr ((body, r) :: frames) stop.

(** What the reader does with a list of frames. *)
Fixpoint deliver (frames : list (bytes * Response)) : M unit :=
  match frames with
  | [] => ret tt
  | (body, r) :: frames =>
    emit (EvDecode body) ;;; dispatch_response r ;;; deliver frames
  end.

Lemma frames_loop_delivers (buf : bytes) (curr : Z)
    (frames : list (bytes * Response)) (stop : Z) :
  framing buf curr frames stop ->
  forall (fuel : nat) (s : State),
    (length frames < fuel)%nat ->
    frames_loop fuel buf (Z.of_nat (length buf)) curr s
    = (deliver frames ;;; ret stop) s.
Proof.
  induction 1 as [curr Hinc|curr len body r frames stop Hf Hlen Hr _ IH];
    intros [|fuel] s Hfuel; cbn [length] in Hfuel; try lia.
  - by rewrite frames_loop_incomplete.
  - rewrite (frames_loop_frame fuel buf curr len body r s Hf Hr).
    cbn [deliver]. rewrite bind_assoc, bind_emit, bind_assoc.
    apply bind_ext. intros _ s1. apply IH. lia.
Qed.

Lemma framing_bounds (buf : bytes) (curr : Z)
    (frames : list (bytes * Response)) (stop : Z) :
  framing buf curr frames stop ->
  0 <= curr <= Z.of_nat (length buf) ->
  curr + 5 * Z.of_nat (length frames) <= stop <= Z.of_nat (length buf).
Proof.
  induction 1 as [curr Hinc|curr len body r frames stop Hf Hlen Hr _ IH];
    intros Hcurr; cbn [length]; [lia|].
  destruct Hf as (H5 & Hu & Hl & _). lia.
Qed.

(** The reader's own buffer plays no part in what it does with a frame. *)
Definition ignores_reader_buf {A} (m : M A) : Prop :=
  forall b s, m (set_reader_buf b s)
              = let (res, s') := m s in (res, set_reader_buf b s').

Lemma ignores_bind {A B} (m : M A) (k : A -> M B) :
  ignores_reader_buf m -> (forall a, ignores_reader_buf (k a)) ->
  ignores_reader_buf (bind m k).
Proof.
  intros Hm Hk b s. unfold bind. rewrite Hm.
  destruct (m s) as [[a|e| |] s1]; try done. apply Hk.
Qed.

Lemma ignores_emit ev : ignores_reader_buf (emit ev).
Proof. intros b s. unfold emit, modify. f_equal; by state_eq. Qed.

Lemma ignores_resolve a f : ignores_reader_buf (resolve a f).
Proof. intros b s. unfold resolve, bind, emit, modify. f_equal; by state_eq. Qed.

Lemma ignores_dispatch_response r : ignores_reader_buf (dispatch_response r).
Proof.
  intros b s.
  unfold dispatch_response, set_result, set_exception, resolve, bind, get,
    emit, modify, raise.
  cbv beta. cbn [_waiters futures set_reader_buf].
  destruct (_waiters s !! sync r) as [w|]; [|f_equal; by state_eq].
  destruct (return_code r =? 0); cbv beta iota;
    cbn [_waiters futures set_reader_buf];
    destruct (futures s !! w) as [[]|]; try done; f_equal; by state_eq.
Qed.

Lemma ignores_deliver frames : ignores_reader_buf (deliver frames).
Proof.
  induction frames as [|[body r] frames IH]; [done|]. cbn [deliver].
  apply ignores_bind; [apply ignores_emit|intros _].
  apply ignores_bind; [apply ignores_dispatch_response|intros _; apply IH].
Qed.

Lemma deliver_app frames1 frames2 s :
  deliver (frames1 ++ frames2) s = (deliver frames1 ;;; deliver frames2) s.
Proof.
  revert s. induction frames1 as [|[body r] frames1 IH]; intros s; [done|].
  cbn [app deliver]. rewrite !bind_assoc. apply bind_ext. intros _ s1.
  rewrite bind_assoc. apply bind_ext. intros _ s2. apply IH.
Qed.

(** A read with the buffer it leaves: the frames are delivered in the
    order of the wire, and the bytes after the last complete frame are
    kept. *)
Lemma reader_iteration_delivers (tmp_buf : bytes) (s : State)
    (frames : list (bytes * Response)) (stop : Z) :
  tmp_buf <> [] ->
  framing (reader_buf s ++ tmp_buf) 0 frames stop ->
  reader_iteration tmp_buf s =
    match deliver frames s with
    | (Ok _, s') =>
      (Ok tt, set_reader_buf (drop (Z.to_nat stop) (reader_buf s ++ tmp_buf)) s')
    | (Raise e, s') => (Raise e, set_reader_buf (reader_buf s ++ tmp_buf) s')
    | (Suspended, s') => (Suspended, set_reader_buf (reader_buf s ++ tmp_buf) s')
    | (OutOfFuel, s') => (OutOfFuel, set_reader_buf (reader_buf s ++ tmp_buf) s')
    end.
Proof.
  intros Hne Hfr. set (buf := reader_buf s ++ tmp_buf) in *.
  pose proof (framing_bounds buf 0 frames stop Hfr ltac:(lia)) as Hb.
  unfold reader_iteration. destruct tmp_buf as [|b tmp_buf]; [done|].
  unfold bind at 1, ret at 1. unfold bind at 1, get. fold buf.
  unfold bind at 1, modify at 1. unfold bind at 1.
  rewrite (frames_loop_delivers buf 0 frames stop Hfr) by lia.
  unfold bind at 1. rewrite ignores_deliver.
  destruct (deliver frames s) as [[[]|e| |] s1]; try done.
  unfold ret at 1. destruct (Z.eqb_spec stop 0) as [->|Hstop].
  - done.
  - unfold modify. f_equal. state_eq. unfold pyslice_from, slice_index.
    destruct (Z.ltb_spec stop 0); [lia|]. by rewrite Z.min_l by lia.
Qed.

Lemma framing_app (buf ext : bytes) (curr : Z)
    (frames1 : list (bytes * Response)) (stop1 : Z)
    (frames2 : list (bytes * Response)) (stop : Z) :
  0 <= curr ->
  framing buf curr frames1 stop1 ->
  framing (buf ++ ext) stop1 frames2 stop ->
  framing (buf ++ ext) curr (frames1 ++ frames2) stop.
Proof.
  intros Hcurr H1. revert Hcurr.
  induction H1 as [curr Hinc|curr len body r frames stop1 Hf Hlen Hr _ IH];
    intros Hcurr H2; [done|].
  cbn [app].
  apply (framing_cons _ curr len); [by apply frame_at_app_l|done|done|].
  apply IH; [lia|done].
Qed.

Lemma framing_drop (buf : bytes) (c : nat) (curr : Z)
    (frames : list (bytes * Response)) (stop : Z) :
  (c <= length buf)%nat -> 0 <= curr ->
  framing (drop c buf) curr frames stop ->
  framing buf (Z.of_nat c + curr) frames (Z.of_nat c + stop).
Proof.
  intros Hc Hcurr Hfr. revert Hcurr.
  induction Hfr as [curr Hinc|curr len body r frames stop Hf Hlen Hr _ IH];
    intros Hcurr.
  - apply framing_nil. by apply incomplete_at_drop.
  - apply (framing_cons _ _ len); [by apply frame_at_drop|done|done|].
    replace (Z.of_nat c + curr + (5 + len))
      with (Z.of_nat c + (curr + (5 + len))) by lia.
    apply IH. lia.
Qed.

(** X3: a read hands the complete frames of the buffer to the decoder and to
    the waiter table in the order of the wire, and keeps the bytes that
    follow the last of them; these do not make a complete frame. *)
Theorem reader_iteration_in_wire_order (tmp_buf : bytes) (s : State)
    (frames : list (bytes * Response)) (stop : Z) :
  tmp_buf <> [] ->
  framing (reader_buf s ++ tmp_buf) 0 frames stop ->
  (reader_iteration tmp_buf s).1 = (deliver frames s).1
  /\ futures (reader_iteration tmp_buf s).2 = futures (deliver frames s).2
  /\ _waiters (reader_iteration tmp_buf s).2 = _waiters (deliver frames s).2
  /\ trace (reader_iteration tmp_buf s).2 = trace (deliver frames s).2
  /\ ((deliver frames s).1 = Ok tt ->
      reader_buf (reader_iteration tmp_buf s).2
        = drop (Z.to_nat stop) (reader_buf s ++ tmp_buf)
      /\ incomplete_at (reader_buf (reader_iteration tmp_buf s).2) 0).
Proof.
  intros Hne Hfr.
  pose proof (framing_bounds _ 0 frames stop Hfr ltac:(lia)) as Hb.
  rewrite (reader_iteration_delivers tmp_buf s frames stop Hne Hfr).
  destruct (deliver frames s) as [[[]|e| |] s1]; cbn [fst snd];
    (split; [done|]); (split; [done|]); (split; [done|]); (split; [done|]);
    try done.
  intros _. state_simpl. split; [done|].
  apply incomplete_at_drop; [lia..|].
  assert (incomplete_at (reader_buf s ++ tmp_buf) stop) as Hinc.
  { clear Hb. induction Hfr; done. }
  by replace (Z.of_nat (Z.to_nat stop) + 0) with stop by lia.
Qed.

(** X4: the reader does not mind where the stream is cut: two reads in a row
    do what a single read of both chunks does. *)
Theorem reader_iteration_chunks (c1 c2 : bytes) (s : State)
    (frames1 : list (bytes * Response)) (stop1 : Z)
    (frames2 : list (bytes * Response)) (stop2 : Z) :
  c1 <> [] -> c2 <> [] ->
  framing (reader_buf s ++ c1) 0 frames1 stop1 ->
  framing (drop (Z.to_nat stop1) (reader_buf s ++ c1) ++ c2) 0 frames2 stop2 ->
  let two := (reader_iteration c1 ;;; reader_iteration c2) s in
  let one := reader_iteration (c1 ++ c2) s in
  two.1 = one.1
  /\ futures two.2 = futures one.2
  /\ _waiters two.2 = _waiters one.2
  /\ trace two.2 = trace one.2
  /\ (two.1 = Ok tt -> two.2 = one.2).
Proof.
  intros Hc1 Hc2 H1 H2 two one. subst two one.
  set (buf1 := reader_buf s ++ c1) in *.
  pose proof (framing_bounds _ 0 frames1 stop1 H1 ltac:(lia)) as Hb1.
  assert (framing (reader_buf s ++ (c1 ++ c2)) 0 (frames1 ++ frames2)
            (stop1 + stop2)) as H12.
  { rewrite app_assoc. fold buf1.
    apply (framing_app buf1 c2 0 frames1 stop1); [lia|done|].
    replace stop1 with (Z.of_nat (Z.to_nat stop1) + 0) at 1 by lia.
    replace (stop1 + stop2) with (Z.of_nat (Z.to_nat stop1) + stop2) by lia.
    apply framing_drop; [rewrite length_app; lia|lia|].
    by rewrite drop_app_le by lia. }
  assert (c1 ++ c2 <> []) as Hc12 by (by destruct c1).
  pose proof (reader_iteration_delivers (c1 ++ c2) s _ _ Hc12 H12) as E12.
  rewrite deliver_app, bind_unfold in E12.
  pose proof (reader_iteration_delivers c1 s frames1 stop1 Hc1 H1) as E1.
  fold buf1 in E1. rewrite !bind_unfold, E1, E12.
  destruct (deliver frames1 s) as [[[]|e| |] s1]; [|done..].
  pose proof (reader_iteration_delivers c2 (set_reader_buf
                (drop (Z.to_nat stop1) buf1) s1) frames2 stop2 Hc2) as E2.
  rewrite ignores_deliver in E2. state_simpl. rewrite E2 by done.
  pose proof (framing_bounds _ 0 frames2 stop2 H2) as Hb2.
  rewrite length_app, length_drop in Hb2.
  destruct (deliver frames2 s1) as [[[]|e| |] s2]; cbn [fst snd];
    state_simpl; (split; [done|]); (split; [done|]); (split; [done|]);
    (split; [done|]); try done.
  intros _. state_eq. rewrite app_assoc. fold buf1.
  rewrite Z2Nat.inj_add, <- drop_drop by lia.
  f_equal. by rewrite drop_app_le by lia.
Qed.

End Framing.

(** ** The writer *)

(** What has been written to the stream, in order. *)
Definition written (evs : list Event) : list bytes :=
  omap (fun ev => match ev with EvWrite data => Some data | _ => None end) evs.

Lemma writer_iteration_effect (s : State) (out : bytes) (ev : bool) :
  _write_buf s = Some out ->
  _write_event s = Some ev ->
  writer_iteration s =
    (Ok tt,
     set_write_event (Some false)
       (match out with
        | [] => s
        | _ => set_trace (trace s ++ [EvWrite out]) (set_write_buf (Some []) s)
        end)).
Proof.
  intros Hb He. unfold writer_iteration, bind, get, emit, modify, ret.
  rewrite Hb. destruct out as [|b out]; cbv beta iota zeta; state_simpl;
    by rewrite He.
Qed.

(** Several dispatchers get to their suspension point before the writer
    runs. *)
Definition send_attempts (requests : list Request) : M unit :=
  for_each requests (fun request => send_attempt request ;;; ret tt).

Lemma send_attempts_effect (requests : list Request) (s : State)
    (buf : bytes) (ev : bool) :
  _write_buf s = Some buf ->
  _write_event s = Some ev ->
  (forall rq, rq ∈ requests -> is_Some (_waiters s !! request_sync rq)) ->
  exists s1,
    send_attempts requests s = (Ok tt, s1)
    /\ _write_buf s1 = Some (buf ++ concat (request_bytes <$> requests))
    /\ _write_event s1 = Some (if requests is [] then ev else true)
    /\ trace s1 = trace s ++ (EvEnqueue <$> (request_bytes <$> requests))
    /\ _waiters s1 = _waiters s /\ futures s1 = futures s.
Proof.
  revert s buf ev. induction requests as [|rq requests IH];
    intros s buf ev Hb He Hw.
  { exists s. by rewrite !app_nil_r. }
  destruct (Hw rq) as [a Ha]; [by left|].
  unfold send_attempts. cbn [for_each]. rewrite bind_assoc, bind_unfold.
  rewrite (send_attempt_ok rq s a buf ev Ha Hb He). cbv beta iota.
  rewrite bind_unfold. unfold ret at 1. cbv beta iota.
  edestruct (IH (set_write_event (Some true)
                   (set_trace (trace s ++ [EvEnqueue (request_bytes rq)])
                      (set_write_buf (Some (buf ++ request_bytes rq)) s))))
    as (s1 & Hrun & Hb1 & He1 & Ht1 & Hw1 & Hf1); [done|done| |].
  { intros rq' Hin. state_simpl. apply Hw. by right. }
  exists s1. split; [exact Hrun|]. state_simpl.
  rewrite Hb1, Ht1, Hw1, Hf1, He1. cbn [fmap list_fmap concat].
  rewrite <- !app_assoc. repeat split; try done. by destruct requests.
Qed.

(** X5: the writer sends what was enqueued, in the order it was enqueued, by
    a single write, and leaves the buffer empty and the signal cleared;
    with nothing enqueued it writes nothing. *)
Theorem writer_sends_in_order (requests : list Request) (s : State)
    (buf : bytes) (ev : bool) :
  _write_buf s = Some buf ->
  _write_event s = Some ev ->
  (forall rq, rq ∈ requests -> is_Some (_waiters s !! request_sync rq)) ->
  let out := buf ++ concat (request_bytes <$> requests) in
  let s' := ((send_attempts requests ;;; writer_iteration) s).2 in
  ((send_attempts requests ;;; writer_iteration) s).1 = Ok tt
  /\ written (trace s') = written (trace s) ++ (if out is [] then [] else [out])
  /\ enqueued (trace s') = enqueued (trace s) ++ (request_bytes <$> requests)
  /\ _write_buf s' = Some []
  /\ _write_event s' = Some false.
Proof.
  intros Hb He Hw. cbv zeta.
  destruct (send_attempts_effect requests s buf ev Hb He Hw)
    as (s1 & Hrun & Hb1 & He1 & Ht1 & _).
  rewrite bind_unfold, Hrun. cbv beta iota.
  rewrite (writer_iteration_effect s1 _ _ Hb1 He1).
  assert (forall l : list bytes, written (EvEnqueue <$> l) = []) as Hwr
    by (induction l; done).
  assert (forall l : list bytes, enqueued (EvEnqueue <$> l) = l) as Hen
    by (induction l as [|x l IHl]; [done|cbn; by f_equal]).
  destruct (buf ++ concat (request_bytes <$> requests)) as [|b out] eqn:Hout;
    cbn [fst snd]; state_simpl; rewrite ?Hb1, ?Hout, Ht1;
    unfold written, enqueued in *; rewrite ?omap_app, ?Hwr, ?Hen;
    cbn [omap]; by rewrite ?app_nil_r.
Qed.

(** ** The attempts of a request *)

(** The retry warnings, in order. *)
Definition warned (evs : list Event) : list string :=
  omap (fun ev => match ev with EvWarn msg => Some msg | _ => None end) evs.

(** Events that are neither an enqueue nor a warning. *)
Definition quiet (ev : Event) : Prop :=
  match ev with
  | EvEnqueue _ | EvWarn _ => False
  | _ => True
  end.

Lemma quiet_enqueued evs : Forall quiet evs -> enqueued evs = [].
Proof. induction 1 as [|[] evs Hev _ IH]; done. Qed.

Lemma quiet_warned evs : Forall quiet evs -> warned evs = [].
Proof. induction 1 as [|[] evs Hev _ IH]; done. Qed.

Lemma send_attempt_enqueued (request : Request) (s : State) :
  exists n : nat,
    (n <= 1)%nat
    /\ enqueued (trace (send_attempt request s).2) =
         enqueued (trace s) ++ replicate n (request_bytes request)
    /\ warned (trace (send_attempt request s).2) = warned (trace s).
Proof.
  unfold send_attempt, bind, get, emit, modify, ret, raise.
  destruct (_waiters s !! request_sync request) as [w|];
    [|exists 0%nat; rewrite app_nil_r; split; [lia|done]].
  destruct (_write_buf s) as [buf|];
    [|exists 0%nat; rewrite app_nil_r; split; [lia|done]].
  exists 1%nat. cbv beta iota zeta. state_simpl.
  destruct (_write_event s); cbv beta iota zeta; state_simpl;
    unfold warned; rewrite enqueued_app, omap_app; cbn [omap enqueued];
    rewrite ?app_nil_r; (split; [lia|done]).
Qed.

Section Attempts.
Context `{Tarantool}.

Lemma await_quiet (waiter : addr) (s : State) :
  enqueued (trace (await waiter s).2) = enqueued (trace s)
  /\ warned (trace (await waiter s).2) = warned (trace s).
Proof.
  destruct (respects_await (grows quiet)
              (grows_trans _) (grows_same _)
              (grows_dispatch_response quiet
                 ltac:(by intros) ltac:(by intros))
              (grows_do_close quiet ltac:(by intros))
              (fun b => grows_emit quiet (EvDecode b) I)
              (fun b => grows_emit quiet (EvWrite b) I)
              waiter s) as (evs & -> & Hevs).
  rewrite enqueued_app, (quiet_enqueued evs) by done.
  unfold warned. rewrite omap_app. fold (warned evs).
  rewrite (quiet_warned evs) by done. by rewrite !app_nil_r.
Qed.

Lemma send_loop_traffic (attempts : nat) (request : Request)
    (prev : option Response) (s : State) :
  let out := send_loop attempts request prev s in
  exists n : nat,
    (n <= attempts)%nat
    /\ enqueued (trace out.2) =
         enqueued (trace s) ++ replicate n (request_bytes request)
    /\ (forall response, out.1 = Ok response ->
          completion_status response <> 1
          /\ (1 <= n)%nat
          /\ length (warned (trace out.2)) =
               (length (warned (trace s)) + (n - 1))%nat).
Proof.
  cbv zeta. revert prev s. induction attempts as [|a IH]; intros prev s.
  { exists 0%nat. cbn [send_loop]. destruct prev; by rewrite app_nil_r. }
  cbn [send_loop]. rewrite bind_unfold.
  destruct (send_attempt_enqueued request s) as (n0 & Hn0 & Hq0 & Hw0).
  destruct (send_attempt request s) as [[w|e| |] s1] eqn:Ha; cbn [fst snd] in *;
    try (exists n0; split; [lia|split; [exact Hq0|done]]).
  apply send_attempt_inv in Ha as (_ & Ht1 & _ & _).
  destruct (await_quiet w s1) as [Hq Hw].
  rewrite bind_unfold.
  destruct (await w s1) as [[resp|e| |] s2]; cbn [fst snd] in *;
    rewrite Ht1, enqueued_app in Hq; cbn in Hq;
    try (exists 1%nat; split; [lia|split; [by rewrite Hq|done]]).
  rewrite bind_unfold.
  destruct (decide (completion_status resp = 1)) as [Hcs|Hcs].
  - rewrite send_resume_retry by done. cbv beta iota.
    destruct (IH (Some resp)
                (set_trace (trace s2 ++
                   [EvRegister (request_sync request) (length (futures s2));
                    EvWarn (return_message resp)])
                  (set_waiters (<[request_sync request := length (futures s2)]>
                                  (_waiters s2))
                     (set_futures (futures s2 ++ [Pending]) s2))))
      as (n & Hn & Hqn & HOk).
    exists (S n). split; [lia|]. split.
    + rewrite Hqn. state_simpl. rewrite enqueued_app, Hq.
      cbn. by rewrite app_nil_r, <- app_assoc.
    + intros response Hr. destruct (HOk response Hr) as (? & ? & Hlen).
      split; [done|]. split; [lia|]. rewrite Hlen. state_simpl.
      unfold warned in *. rewrite omap_app, length_app, Hw, Hw0. cbn. lia.
  - rewrite send_resume_final by done. exists 1%nat.
    unfold ret. cbn [fst snd].
    split; [lia|]. split; [by rewrite Hq|].
    intros response [= <-]. split; [done|]. split; [lia|].
    rewrite Hw, Hw0. lia.
Qed.

(** X6: whatever the server answers and whatever state the connection is in,
    the attempts of a request put nothing but the bytes of that request
    in the write buffer, and no more often than there are attempts.  A
    response that is returned is not a retry response, it was preceded by
    at least one enqueue, and every enqueue but the last was followed by
    one retry warning. *)
Theorem send_loop_bounded (attempts : nat) (request : Request)
    (prev : option Response) (s : State) :
  let out := send_loop attempts request prev s in
  exists n : nat,
    (n <= attempts)%nat
    /\ enqueued (trace out.2) =
         enqueued (trace s) ++ replicate n (request_bytes request)
    /\ (forall response, out.1 = Ok response ->
          completion_status response <> 1
          /\ (1 <= n)%nat
          /\ length (warned (trace out.2)) =
               (length (warned (trace s)) + (n - 1))%nat).
Proof. apply send_loop_traffic. Qed.


(** *** A caller gets the response to its own request *)

(** What a dispatcher may find in the slot it waits on. *)
Definition fair (k : Z) (f : Future) : Prop :=
  match f with
  | Pending => False
  | Result r => sync r = k /\ return_code r = 0
  | _ => True
  end.

(** The slot [w] was registered under the id [k]: it is still in the
    table under that id and unresolved, or it has left the table for good
    with a fair outcome. *)
Definition owned (k : Z) (w : addr) (s : State) : Prop :=
  (_waiters s !! k = Some w /\ futures s !! w = Some Pending)
  \/ ((forall k', _waiters s !! k' <> Some w)
      /\ exists f, futures s !! w = Some f /\ fair k f).

Definition keeps_owned (k : Z) (w : addr) (s s' : State) : Prop :=
  waiters_ok s /\ owned k w s -> waiters_ok s' /\ owned k w s'.

Lemma keeps_owned_trans k w s1 s2 s3 :
  keeps_owned k w s1 s2 -> keeps_owned k w s2 s3 -> keeps_owned k w s1 s3.
Proof. unfold keeps_owned. auto. Qed.

Lemma keeps_owned_same k w s s' :
  futures s' = futures s -> _waiters s' = _waiters s -> trace s' = trace s ->
  req_num s' = req_num s ->
  keeps_owned k w s s'.
Proof. unfold keeps_owned, waiters_ok, owned. by intros -> -> _ _. Qed.

Lemma keeps_owned_dispatch_response k w (r : Response) :
  respects (keeps_owned k w) (dispatch_response r).
Proof.
  intros s [Hok Hown]. split; [by apply waiters_ok_dispatch_response|].
  destruct (_waiters s !! sync r) as [a|] eqn:Hr.
  2:{ rewrite dispatch_response_unmatched by done. exact Hown. }
  pose proof (proj1 Hok _ _ Hr) as Ha.
  rewrite (dispatch_response_matched r s a Hr Ha). unfold owned. state_simpl.
  destruct Hown as [[Hk Hw]|[Hout (f & Hf & Hfair)]].
  - destruct (decide (sync r = k)) as [E|Hne].
    + right. subst k. assert (a = w) as -> by congruence. split.
      * intros k'. rewrite lookup_delete_Some. intros [Hne Hk'].
        apply Hne. by eapply (proj2 Hok).
      * exists (outcome_of r). split.
        { apply list_lookup_insert_eq. by eapply lookup_lt_Some. }
        unfold outcome_of, fair.
        by destruct (Z.eqb_spec (return_code r) 0).
    + left. rewrite lookup_delete_ne by done. split; [done|].
      rewrite list_lookup_insert_ne; [done|].
      intros ->. apply Hne. by eapply (proj2 Hok).
  - right. split.
    + intros k'. rewrite lookup_delete_Some. intros [_ Hk']. by eapply Hout.
    + exists f. split; [|done]. rewrite list_lookup_insert_ne; [done|].
      intros ->. by eapply Hout.
Qed.

Lemma keeps_owned_do_close k w (exc : option Exc) :
  respects (keeps_owned k w) (_do_close exc).
Proof.
  intros s [Hok Hown].
  destruct (do_close_cases exc s Hok) as [->|[Hf Hw]].
  2:{ unfold waiters_ok, owned in *. by rewrite Hf, Hw. }
  split; [split; simpl; intros *; rewrite lookup_empty; discriminate|].
  right. unfold closed. state_simpl. split.
  { intros k'. by rewrite lookup_empty. }
  destruct Hown as [[Hk Hw]|[Hout (f & Hf & Hfair)]].
  - exists (close_outcome exc). split; [|by destruct exc].
    apply resolve_all_in.
    + by apply waiters_values_NoDup.
    + apply waiters_values_elem. by exists k.
    + by eapply lookup_lt_Some.
  - exists f. split; [|done]. rewrite resolve_all_notin; [done|].
    intros [k' Hk']%waiters_values_elem. by eapply Hout.
Qed.

Lemma await_owned k w (waiter : addr) (s : State) :
  keeps_owned k w s (await waiter s).2.
Proof.
  apply (respects_await (keeps_owned k w)
           (keeps_owned_trans k w) (keeps_owned_same k w)
           (keeps_owned_dispatch_response k w)
           (keeps_owned_do_close k w));
    intros b s0 Hs; exact Hs.
Qed.

Lemma await_result (waiter : addr) (s s' : State) (response : Response) :
  await waiter s = (Ok response, s') ->
  futures s' !! waiter = Some (Result response).
Proof.
  unfold await. rewrite bind_unfold.
  destruct (writer_turn s) as [[[]|e| |] s1]; try done.
  rewrite bind_unfold. unfold get at 1. cbv beta iota. rewrite bind_unfold.
  destruct (pump _ waiter s1) as [[[]|e| |] s2]; try done.
  unfold future_result, bind, get.
  destruct (futures s2 !! waiter) as [[]|] eqn:Hf;
    unfold ret, raise; cbv beta; try done.
  by intros [= <- <-].
Qed.

Lemma send_loop_own (attempts : nat) (request : Request)
    (prev : option Response) (s : State) (response : Response) :
  waiters_ok s ->
  (send_loop attempts request prev s).1 = Ok response ->
  sync response = request_sync request /\ return_code response = 0.
Proof.
  revert prev s. induction attempts as [|a IH]; intros prev s Hok.
  { cbn [send_loop]. by destruct prev. }
  cbn [send_loop]. rewrite bind_unfold.
  destruct (send_attempt request s) as [[w|e| |] s1] eqn:Ha; try done.
  apply send_attempt_inv in Ha as (Hk & _ & Hf1 & Hw1).
  rewrite bind_unfold.
  pose proof (await_owned (request_sync request) w w s1) as Hkeep.
  destruct (await w s1) as [[resp|e| |] s2] eqn:Hres; try done.
  cbn [fst snd] in *. apply await_result in Hres.
  destruct Hkeep as [Hok2 Hown2].
  { split; [unfold waiters_ok; by rewrite Hf1, Hw1|].
    left. rewrite Hf1, Hw1. split; [done|]. by eapply (proj1 Hok). }
  assert (sync resp = request_sync request /\ return_code resp = 0) as Hresp.
  { destruct Hown2 as [[_ Hp]|[_ (f & Hf & Hfair)]]; [congruence|].
    rewrite Hres in Hf. by injection Hf as <-. }
  rewrite bind_unfold.
  destruct (decide (completion_status resp = 1)) as [Hcs|Hcs].
  - rewrite send_resume_retry by done. cbv beta iota. apply IH.
    by eapply waiters_ok_insert_fresh.
  - rewrite send_resume_final by done. by intros [= <-].
Qed.

(** X7: from a state in which every registered waiter is unresolved and has a
    slot of its own, a request returns no response but one that carries
    the correlation id of the request and the return code 0: a response
    with another id, an error response and what a close leaves in a
    slot are never what it returns.  The id is all that ties a response
    to a request: the answer to an older request whose id is in use
    again, once the counter has gone round, is returned like any
    other. *)
Theorem send_request_own_response (request : Request) (s : State)
    (response : Response) :
  waiters_ok s ->
  (_send_request request s).1 = Ok response ->
  sync response = request_sync request /\ return_code response = 0.
Proof.
  intros Hok. unfold _send_request. rewrite bind_unfold. unfold get at 1.
  cbv beta iota. rewrite bind_unfold.
  destruct (connected s).
  - unfold ret at 1. cbv beta iota. by apply send_loop_own.
  - pose proof (conn_step_waiters _ _ (step_connect s) Hok) as Hok1.
    destruct (connect s) as [[[]|e| |] s1]; try done.
    by apply send_loop_own.
Qed.

End Attempts.

(** ** The end of the stream *)

Section EndOfStream.
Context `{Tarantool}.

Definition lost_connection : Exc :=
  NetworkError "Lost connection to server during query".

Lemma response_reader_closed (chunks : list bytes) (s : State) :
  connected s = false -> _response_reader chunks s = (Ok tt, s).
Proof.
  intros Hc. destruct chunks; cbn [_response_reader];
    unfold bind, get; rewrite Hc; unfold _do_close, bind, get; by rewrite Hc.
Qed.

Lemma reader_iteration_eof_closed (s : State) :
  connected s = true ->
  lock s <> 0%nat ->
  _reader_task s <> None ->
  _writer_task s <> None ->
  waiters_ok s ->
  incomplete_at (reader_buf s) 0 ->
  reader_iteration [] s = (Ok tt, closed (Some lost_connection) s).
Proof.
  intros Hc Hl Hr Hw Hok Hinc. unfold reader_iteration.
  rewrite bind_unfold. fold lost_connection.
  rewrite (do_close_connected (Some lost_connection) s Hc Hl Hr Hw Hok).
  cbv beta iota. rewrite bind_unfold. unfold get at 1. cbv beta iota zeta.
  rewrite bind_unfold. unfold modify at 1. cbv beta iota.
  rewrite bind_unfold.
  assert (reader_buf (closed (Some lost_connection) s) ++ [] = reader_buf s)
    as -> by (unfold closed; state_simpl; apply app_nil_r).
  rewrite (frames_loop_incomplete _ _ 0 _ Hinc). cbv beta iota.
  cbn [Z.eqb]. unfold ret. f_equal; unfold closed; by state_eq.
Qed.

Lemma response_reader_eof (chunks : list bytes) (s : State) :
  connected s = true ->
  lock s <> 0%nat ->
  _reader_task s <> None ->
  _writer_task s <> None ->
  waiters_ok s ->
  incomplete_at (reader_buf s) 0 ->
  _response_reader ([] :: chunks) s = (Ok tt, closed (Some lost_connection) s).
Proof.
  intros Hc Hl Hr Hw Hok Hinc. cbn [_response_reader].
  rewrite bind_unfold. unfold get at 1. cbv beta iota. rewrite Hc.
  rewrite bind_unfold.
  rewrite (reader_iteration_eof_closed s Hc Hl Hr Hw Hok Hinc). cbv beta iota.
  by rewrite response_reader_closed.
Qed.

(** X8: when the stream ends (a read returns no bytes) on a connection whose
    lock is free, the reader fails every registered waiter with the
    network error, leaves the other slots alone, empties the table, marks
    the connection disconnected and stops: it decodes nothing, and reads
    none of the chunks that might still follow. *)
Theorem reader_end_of_stream (chunks : list bytes) (s : State) :
  connected s = true ->
  lock s <> 0%nat ->
  _reader_task s <> None ->
  _writer_task s <> None ->
  waiters_ok s ->
  incomplete_at (reader_buf s) 0 ->
  let s' := (_response_reader ([] :: chunks) s).2 in
  (_response_reader ([] :: chunks) s).1 = Ok tt
  /\ connected s' = false
  /\ _waiters s' = ∅
  /\ socket_in s' = socket_in s
  /\ (forall k a, _waiters s !! k = Some a ->
        futures s' !! a = Some (Exception lost_connection))
  /\ (forall a, (forall k, _waiters s !! k <> Some a) ->
        futures s' !! a = futures s !! a)
  /\ trace s' =
       trace s ++ ((fun w => EvResolve w (Exception lost_connection))
                     <$> (map_to_list (_waiters s)).*2).
Proof.
  intros Hc Hl Hr Hw Hok Hinc. cbv zeta.
  rewrite (response_reader_eof chunks s Hc Hl Hr Hw Hok Hinc). cbn [fst snd].
  unfold closed. state_simpl. do 4 (split; [done|]).
  split; [|split; [|done]].
  - intros k a Hk. apply (resolve_all_in (Exception lost_connection)).
    + by apply waiters_values_NoDup.
    + apply waiters_values_elem. by exists k.
    + by eapply waiters_ok_lt.
  - intros a Ha. apply resolve_all_notin.
    intros [k Hk]%waiters_values_elem. by eapply Ha.
Qed.

(** X9: with the lock taken (a schema lookup holds it while it waits for the
    answer to its select), the reader that meets the end of the stream
    waits for the lock: no waiter is failed and the connection stays
    marked connected. *)
Theorem reader_end_of_stream_locked (chunks : list bytes) (s : State) :
  connected s = true ->
  lock s = 0%nat ->
  _response_reader ([] :: chunks) s = (Suspended, s).
Proof.
  intros Hc Hl. cbn [_response_reader].
  rewrite bind_unfold. unfold get at 1. cbv beta iota. rewrite Hc.
  rewrite bind_unfold. unfold reader_iteration. rewrite bind_unfold.
  unfold _do_close at 1. rewrite bind_unfold. unfold get at 1.
  cbv beta iota. rewrite Hc. cbn [negb]. unfold with_lock.
  rewrite bind_unfold. unfold acquire. by rewrite Hl.
Qed.

End EndOfStream.

(** ** A request and its response *)

Section RoundTrip.
Context `{Tarantool}.

(** The first response of a list of frames that carries the id [k]. *)
Fixpoint answer (k : Z) (frames : list (bytes * Response)) : option Response :=
  match frames with
  | [] => None
  | (_, r) :: frames => if sync r =? k then Some r else answer k frames
  end.

Lemma deliver_ok (frames : list (bytes * Response)) (s : State) :
  waiters_ok s ->
  (deliver frames s).1 = Ok tt /\ waiters_ok (deliver frames s).2.
Proof.
  revert s. induction frames as [|[b r] frames IH]; intros s Hok; [done|].
  cbn [deliver]. rewrite bind_emit, bind_unfold.
  destruct (dispatch_response_ok r (set_trace (trace s ++ [EvDecode b]) s) Hok)
    as [Hr Hok1].
  destruct (dispatch_response r _) as [[[]|e| |] s1]; try done.
  by apply IH.
Qed.

Lemma keeps_deliver (a : addr) (frames : list (bytes * Response)) :
  respects (keeps a) (deliver frames).
Proof.
  induction frames as [|[b r] frames IH]; cbn [deliver].
  - apply respects_ret, keeps_same.
  - apply respects_bind; [apply keeps_trans|apply keeps_emit|intros _].
    apply respects_bind;
      [apply keeps_trans|apply keeps_dispatch_response|intros _; apply IH].
Qed.

Lemma deliver_answers (k : Z) (a : addr) (r : Response)
    (frames : list (bytes * Response)) (s : State) :
  waiters_ok s ->
  _waiters s !! k = Some a ->
  answer k frames = Some r ->
  futures (deliver frames s).2 !! a = Some (outcome_of r).
Proof.
  revert s. induction frames as [|[b r'] frames IH]; intros s Hok Hk; [done|].
  cbn [answer deliver]. rewrite bind_emit, bind_unfold.
  set (s0 := set_trace (trace s ++ [EvDecode b]) s).
  assert (waiters_ok s0) as Hok0 by exact Hok.
  assert (_waiters s0 !! k = Some a) as Hk0 by exact Hk.
  clearbody s0. destruct (Z.eqb_spec (sync r') k) as [E|Hne].
  - intros [= ->]. subst k.
    rewrite (dispatch_response_matched r s0 a Hk0)
      by (by eapply (proj1 Hok0)).
    cbv beta iota.
    match goal with |- futures (deliver frames ?s1).2 !! a = _ =>
      destruct (keeps_deliver a frames s1) as [_ ->] end.
    + split; state_simpl.
      * rewrite length_insert. by eapply waiters_ok_lt.
      * intros k'. rewrite lookup_delete_Some. intros [Hne Hk'].
        apply Hne. by eapply (proj2 Hok0).
    + state_simpl. apply list_lookup_insert_eq. by eapply waiters_ok_lt.
  - intros Hans.
    pose proof (dispatch_response_ok r' s0 Hok0) as [Hr Hok1].
    assert (_waiters (dispatch_response r' s0).2 !! k = Some a) as Hk1.
    { destruct (_waiters s0 !! sync r') as [a'|] eqn:Hr'.
      - rewrite (dispatch_response_matched r' s0 a' Hr')
          by (by eapply (proj1 Hok0)).
        state_simpl. by rewrite lookup_delete_ne.
      - by rewrite dispatch_response_unmatched. }
    destruct (dispatch_response r' s0) as [[[]|e| |] s1]; try done.
    by apply IH.
Qed.

Lemma writer_turn_effect (s : State) :
  exists s1,
    writer_turn s = (Ok tt, s1)
    /\ futures s1 = futures s /\ _waiters s1 = _waiters s
    /\ _reader_task s1 = _reader_task s /\ reader_buf s1 = reader_buf s
    /\ socket_in s1 = socket_in s
    /\ connected s1 = connected s /\ lock s1 = lock s
    /\ (_writer_task s <> None -> _writer_task s1 <> None).
Proof.
  unfold writer_turn, background, writer_iteration, bind, get, emit, modify,
    ret, raise.
  destruct (_writer_task s) as [[|e]|] eqn:Hwt;
    [|eexists; (split; [reflexivity|]); by rewrite ?Hwt..].
  destruct (_write_event s) as [[|]|] eqn:He;
    [|eexists; (split; [reflexivity|]); by rewrite ?Hwt..].
  destruct (_write_buf s) as [[|b t]|]; cbv beta iota zeta; state_simpl;
    rewrite He; eexists; (split; [reflexivity|]); state_simpl;
    by rewrite ?Hwt.
Qed.

Lemma pump_done (chunks : nat) (a : addr) (s : State) :
  is_pending a s = false -> pump chunks a s = (Ok tt, s).
Proof.
  intros Hp. destruct chunks; cbn [pump]; unfold bind, get; by rewrite Hp.
Qed.

(** X10: the request is in the table, and the chunk that the stream delivers
    next completes a frame that answers it: the caller gets that
    response, or the database error that it reports.  Responses to other
    requests in the same chunk, and bytes left over from earlier reads, do
    not get in the way. *)
Theorem request_round_trip (n : nat) (request : Request)
    (prev : option Response) (s : State) (a : addr) (buf : bytes) (ev : bool)
    (chunk : bytes) (rest : list bytes)
    (frames : list (bytes * Response)) (stop : Z) (r : Response) :
  waiters_ok s ->
  _waiters s !! request_sync request = Some a ->
  _write_buf s = Some buf ->
  _write_event s = Some ev ->
  _reader_task s = Some Running ->
  socket_in s = chunk :: rest ->
  chunk <> [] ->
  framing (reader_buf s ++ chunk) 0 frames stop ->
  answer (request_sync request) frames = Some r ->
  completion_status r <> 1 ->
  (send_loop (S n) request prev s).1 =
    if return_code r =? 0 then Ok r
    else Raise (DatabaseError (return_code r) (return_message r)).
Proof.
  intros Hok Hk Hb He Hrt Hin Hne Hfr Hans Hcs.
  cbn [send_loop]. rewrite bind_unfold.
  rewrite (send_attempt_ok request s a buf ev Hk Hb He). cbv beta iota.
  set (s1 := set_write_event _ _).
  assert (waiters_ok s1) as Hok1 by exact Hok.
  assert (_waiters s1 !! request_sync request = Some a) as Hk1 by exact Hk.
  assert (_reader_task s1 = Some Running) as Hrt1 by exact Hrt.
  assert (socket_in s1 = chunk :: rest) as Hin1 by exact Hin.
  assert (reader_buf s1 = reader_buf s) as Hrb1 by reflexivity.
  clearbody s1.
  rewrite bind_unfold. unfold await. rewrite bind_unfold.
  destruct (writer_turn_effect s1)
    as (s2 & -> & Hf2 & Hw2 & Hrt2 & Hrb2 & Hin2 & _).
  cbv beta iota. rewrite bind_unfold. unfold get at 1. cbv beta iota.
  rewrite bind_unfold.
  assert (waiters_ok s2) as Hok2 by (unfold waiters_ok; by rewrite Hf2, Hw2).
  rewrite Hin2, Hin1. cbn [length pump].
  rewrite bind_unfold. unfold get at 1. cbv beta iota.
  assert (is_pending a s2 = true) as ->.
  { unfold is_pending. rewrite Hf2. by rewrite (proj1 Hok1 _ _ Hk1). }
  rewrite bind_unfold. unfold reader_turn. rewrite bind_unfold.
  unfold get at 1. cbv beta iota. rewrite Hrt2, Hrt1, Hin2, Hin1.
  rewrite bind_unfold. unfold modify at 1. cbv beta iota.
  rewrite bind_unfold. unfold background.
  set (s3 := set_socket_in rest s2).
  assert (waiters_ok s3) as Hok3 by exact Hok2.
  assert (_waiters s3 !! request_sync request = Some a) as Hk3
    by (change (_waiters s2 !! request_sync request = Some a); by rewrite Hw2).
  assert (reader_buf s3 = reader_buf s) as Hrb3
    by (change (reader_buf s2 = reader_buf s); by rewrite Hrb2).
  clearbody s3. rewrite <- Hrb3 in Hfr.
  rewrite (reader_iteration_delivers chunk s3 frames stop Hne Hfr).
  pose proof (deliver_ok frames s3 Hok3) as [Hd _].
  pose proof (deliver_answers _ a r frames s3 Hok3 Hk3 Hans) as Hfa.
  destruct (deliver frames s3) as [[[]|e| |] s4]; try done.
  cbn [fst snd] in Hfa. unfold ret at 1. cbv beta iota.
  set (s5 := set_reader_buf _ s4).
  assert (futures s5 !! a = Some (outcome_of r)) as Hf5 by exact Hfa.
  clearbody s5.
  rewrite pump_done.
  2:{ unfold is_pending. rewrite Hf5. unfold outcome_of.
      by destruct (return_code r =? 0). }
  cbv beta iota. unfold future_result. rewrite bind_unfold.
  unfold get at 1. cbv beta iota. rewrite Hf5. unfold outcome_of.
  destruct (return_code r =? 0); [|done].
  unfold ret at 1. cbv beta iota. rewrite bind_unfold.
  by rewrite send_resume_final.
Qed.

End RoundTrip.

(** ** What goes out when a connection is set up or a space looked up *)

Section Sessions.
Context `{Tarantool}.

(** The id that the next request gets. *)
Definition next_sync (s : State) : Z :=
  if req_num s + 1 <=? 10000000 then req_num s + 1 else 0.

(** A disconnected instance once lines 173-180 have run. *)
Definition brought_up (s : State) : State :=
  set_writer_task (Some Running)
    (set_reader_task (Some Running)
       (set_reader_buf []
          (set_connected true
             (set_write_buf (Some []) (set_write_event (Some false) s))))).

Lemma connect_locked_up (s : State) :
  connected s = false ->
  lock s <> 0%nat ->
  connect_locked s = (Ok false, brought_up s).
Proof.
  intros Hc Hl. unfold connect_locked, with_lock, acquire, bind, get, modify, ret.
  destruct (lock s) as [|l] eqn:Hlock; [done|].
  cbv beta iota zeta. state_simpl. rewrite Hc. cbv beta iota.
  f_equal. unfold release, brought_up. by state_eq.
Qed.

Lemma connect_plain (s : State) :
  connected s = false ->
  lock s <> 0%nat ->
  truthy (user s) && truthy (password s) = false ->
  connect s = (Ok tt, brought_up s).
Proof.
  intros Hc Hl Ht. unfold connect. rewrite bind_unfold. unfold get at 1.
  cbv beta iota. rewrite Hc. rewrite bind_unfold, connect_locked_up by done.
  cbv beta iota. rewrite bind_unfold. unfold get at 1. cbv beta iota.
  change (user (brought_up s)) with (user s).
  change (password (brought_up s)) with (password s).
  rewrite Ht. by destruct (user s), (password s).
Qed.

Lemma connect_authenticates (s : State) (u p : string) :
  connected s = false ->
  lock s <> 0%nat ->
  user s = Some u ->
  password s = Some p ->
  truthy (user s) && truthy (password s) = true ->
  connect s =
    (request <- new_request (RequestAuthenticate u p) ;;
     send_loop RETRY_MAX_ATTEMPTS request None ;;;
     ret tt) (brought_up s).
Proof.
  intros Hc Hl Hu Hp Ht. unfold connect. rewrite bind_unfold. unfold get at 1.
  cbv beta iota. rewrite Hc. rewrite bind_unfold, connect_locked_up by done.
  cbv beta iota. rewrite bind_unfold. unfold get at 1. cbv beta iota.
  change (user (brought_up s)) with (user s).
  change (password (brought_up s)) with (password s).
  by rewrite Ht, Hu, Hp.
Qed.

(** X11: connecting a disconnected instance whose lock is free: without
    credentials (none, or an empty user name or password) the instance is
    brought up and nothing is sent; with credentials the only bytes that
    go to the write buffer are those of one authentication request, which
    carries the next correlation id, at most [RETRY_MAX_ATTEMPTS] times,
    and at least once when [connect] returns. *)
Theorem connect_sends_only_authentication (s : State) :
  connected s = false ->
  lock s <> 0%nat ->
  (truthy (user s) && truthy (password s) = false ->
   connect s = (Ok tt, brought_up s)
   /\ enqueued (trace (connect s).2) = enqueued (trace s))
  /\ (forall u p,
        user s = Some u -> password s = Some p ->
        truthy (user s) && truthy (password s) = true ->
        exists n : nat,
          (n <= RETRY_MAX_ATTEMPTS)%nat
          /\ enqueued (trace (connect s).2) =
               enqueued (trace s)
               ++ replicate n (RequestAuthenticate u p (next_sync s))
          /\ ((connect s).1 = Ok tt -> (1 <= n)%nat)).
Proof.
  intros Hc Hl. split.
  { intros Ht. by rewrite connect_plain. }
  intros u p Hu Hp Ht.
  rewrite (connect_authenticates s u p Hc Hl Hu Hp Ht).
  rewrite bind_unfold, new_request_unfold. cbv beta iota zeta.
  change (req_num (brought_up s)) with (req_num s). fold (next_sync s).
  set (request := mkRequest _ _). set (s2 := set_trace _ _).
  assert (enqueued (trace s2) = enqueued (trace s)) as Hq2.
  { subst s2. state_simpl. rewrite enqueued_app. cbn. apply app_nil_r. }
  clearbody s2.
  destruct (send_loop_traffic RETRY_MAX_ATTEMPTS request None s2)
    as (n & Hn & Hq & HOk).
  exists n. split; [done|]. rewrite bind_unfold.
  destruct (send_loop RETRY_MAX_ATTEMPTS request None s2) as [[r|e| |] s3];
    unfold ret; cbn [fst snd] in *; (split; [by rewrite Hq, Hq2|]); try done.
  intros _. by destruct (HOk r eq_refl) as (_ & ? & _).
Qed.

Lemma get_space_rows_trace (space : SchemaKey) (array : list (list Value))
    (s : State) :
  trace (get_space_rows space array s).2 = trace s.
Proof.
  unfold get_space_rows, SchemaSpace_new, bind, modify, ret, raise.
  destruct (1 <? length array)%nat; [done|].
  destruct array as [|row array]; [done|].
  destruct (length row =? 0)%nat; [done|].
  by destruct (space_of_tuple row) as [[i n]|].
Qed.

(** X15: a request is waiting for its response when the stream ends, and
    the lock is free: the reader closes the connection, and the caller
    gets the network error.  The connection is left disconnected, with
    an empty waiter table. *)
Theorem request_fails_at_end_of_stream (n : nat) (request : Request)
    (prev : option Response) (s : State) (a : addr) (buf : bytes) (ev : bool)
    (rest : list bytes) :
  waiters_ok s ->
  _waiters s !! request_sync request = Some a ->
  _write_buf s = Some buf ->
  _write_event s = Some ev ->
  _reader_task s = Some Running ->
  _writer_task s <> None ->
  socket_in s = [] :: rest ->
  connected s = true ->
  lock s <> 0%nat ->
  incomplete_at (reader_buf s) 0 ->
  exists s',
    send_loop (S n) request prev s = (Raise lost_connection, s')
    /\ connected s' = false
    /\ _waiters s' = ∅
    /\ socket_in s' = rest
    /\ futures s' !! a = Some (Exception lost_connection).
Proof.
  intros Hok Hk Hb He Hrt Hwt Hin Hc Hl Hinc.
  cbn [send_loop]. rewrite bind_unfold.
  rewrite (send_attempt_ok request s a buf ev Hk Hb He). cbv beta iota.
  set (s1 := set_write_event _ _).
  assert (futures s1 = futures s) as Hf1 by reflexivity.
  assert (_waiters s1 = _waiters s) as Hw1 by reflexivity.
  assert (_reader_task s1 = Some Running) as Hrt1 by exact Hrt.
  assert (_writer_task s1 <> None) as Hwt1 by exact Hwt.
  assert (socket_in s1 = [] :: rest) as Hin1 by exact Hin.
  assert (connected s1 = true) as Hc1 by exact Hc.
  assert (lock s1 = lock s) as Hl1 by reflexivity.
  assert (reader_buf s1 = reader_buf s) as Hrb1 by reflexivity.
  clearbody s1.
  rewrite bind_unfold. unfold await. rewrite bind_unfold.
  destruct (writer_turn_effect s1)
    as (s2 & -> & Hf2 & Hw2 & Hrt2 & Hrb2 & Hin2 & Hc2 & Hl2 & Hwt2).
  cbv beta iota. rewrite bind_unfold. unfold get at 1. cbv beta iota.
  rewrite bind_unfold. rewrite Hin2, Hin1. cbn [length pump].
  rewrite bind_unfold. unfold get at 1. cbv beta iota.
  assert (is_pending a s2 = true) as ->.
  { unfold is_pending. by rewrite Hf2, Hf1, (proj1 Hok _ _ Hk). }
  rewrite bind_unfold. unfold reader_turn. rewrite bind_unfold.
  unfold get at 1. cbv beta iota. rewrite Hrt2, Hrt1, Hin2, Hin1.
  rewrite bind_unfold. unfold modify at 1. cbv beta iota.
  rewrite bind_unfold. unfold background.
  set (s3 := set_socket_in rest s2).
  assert (waiters_ok s3) as Hok3.
  { unfold waiters_ok. change (futures s3) with (futures s2).
    change (_waiters s3) with (_waiters s2). by rewrite Hf2, Hw2, Hf1, Hw1. }
  assert (_waiters s3 !! request_sync request = Some a) as Hk3.
  { change (_waiters s3) with (_waiters s2). by rewrite Hw2, Hw1. }
  assert (connected s3 = true) as Hc3 by (by rewrite <- Hc1, <- Hc2).
  assert (lock s3 <> 0%nat) as Hl3.
  { change (lock s3) with (lock s2). by rewrite Hl2, Hl1. }
  assert (_reader_task s3 <> None) as Hrt3.
  { change (_reader_task s3) with (_reader_task s2). by rewrite Hrt2, Hrt1. }
  assert (_writer_task s3 <> None) as Hwt3 by (by apply Hwt2).
  assert (incomplete_at (reader_buf s3) 0) as Hinc3.
  { change (reader_buf s3) with (reader_buf s2). by rewrite Hrb2, Hrb1. }
  assert (socket_in s3 = rest) as Hin3 by reflexivity.
  clearbody s3.
  rewrite (reader_iteration_eof_closed s3 Hc3 Hl3 Hrt3 Hwt3 Hok3 Hinc3).
  unfold ret at 1. cbv beta iota.
  assert (futures (closed (Some lost_connection) s3) !! a
          = Some (Exception lost_connection)) as Hfa.
  { unfold closed. state_simpl.
    apply (resolve_all_in (Exception lost_connection)).
    - by apply waiters_values_NoDup.
    - apply waiters_values_elem. by eexists.
    - by eapply waiters_ok_lt. }
  rewrite pump_done by (unfold is_pending; by rewrite Hfa).
  cbv beta iota. unfold future_result. rewrite bind_unfold.
  unfold get at 1. cbv beta iota. rewrite Hfa. unfold raise.
  eexists. split; [reflexivity|]. by rewrite Hfa.
Qed.

Lemma get_space_selects (space : SchemaKey) (s : State) (l : nat) :
  schema s !! space = None ->
  connected s = true ->
  lock s = S l ->
  let k := next_sync s in
  let request :=
    mkRequest k
      (RequestSelect SPACE_SPACE (space_index space) (key_of space)
         0 4294967295 0 k) in
  let s2 :=
    set_trace (trace s ++ [EvRegister k (length (futures s))])
      (set_waiters (<[k := length (futures s)]> (_waiters s))
         (set_futures (futures s ++ [Pending])
            (set_req_num k (set_lock l s)))) in
  get_space space s =
    match (array <- send_loop RETRY_MAX_ATTEMPTS request None ;;
           get_space_rows space (rows array)) s2 with
    | (Ok sp, s') => (Ok sp, release s')
    | (Raise e, s') => (Raise e, release s')
    | r => r
    end.
Proof.
  intros Hmiss Hc Hl k request s2. unfold get_space, with_lock, acquire.
  rewrite bind_unfold. unfold get at 1. cbv beta iota. rewrite Hmiss, Hc.
  rewrite bind_unfold. unfold ret at 1. cbv beta iota.
  rewrite bind_unfold, Hl. cbv beta iota.
  rewrite bind_unfold. unfold get at 1. cbv beta iota.
  change (schema (set_lock l s)) with (schema s). rewrite Hmiss.
  cbv zeta. fold (space_index space). unfold select.
  rewrite bind_assoc, bind_unfold, new_request_unfold. cbv beta iota zeta.
  change (req_num (set_lock l s)) with (req_num s). fold (next_sync s).
  fold k. fold request. rewrite bind_unfold.
  rewrite send_request_connected by exact Hc. reflexivity.
Qed.

(** X12: a lookup that misses the cache on a connected instance sends nothing
    but one select on the space of spaces, by the primary index for an id
    and by the name index for a name, with the key it was asked for and
    the next correlation id: at most [RETRY_MAX_ATTEMPTS] times, at least
    once when it returns a descriptor, and not at all while the lock is
    taken. *)
Theorem get_space_sends_only_select (space : SchemaKey) (s : State) :
  schema s !! space = None ->
  connected s = true ->
  exists n : nat,
    (n <= RETRY_MAX_ATTEMPTS)%nat
    /\ enqueued (trace (get_space space s).2) =
         enqueued (trace s)
         ++ replicate n
              (RequestSelect SPACE_SPACE (space_index space) (key_of space)
                 0 4294967295 0 (next_sync s))
    /\ (forall sp, (get_space space s).1 = Ok sp -> (1 <= n)%nat)
    /\ (lock s = 0%nat -> get_space space s = (Suspended, s)).
Proof.
  intros Hmiss Hc. destruct (lock s) as [|l] eqn:Hl.
  { assert (get_space space s = (Suspended, s)) as Hs.
    { unfold get_space, with_lock, acquire.
      rewrite bind_unfold. unfold get at 1. cbv beta iota.
      rewrite Hmiss, Hc. rewrite bind_unfold. unfold ret at 1.
      cbv beta iota. by rewrite bind_unfold, Hl. }
    exists 0%nat. rewrite Hs. cbn [fst snd replicate]. rewrite app_nil_r.
    split; [lia|]. done. }
  rewrite (get_space_selects space s l Hmiss Hc Hl). cbv zeta.
  set (request := mkRequest _ _). set (s2 := set_trace _ _).
  assert (enqueued (trace s2) = enqueued (trace s)) as Hq2.
  { subst s2. state_simpl. rewrite enqueued_app. cbn. apply app_nil_r. }
  clearbody s2.
  destruct (send_loop_traffic RETRY_MAX_ATTEMPTS request None s2)
    as (n & Hn & Hq & HOk).
  exists n. split; [done|]. rewrite bind_unfold.
  destruct (send_loop RETRY_MAX_ATTEMPTS request None s2) as [[r|e| |] s3];
    cbn [fst snd] in *.
  - pose proof (get_space_rows_trace space (rows r) s3) as Hrows.
    destruct (get_space_rows space (rows r) s3) as [[sp|e| |] s4];
      cbn [fst snd] in *; unfold release; state_simpl;
      rewrite ?Hrows, Hq, Hq2; (split; [done|]); (split; [|done]);
      try done.
    intros _ _. by destruct (HOk r eq_refl) as (_ & ? & _).
  - unfold release. state_simpl. by rewrite Hq, Hq2.
  - by rewrite Hq, Hq2.
  - by rewrite Hq, Hq2.
Qed.

Lemma send_loop_end_of_stream (n : nat) (request : Request)
    (prev : option Response) (s : State) (a : addr) (buf : bytes) (ev : bool)
    (rest : list bytes) :
  _waiters s !! request_sync request = Some a ->
  futures s !! a = Some Pending ->
  _write_buf s = Some buf ->
  _write_event s = Some ev ->
  _reader_task s = Some Running ->
  socket_in s = [] :: rest ->
  connected s = true ->
  lock s = 0%nat ->
  exists s',
    send_loop (S n) request prev s = (Suspended, s')
    /\ connected s' = true /\ lock s' = 0%nat /\ socket_in s' = rest
    /\ futures s' = futures s /\ _waiters s' = _waiters s.
Proof.
  intros Hk Hp Hb He Hrt Hin Hc Hl.
  cbn [send_loop]. rewrite bind_unfold.
  rewrite (send_attempt_ok request s a buf ev Hk Hb He). cbv beta iota.
  set (s1 := set_write_event _ _).
  assert (futures s1 = futures s) as Hf1 by reflexivity.
  assert (_waiters s1 = _waiters s) as Hw1 by reflexivity.
  assert (_reader_task s1 = Some Running) as Hrt1 by exact Hrt.
  assert (socket_in s1 = [] :: rest) as Hin1 by exact Hin.
  assert (connected s1 = true) as Hc1 by exact Hc.
  assert (lock s1 = 0%nat) as Hl1 by exact Hl.
  clearbody s1.
  rewrite bind_unfold. unfold await. rewrite bind_unfold.
  destruct (writer_turn_effect s1)
    as (s2 & -> & Hf2 & Hw2 & Hrt2 & _ & Hin2 & Hc2 & Hl2 & _).
  cbv beta iota. rewrite bind_unfold. unfold get at 1. cbv beta iota.
  rewrite bind_unfold. rewrite Hin2, Hin1. cbn [length pump].
  rewrite bind_unfold. unfold get at 1. cbv beta iota.
  assert (is_pending a s2 = true) as ->.
  { unfold is_pending. by rewrite Hf2, Hf1, Hp. }
  rewrite bind_unfold. unfold reader_turn. rewrite bind_unfold.
  unfold get at 1. cbv beta iota. rewrite Hrt2, Hrt1, Hin2, Hin1.
  rewrite bind_unfold. unfold modify at 1. cbv beta iota.
  rewrite bind_unfold. unfold background.
  set (s3 := set_socket_in rest s2).
  assert (connected s3 = true) as Hc3 by (by rewrite <- Hc1, <- Hc2).
  assert (lock s3 = 0%nat) as Hl3 by (by rewrite <- Hl1, <- Hl2).
  assert (socket_in s3 = rest) as Hin3 by reflexivity.
  assert (futures s3 = futures s) as Hf3 by (by rewrite <- Hf1, <- Hf2).
  assert (_waiters s3 = _waiters s) as Hw3 by (by rewrite <- Hw1, <- Hw2).
  clearbody s3.
  unfold reader_iteration. rewrite bind_unfold.
  unfold _do_close at 1. rewrite bind_unfold. unfold get at 1.
  cbv beta iota. rewrite Hc3. cbn [negb]. unfold with_lock.
  rewrite bind_unfold. unfold acquire at 1. rewrite Hl3.
  by exists s3.
Qed.



(** X13: the stream ends while a schema lookup waits for the answer to its
    select.  The lookup holds the lock, and the reader needs it to close
    the connection: the reader is suspended in [_do_close], the lookup
    stays suspended with the lock in its hands, its waiter stays
    unresolved, and the instance stays marked connected. *)
Theorem get_space_end_of_stream (space : SchemaKey) (s : State)
    (buf : bytes) (ev : bool) (rest : list bytes) :
  schema s !! space = None ->
  connected s = true ->
  lock s = 1%nat ->
  RETRY_MAX_ATTEMPTS <> 0%nat ->
  _write_buf s = Some buf ->
  _write_event s = Some ev ->
  _reader_task s = Some Running ->
  socket_in s = [] :: rest ->
  exists s',
    get_space space s = (Suspended, s')
    /\ connected s' = true
    /\ lock s' = 0%nat
    /\ socket_in s' = rest
    /\ _waiters s' = <[next_sync s := length (futures s)]> (_waiters s)
    /\ futures s' = futures s ++ [Pending].
Proof.
  intros Hmiss Hc Hl Hmax Hb He Hrt Hin.
  rewrite (get_space_selects space s 0 Hmiss Hc Hl). cbv zeta.
  set (request := mkRequest _ _). set (s2 := set_trace _ _).
  assert (_waiters s2 = <[next_sync s := length (futures s)]> (_waiters s))
    as Hw2 by reflexivity.
  assert (futures s2 = futures s ++ [Pending]) as Hf2 by reflexivity.
  assert (_write_buf s2 = Some buf) as Hb2 by exact Hb.
  assert (_write_event s2 = Some ev) as He2 by exact He.
  assert (_reader_task s2 = Some Running) as Hrt2 by exact Hrt.
  assert (socket_in s2 = [] :: rest) as Hin2 by exact Hin.
  assert (connected s2 = true) as Hc2 by exact Hc.
  assert (lock s2 = 0%nat) as Hl2 by reflexivity.
  clearbody s2. rewrite bind_unfold.
  destruct RETRY_MAX_ATTEMPTS as [|n]; [done|].
  destruct (send_loop_end_of_stream n request None s2 (length (futures s))
              buf ev rest) as (s' & -> & Hc' & Hl' & Hin' & Hf' & Hw');
    try done.
  { subst request. cbn [request_sync]. by rewrite Hw2, lookup_insert_eq. }
  { rewrite Hf2, lookup_app_r by lia. by rewrite Nat.sub_diag. }
  exists s'. by rewrite Hf', Hw', Hf2, Hw2.
Qed.

(** ** Closing twice *)

Lemma close_waiter_connected (exc : option Exc) (w : addr) (s : State) :
  connected ((match exc with
              | None => cancel w
              | Some e => set_exception w e
              end) s).2 = connected s.
Proof.
  destruct exc; unfold cancel, set_exception, resolve, bind, get, modify,
    emit, raise, ret; by destruct (futures s !! w) as [[]|].
Qed.

Lemma for_each_close_connected (exc : option Exc) (l : list addr) (s : State) :
  connected (for_each l (fun waiter =>
                           match exc with
                           | None => cancel waiter
                           | Some e => set_exception waiter e
                           end) s).2 = connected s.
Proof.
  revert s. induction l as [|w l IH]; intros s; cbn [for_each]; [done|].
  rewrite bind_unfold. pose proof (close_waiter_connected exc w s) as Hw.
  destruct (match exc with None => cancel w | Some e => set_exception w e end s)
    as [[[]|e| |] s1]; cbn [fst snd] in *; try done.
  by rewrite IH.
Qed.

Lemma do_close_disconnects (exc : option Exc) (s : State) :
  (_do_close exc s).1 <> Suspended ->
  connected (_do_close exc s).2 = false.
Proof.
  remember (_do_close exc s) as out eqn:Hout.
  unfold _do_close, with_lock, acquire in Hout.
  rewrite bind_unfold in Hout. unfold get at 1 in Hout.
  cbv beta iota in Hout.
  destruct (connected s) eqn:Hc; cbn [negb] in Hout; [|by subst out].
  rewrite bind_unfold in Hout.
  destruct (lock s) as [|l]; [by subst out|].
  cbv beta iota in Hout. rewrite bind_unfold in Hout.
  unfold modify at 1 in Hout. cbv beta iota in Hout.
  rewrite bind_unfold in Hout. unfold get at 1 in Hout.
  cbv beta iota in Hout. state_simpl.
  destruct (_reader_task s); [|by subst out].
  rewrite bind_unfold in Hout. unfold modify at 1 in Hout.
  cbv beta iota in Hout.
  destruct (_writer_task s); [|by subst out].
  do 3 (rewrite bind_unfold in Hout; unfold modify at 1 in Hout;
        cbv beta iota in Hout).
  rewrite bind_unfold in Hout.
  match type of Hout with context [for_each ?l ?f ?st] =>
    pose proof (for_each_close_connected exc l st) as Hfe;
    destruct (for_each l f st) as [[[]|e| |] s1] end;
    cbn [fst snd] in Hfe; state_simpl; subst out; try done.
  all: intros _; unfold release, modify; by state_simpl.
Qed.

(** X14: a close that is not left waiting for the lock leaves the instance
    marked disconnected, also when it ends in an exception; any close
    that follows changes nothing. *)
Theorem do_close_settles (exc exc' : option Exc) (s : State) :
  (_do_close exc s).1 <> Suspended ->
  connected (_do_close exc s).2 = false
  /\ _do_close exc' (_do_close exc s).2 = (Ok tt, (_do_close exc s).2).
Proof.
  intros Hgo. pose proof (do_close_disconnects exc s Hgo) as Hc.
  split; [done|]. unfold _do_close at 1, bind, get. by rewrite Hc.
Qed.

End Sessions.

(** ** What a returned request leaves behind *)

Section Returned.
Context `{Tarantool}.

(** The counter moves in [generate_sync] only. *)
Definition same_counter (s s' : State) : Prop := req_num s' = req_num s.

Lemma send_loop_counter (attempts : nat) (request : Request)
    (prev : option Response) (s : State) :
  req_num (send_loop attempts request prev s).2 = req_num s.
Proof.
  assert (forall s1 s2 s3, same_counter s1 s2 -> same_counter s2 s3 ->
                           same_counter s1 s3) as Ht
    by (unfold same_counter; congruence).
  assert (forall s s', futures s' = futures s -> _waiters s' = _waiters s ->
                       trace s' = trace s -> req_num s' = req_num s ->
                       same_counter s s') as Hs by (by intros).
  assert (forall ev, respects same_counter (emit ev)) as Hev by (by intros ev s0).
  assert (forall w f, respects same_counter (resolve w f)) as Hres
    by (by intros w f s0).
  assert (forall g : State -> gmap Z addr,
            respects same_counter (modify (fun s => set_waiters (g s) s))) as Htab
    by (by intros g s0).
  apply (respects_send_loop same_counter Ht Hs).
  - intros r. by apply respects_dispatch_response.
  - intros exc. by apply respects_do_close.
  - intros b. apply Hev.
  - intros b. apply Hev.
  - by intros k s0.
  - intros b. apply Hev.
  - intros b. apply Hev.
Qed.

(** The instance is up and the table is in order. *)
Definition live (s : State) : Prop := connected s = true /\ waiters_ok s.

Lemma dispatch_response_session (r : Response) (s : State) :
  connected (dispatch_response r s).2 = connected s
  /\ _reader_task (dispatch_response r s).2 = _reader_task s.
Proof.
  unfold dispatch_response, set_result, set_exception, resolve, bind, get,
    emit, modify, raise, ret.
  destruct (_waiters s !! sync r) as [a|]; [|done].
  destruct (return_code r =? 0); by destruct (futures s !! a) as [[]|].
Qed.

Lemma frames_loop_session (fuel : nat) (buf : bytes) (len curr : Z) (s : State) :
  connected (frames_loop fuel buf len curr s).2 = connected s
  /\ _reader_task (frames_loop fuel buf len curr s).2 = _reader_task s.
Proof.
  revert curr s. induction fuel as [|fuel IH]; intros curr s; [done|].
  cbn [frames_loop]. destruct (5 <=? len - curr); [|done].
  destruct (unpackb _) as [length|]; [|done].
  destruct (len - curr <? 5 + length); [done|].
  cbv zeta. rewrite bind_emit. destruct (Response_unpack _) as [r|]; [|done].
  rewrite bind_unfold.
  match goal with |- context [dispatch_response r ?s0] =>
    pose proof (dispatch_response_session r s0) as [Hc Hr];
    destruct (dispatch_response r s0) as [[[]|e| |] s1] end;
    cbn [fst snd] in *; try done.
  destruct (IH (curr + (5 + length)) s1) as [-> ->]. done.
Qed.

(** With nothing in the table the loop resolves nothing. *)
Lemma frames_loop_quiet (fuel : nat) (buf : bytes) (len curr : Z) (s : State) :
  _waiters s = ∅ ->
  futures (frames_loop fuel buf len curr s).2 = futures s.
Proof.
  revert curr s. induction fuel as [|fuel IH]; intros curr s Hw; [done|].
  cbn [frames_loop]. destruct (5 <=? len - curr); [|done].
  destruct (unpackb _) as [length|]; [|done].
  destruct (len - curr <? 5 + length); [done|].
  cbv zeta. rewrite bind_emit. destruct (Response_unpack _) as [r|]; [|done].
  rewrite bind_unfold, dispatch_response_unmatched
    by (state_simpl; by rewrite Hw, lookup_empty).
  cbv beta iota. by rewrite IH.
Qed.

Lemma reader_iteration_session (tmp_buf : bytes) (s : State) :
  tmp_buf <> [] ->
  connected (reader_iteration tmp_buf s).2 = connected s
  /\ _reader_task (reader_iteration tmp_buf s).2 = _reader_task s.
Proof.
  intros Hne. destruct tmp_buf as [|b tmp_buf]; [done|].
  unfold reader_iteration, bind, get, modify, ret. cbv beta iota zeta.
  match goal with |- context [frames_loop ?f ?bf ?l 0 ?s0] =>
    pose proof (frames_loop_session f bf l 0 s0) as [Hc Hr];
    destruct (frames_loop f bf l 0 s0) as [[curr|e| |] s1] end;
    cbn [fst snd] in *; try done.
  by destruct (curr =? 0).
Qed.

Lemma resolve_all_cases (o : Future) (l : list addr) (fs : list Future) (a : addr) :
  resolve_all o l fs !! a = fs !! a \/ resolve_all o l fs !! a = Some o.
Proof.
  revert fs. induction l as [|w l IH]; intros fs; [by left|].
  unfold resolve_all in *. cbn [foldl].
  destruct (IH (<[w := o]> fs)) as [E|E]; [|by right]. rewrite E.
  destruct (decide (w = a)) as [->|Hne].
  - destruct (decide (a < length fs)%nat).
    + right. by apply list_lookup_insert_eq.
    + left. by rewrite list_insert_ge by lia.
  - left. by apply list_lookup_insert_ne.
Qed.

(** What the end of the stream does to a connected instance: the reader
    waits for the lock, or it crashes with the slots as they were, or it
    gets through the close. *)
Lemma reader_iteration_eof_cases (s : State) :
  waiters_ok s ->
  connected s = true ->
  reader_iteration [] s = (Suspended, s)
  \/ (exists e s', reader_iteration [] s = (Raise e, s')
                   /\ futures s' = futures s)
  \/ (futures (reader_iteration [] s).2 = futures (closed (Some lost_connection) s)
      /\ _reader_task (reader_iteration [] s).2 = None).
Proof.
  intros Hok Hc. unfold reader_iteration. fold lost_connection.
  destruct (lock s) as [|l] eqn:Hl.
  { left. rewrite bind_unfold. unfold _do_close, with_lock, acquire.
    rewrite bind_unfold. unfold get at 1. cbv beta iota. rewrite Hc.
    cbn [negb]. by rewrite bind_unfold, Hl. }
  destruct (_reader_task s) as [t1|] eqn:Hrt, (_writer_task s) as [t2|] eqn:Hwt.
  - right. right. rewrite !bind_unfold.
    rewrite (do_close_connected (Some lost_connection) s Hc);
      [|by rewrite Hl|by rewrite Hrt|by rewrite Hwt|done].
    cbv beta iota. unfold bind, get, modify. cbv beta iota zeta.
    match goal with |- context [frames_loop ?f ?bf ?ln 0 ?s0] =>
      pose proof (frames_loop_session f bf ln 0 s0) as [_ Hr];
      pose proof (frames_loop_quiet f bf ln 0 s0 eq_refl) as Hq;
      destruct (frames_loop f bf ln 0 s0) as [[curr|e| |] s1] end;
      cbn [fst snd] in *; try done.
    destruct (curr =? 0); unfold ret; cbn [fst snd]; state_simpl; done.
  - right. left. exists AttributeError. rewrite bind_unfold.
    unfold _do_close, with_lock, bind, get, modify, acquire.
    cbv beta. rewrite Hc. cbn [negb]. cbv beta iota. rewrite Hl. cbv beta iota.
    cbn [_reader_task _writer_task set_connected set_lock]. rewrite Hrt, Hwt.
    by eexists.
  - right. left. exists AttributeError. rewrite bind_unfold.
    unfold _do_close, with_lock, bind, get, modify, acquire.
    cbv beta. rewrite Hc. cbn [negb]. cbv beta iota. rewrite Hl. cbv beta iota.
    cbn [_reader_task _writer_task set_connected set_lock]. rewrite Hrt.
    by eexists.
  - right. left. exists AttributeError. rewrite bind_unfold.
    unfold _do_close, with_lock, bind, get, modify, acquire.
    cbv beta. rewrite Hc. cbn [negb]. cbv beta iota. rewrite Hl. cbv beta iota.
    cbn [_reader_task _writer_task set_connected set_lock]. rewrite Hrt.
    by eexists.
Qed.

Lemma pump_stuck (chunks : nat) (a : addr) (s : State) :
  is_pending a s = true ->
  _reader_task s <> Some Running ->
  pump chunks a s = (Suspended, s).
Proof.
  intros Hp Hrt. destruct chunks; cbn [pump]; unfold bind, get; rewrite Hp;
    [done|]. unfold reader_turn, bind, get, ret.
  by destruct (_reader_task s) as [[|e]|].
Qed.

Lemma pump_stops (chunks : nat) (a : addr) (s s' : State) :
  _reader_task s <> Some Running ->
  pump chunks a s = (Ok tt, s') ->
  s' = s /\ is_pending a s = false.
Proof.
  intros Hrt. destruct (is_pending a s) eqn:Hp.
  - by rewrite pump_stuck.
  - rewrite pump_done by done. by intros [= <-].
Qed.

(** The reader has run until the slot was done, and the slot holds a
    result: the instance is still up. *)
Lemma pump_live (chunks : nat) (a : addr) (s s' : State) :
  live s ->
  pump chunks a s = (Ok tt, s') ->
  live s' \/ forall r, futures s' !! a <> Some (Result r).
Proof.
  revert s. induction chunks as [|n IH]; intros s [Hc Hok]; cbn [pump];
    rewrite bind_unfold; unfold get at 1; cbv beta iota;
    (destruct (is_pending a s) eqn:Hp; [|intros [= <-]; by left]); [done|].
  rewrite bind_unfold. unfold reader_turn. rewrite bind_unfold.
  unfold get at 1. cbv beta iota.
  destruct (_reader_task s) as [[|e]|] eqn:Hrt; try done.
  destruct (socket_in s) as [|chunk rest] eqn:Hin; [done|].
  rewrite bind_unfold. unfold modify at 1. cbv beta iota.
  rewrite bind_unfold. unfold background.
  set (s0 := set_socket_in rest s).
  assert (connected s0 = true) as Hc0 by exact Hc.
  assert (waiters_ok s0) as Hok0 by exact Hok.
  assert (is_pending a s0 = true) as Hp0 by exact Hp.
  clearbody s0. destruct chunk as [|b chunk].
  - destruct (reader_iteration_eof_cases s0 Hok0 Hc0)
      as [E|[(e & s1 & E & Hf)|[Hf Hr]]].
    + by rewrite E.
    + rewrite E. unfold ret at 1. cbv beta iota.
      rewrite pump_stuck; [done| |done].
      unfold is_pending in *. state_simpl. by rewrite Hf.
    + assert (forall s1 : State,
                futures s1 = futures (closed (Some lost_connection) s0) ->
                _reader_task s1 <> Some Running ->
                pump n a s1 = (Ok tt, s') ->
                live s' \/ forall r, futures s' !! a <> Some (Result r)) as Hend.
      { intros s1 Hf1 Hr1 Hpump.
        apply pump_stops in Hpump as [-> Hp1]; [|done]. right. intros r.
        unfold is_pending in Hp0, Hp1. rewrite Hf1 in *. unfold closed in *.
        state_simpl.
        destruct (resolve_all_cases (close_outcome (Some lost_connection))
                    (map_to_list (_waiters s0)).*2 (futures s0) a) as [E|E];
          rewrite E in *; [|done].
        by destruct (futures s0 !! a) as [[]|]. }
      destruct (reader_iteration [] s0) as [[[]|e| |] s1]; cbn [fst snd] in *;
        try done; unfold ret at 1; cbv beta iota.
      * apply Hend; [done|by rewrite Hr].
      * by apply Hend.
  - pose proof (reader_iteration_session (b :: chunk) s0 ltac:(done)) as [Hc1 Hr1].
    pose proof (conn_step_waiters _ _ (step_reader_iteration s0 (b :: chunk)) Hok0)
      as Hok1.
    destruct (reader_iteration (b :: chunk) s0) as [[[]|e| |] s1];
      cbn [fst snd] in *; try done; unfold ret at 1; cbv beta iota.
    + apply IH. split; [by rewrite Hc1|done].
    + apply IH. split; [by rewrite <- Hc0, <- Hc1|done].
Qed.

Lemma await_live (waiter : addr) (s s' : State) (response : Response) :
  live s ->
  await waiter s = (Ok response, s') ->
  live s'.
Proof.
  intros [Hc Hok]. unfold await. rewrite bind_unfold.
  destruct (writer_turn_effect s) as (s1 & -> & Hf1 & Hw1 & _ & _ & _ & Hc1 & _).
  cbv beta iota. rewrite bind_unfold. unfold get at 1. cbv beta iota.
  rewrite bind_unfold.
  assert (live s1) as Hlive1.
  { split; [by rewrite Hc1|]. unfold waiters_ok. by rewrite Hf1, Hw1. }
  pose proof (pump_live (length (socket_in s1)) waiter s1) as Hpump.
  destruct (pump _ waiter s1) as [[[]|e| |] s2]; try done.
  specialize (Hpump s2 Hlive1 eq_refl).
  unfold future_result, bind, get.
  destruct (futures s2 !! waiter) as [[]|] eqn:Hf; try done.
  intros [= <- <-]. destruct Hpump as [?|Hno]; [done|].
  exfalso. by eapply Hno.
Qed.

Lemma send_attempt_connected (request : Request) (s : State) :
  connected (send_attempt request s).2 = connected s.
Proof.
  unfold send_attempt, bind, get, emit, modify, ret, raise.
  destruct (_waiters s !! request_sync request); [|done].
  destruct (_write_buf s); [|done]. by destruct (_write_event s).
Qed.

Lemma send_loop_live (attempts : nat) (request : Request)
    (prev : option Response) (s s' : State) (response : Response) :
  live s ->
  send_loop attempts request prev s = (Ok response, s') ->
  live s'.
Proof.
  revert prev s. induction attempts as [|n IH]; intros prev s [Hc Hok].
  { cbn [send_loop]. by destruct prev. }
  cbn [send_loop]. rewrite bind_unfold.
  pose proof (send_attempt_connected request s) as Hc1.
  destruct (send_attempt request s) as [[w|e| |] s1] eqn:Ha; try done.
  apply send_attempt_inv in Ha as (_ & _ & Hf1 & Hw1). cbn [fst snd] in Hc1.
  rewrite bind_unfold.
  destruct (await w s1) as [[resp|e| |] s2] eqn:Hw; try done.
  apply await_live in Hw as [Hc2 Hok2];
    [|split; [by rewrite Hc1|unfold waiters_ok; by rewrite Hf1, Hw1]].
  rewrite bind_unfold.
  destruct (decide (completion_status resp = 1)) as [Hcs|Hcs].
  - rewrite send_resume_retry by done. cbv beta iota. apply IH.
    split; [exact Hc2|]. by eapply waiters_ok_insert_fresh.
  - rewrite send_resume_final by done. by intros [= <- <-].
Qed.

(** X17: a request that returns a response leaves the instance connected
    and every registered waiter unresolved in a slot of its own: had the
    stream ended or the connection been closed while the request was
    waiting, it would not have returned. *)
Theorem returned_request_leaves_instance_up (request : Request) (s : State)
    (response : Response) :
  waiters_ok s ->
  connected s = true ->
  (_send_request request s).1 = Ok response ->
  connected (_send_request request s).2 = true
  /\ waiters_ok (_send_request request s).2.
Proof.
  intros Hok Hc. rewrite send_request_connected by done.
  destruct (send_loop RETRY_MAX_ATTEMPTS request None s) as [res s'] eqn:E.
  cbn [fst snd]. intros ->. by apply send_loop_live in E.
Qed.


End Returned.

(** ** Requests on a space given by name *)

Section Named.
Context `{Tarantool} `{Requests}.

Lemma get_space_rows_session (space : SchemaKey) (array : list (list Value))
    (s : State) :
  connected (get_space_rows space array s).2 = connected s
  /\ futures (get_space_rows space array s).2 = futures s
  /\ _waiters (get_space_rows space array s).2 = _waiters s
  /\ req_num (get_space_rows space array s).2 = req_num s.
Proof.
  unfold get_space_rows, SchemaSpace_new, bind, modify, ret, raise.
  destruct (1 <? length array)%nat; [done|].
  destruct array as [|row array]; [done|].
  destruct (length row =? 0)%nat; [done|].
  by destruct (space_of_tuple row) as [[i n]|].
Qed.

(** A lookup that went to the server and came back leaves the instance
    up, with the counter one id further. *)
Lemma get_space_returns (space : SchemaKey) (s s' : State) (sp : SchemaSpace) :
  live s ->
  schema s !! space = None ->
  get_space space s = (Ok sp, s') ->
  live s' /\ req_num s' = next_sync s.
Proof.
  intros [Hc Hok] Hmiss. destruct (lock s) as [|l] eqn:Hl.
  { unfold get_space, with_lock, acquire.
    rewrite bind_unfold. unfold get at 1. cbv beta iota.
    rewrite Hmiss, Hc. rewrite bind_unfold. unfold ret at 1.
    cbv beta iota. by rewrite bind_unfold, Hl. }
  rewrite (get_space_selects space s l Hmiss Hc Hl). cbv zeta.
  set (request := mkRequest _ _). set (s2 := set_trace _ _).
  assert (live s2) as Hlive2.
  { split; [exact Hc|]. eapply (waiters_ok_insert_fresh s); [exact Hok|done..]. }
  assert (req_num s2 = next_sync s) as Hn2 by reflexivity.
  clearbody s2. rewrite bind_unfold.
  pose proof (send_loop_counter RETRY_MAX_ATTEMPTS request None s2) as Hn3.
  destruct (send_loop RETRY_MAX_ATTEMPTS request None s2)
    as [[array|e| |] s3] eqn:Hloop; try done.
  apply send_loop_live in Hloop as [Hc3 Hok3]; [|done]. cbn [fst snd] in Hn3.
  destruct (get_space_rows_session space (rows array) s3) as (Hc4 & Hf4 & Hw4 & Hn4).
  destruct (get_space_rows space (rows array) s3) as [[sp'|e| |] s4];
    try done.
  cbn [fst snd] in *. intros [= <- <-]. unfold release, live, waiters_ok.
  state_simpl. by rewrite Hc4, Hf4, Hw4, Hn4, Hn3.
Qed.

(** What a method does with a space name that is not in the cache: when
    the lookup returns a descriptor, nothing has gone out since but the
    request [enc], addressed to the id of the descriptor and carrying the
    id that follows the one of the lookup's select; when the lookup does
    not return, the method ends as the lookup did, there. *)
Definition sent_after_lookup (name : string) (s : State)
    (method : M Response) (enc : Z -> Z -> bytes) : Prop :=
  let lookup := get_space (inr name) s in
  match lookup.1 with
  | Ok sp =>
    req_num lookup.2 = next_sync s
    /\ exists n : nat,
         (n <= RETRY_MAX_ATTEMPTS)%nat
         /\ enqueued (trace (method s).2) =
              enqueued (trace lookup.2)
              ++ replicate n (enc (sid sp) (next_sync lookup.2))
         /\ (forall response, (method s).1 = Ok response -> (1 <= n)%nat)
  | Raise e => method s = (Raise e, lookup.2)
  | Suspended => method s = (Suspended, lookup.2)
  | OutOfFuel => method s = (OutOfFuel, lookup.2)
  end.

Lemma named_request (enc : Z -> Z -> bytes) (name : string) (s : State) :
  live s ->
  schema s !! inr name = None ->
  sent_after_lookup name s
    (space_name <- Methods.space_id (inr name) ;;
     request <- new_request (enc space_name) ;;
     _send_request request) enc.
Proof.
  intros Hlive Hmiss. unfold sent_after_lookup, Methods.space_id. cbv zeta.
  pose proof (get_space_returns (inr name) s) as Hret.
  assert (forall (k : Z -> M Response) (s0 : State),
            bind (sp <- get_space (inr name) ;; ret (sid sp)) k s0
            = match get_space (inr name) s0 with
              | (Ok sp, s1) => k (sid sp) s1
              | (Raise e, s1) => (Raise e, s1)
              | (Suspended, s1) => (Suspended, s1)
              | (OutOfFuel, s1) => (OutOfFuel, s1)
              end) as Hbind.
  { intros k s0. unfold bind, ret.
    by destruct (get_space (inr name) s0) as [[sp|e| |] s1]. }
  rewrite !Hbind.
  destruct (get_space (inr name) s) as [[sp|e| |] s1]; cbn [fst snd]; try done.
  destruct (Hret s1 sp Hlive Hmiss eq_refl) as [[Hc1 Hok1] Hn1].
  split; [exact Hn1|].
  rewrite !bind_unfold, !new_request_unfold. cbv beta iota zeta.
  fold (next_sync s1). set (request := mkRequest _ _). set (s2 := set_trace _ _).
  assert (enqueued (trace s2) = enqueued (trace s1)) as Hq2.
  { subst s2. state_simpl. rewrite enqueued_app. cbn. apply app_nil_r. }
  assert (connected s2 = true) as Hc2 by exact Hc1.
  clearbody s2. rewrite !send_request_connected by done.
  destruct (send_loop_traffic RETRY_MAX_ATTEMPTS request None s2)
    as (n & Hn & Hq & HOk).
  exists n. split; [done|]. split; [by rewrite Hq, Hq2|].
  intros response Hr. by destruct (HOk response Hr) as (_ & ? & _).
Qed.

(** X18: [insert], [select], [update] and [delete] on a connected
    instance, with a space name that is not in the cache.  When the lookup of the name
    returns a descriptor, the request is addressed to the id of that
    descriptor and carries the id after the one that the lookup used;
    between the lookup and the request nothing else is sent (the instance
    is still connected, so that it does not connect or authenticate
    again), and the request is put in the write buffer at most
    [RETRY_MAX_ATTEMPTS] times, at least once when the method returns.
    When the lookup raises or is suspended, so is the method, and no
    request is built. *)
Theorem named_requests_follow_the_lookup (name : string) (s : State)
    (values key op_list : list Value) (offset limit index_name iterator_type : Z) :
  waiters_ok s ->
  connected s = true ->
  schema s !! inr name = None ->
  sent_after_lookup name s (Methods.insert (inr name) values)
    (fun space_name => RequestInsert space_name values)
  /\ sent_after_lookup name s
       (Methods.select (inr name) key offset limit index_name iterator_type)
       (fun space_name =>
          RequestSelect space_name index_name key offset limit iterator_type)
  /\ sent_after_lookup name s
       (Methods.update (inr name) key op_list index_name)
       (fun space_name => RequestUpdate space_name index_name key op_list)
  /\ sent_after_lookup name s (Methods.delete (inr name) key index_name)
       (fun space_name => RequestDelete space_name index_name key).
Proof.
  intros Hok Hc Hmiss. repeat split.
  - exact (named_request (fun space_name => RequestInsert space_name values)
             name s (conj Hc Hok) Hmiss).
  - exact (named_request
             (fun space_name =>
                RequestSelect space_name index_name key offset limit
                  iterator_type)
             name s (conj Hc Hok) Hmiss).
  - exact (named_request
             (fun space_name => RequestUpdate space_name index_name key op_list)
             name s (conj Hc Hok) Hmiss).
  - exact (named_request
             (fun space_name => RequestDelete space_name index_name key)
             name s (conj Hc Hok) Hmiss).
Qed.

End Named.

(** ** The tasks of a connected instance *)

(** A connected instance has its reader and its writer task: [connect]
    creates them when it sets the flag, a crash replaces a task by its
    exception, and [_do_close] clears the flag before it drops them. *)
Definition tasks_ok (s : State) : Prop :=
  connected s = true -> _reader_task s <> None /\ _writer_task s <> None.

Definition keeps_tasks (s s' : State) : Prop := tasks_ok s -> tasks_ok s'.

(** The flag and the two tasks are what they were. *)
Definition same_session (s s' : State) : Prop :=
  connected s' = connected s
  /\ _reader_task s' = _reader_task s
  /\ _writer_task s' = _writer_task s.

Lemma same_session_refl s : same_session s s.
Proof. done. Qed.

Lemma same_session_trans s1 s2 s3 :
  same_session s1 s2 -> same_session s2 s3 -> same_session s1 s3.
Proof. intros (?&?&?) (?&?&?). repeat split; congruence. Qed.

Lemma keeps_tasks_trans s1 s2 s3 :
  keeps_tasks s1 s2 -> keeps_tasks s2 s3 -> keeps_tasks s1 s3.
Proof. unfold keeps_tasks. auto. Qed.

Lemma keeps_tasks_session s s' : same_session s s' -> keeps_tasks s s'.
Proof. intros (Hc & Hr & Hw). unfold keeps_tasks, tasks_ok. by rewrite Hc, Hr, Hw. Qed.

Lemma keeps_tasks_disconnected s s' : connected s' = false -> keeps_tasks s s'.
Proof. intros Hc _ Hc'. congruence. Qed.

Lemma session_set_result w r : respects same_session (set_result w r).
Proof.
  intros s. unfold set_result, resolve, bind, get, modify, emit, raise, ret.
  by destruct (futures s !! w) as [[]|].
Qed.

Lemma session_set_exception w e : respects same_session (set_exception w e).
Proof.
  intros s. unfold set_exception, resolve, bind, get, modify, emit, raise, ret.
  by destruct (futures s !! w) as [[]|].
Qed.

Lemma session_cancel w : respects same_session (cancel w).
Proof.
  intros s. unfold cancel, resolve, bind, get, modify, emit, raise, ret.
  by destruct (futures s !! w) as [[]|].
Qed.

Lemma session_send_attempt (request : Request) :
  respects same_session (send_attempt request).
Proof.
  intros s. unfold send_attempt, bind, get, emit, modify, ret, raise.
  destruct (_waiters s !! request_sync request); [|done].
  destruct (_write_buf s); [|done]. by destruct (_write_event s).
Qed.

Lemma session_send_resume (request : Request) (response : Response) :
  respects same_session (send_resume request response).
Proof.
  intros s. unfold send_resume. by destruct (completion_status response =? 1).
Qed.

Lemma session_writer_iteration : respects same_session writer_iteration.
Proof.
  intros s. unfold writer_iteration, bind, get, emit, modify, ret, raise.
  destruct (_write_buf s) as [[|b t]|]; cbv beta iota zeta; state_simpl;
    by destruct (_write_event s).
Qed.

Lemma session_future_result (a : addr) : respects same_session (future_result a).
Proof.
  intros s. unfold future_result, bind, get, ret, raise.
  by destruct (futures s !! a) as [[]|].
Qed.

Section Tasks.
Context `{Tarantool}.

Lemma session_dispatch_response (r : Response) :
  respects same_session (dispatch_response r).
Proof.
  intros s.
  unfold dispatch_response, set_result, set_exception, resolve, bind, get,
    emit, modify, raise, ret.
  destruct (_waiters s !! sync r) as [a|]; [|done].
  destruct (return_code r =? 0); by destruct (futures s !! a) as [[]|].
Qed.

Lemma session_frames_loop (fuel : nat) (buf : bytes) (len curr : Z) :
  respects same_session (frames_loop fuel buf len curr).
Proof.
  revert curr. induction fuel as [|fuel IH]; intros curr s; [done|].
  cbn [frames_loop]. destruct (5 <=? len - curr); [|done].
  destruct (unpackb _) as [length|]; [|done].
  destruct (len - curr <? 5 + length); [done|].
  cbv zeta. rewrite bind_emit. destruct (Response_unpack _) as [r|]; [|done].
  rewrite bind_unfold.
  match goal with |- context [dispatch_response r ?s0] =>
    pose proof (session_dispatch_response r s0) as Hd;
    destruct (dispatch_response r s0) as [[[]|e| |] s1] end;
    cbn [fst snd] in *; try done.
  eapply same_session_trans; [exact Hd|apply IH].
Qed.

Lemma session_get_space_rows (space : SchemaKey) (array : list (list Value)) :
  respects same_session (get_space_rows space array).
Proof.
  intros s. unfold get_space_rows, SchemaSpace_new, bind, modify, ret, raise.
  destruct (1 <? length array)%nat; [done|].
  destruct array as [|row array]; [done|].
  destruct (length row =? 0)%nat; [done|].
  by destruct (space_of_tuple row) as [[i n]|].
Qed.

#[local] Abbreviation tasks_kept := (respects keeps_tasks).
#[local] Abbreviation tasks_bind := (respects_bind keeps_tasks keeps_tasks_trans).

Lemma tasks_session {A} (m : M A) : respects same_session m -> tasks_kept m.
Proof. intros Hm s. apply keeps_tasks_session, Hm. Qed.

Lemma tasks_here {A} (r : result A) : tasks_kept (fun s => (r, s)).
Proof. intros s Hok. exact Hok. Qed.

Lemma tasks_modify (f : State -> State) :
  (forall s, same_session s (f s)) -> tasks_kept (modify f).
Proof. intros Hf s. apply keeps_tasks_session, Hf. Qed.

Lemma tasks_with_lock {A} (body : M A) : tasks_kept body -> tasks_kept (with_lock body).
Proof.
  intros Hb s. unfold with_lock, bind, acquire.
  destruct (lock s) as [|n]; [intros Hok; exact Hok|].
  specialize (Hb (set_lock n s)).
  destruct (body (set_lock n s)) as [[a|e| |] s1]; cbn [fst snd] in *;
    intros Hok; exact (Hb Hok).
Qed.

Lemma tasks_background_reader (m : M unit) :
  tasks_kept m -> tasks_kept (background set_reader_task m).
Proof.
  intros Hm s. unfold background. specialize (Hm s).
  destruct (m s) as [[a|e| |] s1]; cbn [fst snd] in *; try exact Hm.
  intros Hok Hc. by destruct (Hm Hok Hc).
Qed.

Lemma tasks_background_writer (m : M unit) :
  tasks_kept m -> tasks_kept (background set_writer_task m).
Proof.
  intros Hm s. unfold background. specialize (Hm s).
  destruct (m s) as [[a|e| |] s1]; cbn [fst snd] in *; try exact Hm.
  intros Hok Hc. by destruct (Hm Hok Hc).
Qed.

(** Nothing in the loop over the waiters waits. *)
Lemma for_each_close_returns (exc : option Exc) (l : list addr) (s : State) :
  (for_each l (fun waiter =>
                 match exc with
                 | None => cancel waiter
                 | Some e => set_exception waiter e
                 end) s).1 <> Suspended.
Proof.
  revert s. induction l as [|w l IH]; intros s; cbn [for_each]; [done|].
  rewrite bind_unfold.
  assert ((match exc with None => cancel w | Some e => set_exception w e end s).1
          <> Suspended) as Hw.
  { destruct exc; unfold cancel, set_exception, resolve, bind, get, modify,
      emit, raise, ret; by destruct (futures s !! w) as [[]|]. }
  destruct (match exc with None => cancel w | Some e => set_exception w e end s)
    as [[[]|e| |] s1]; cbn [fst snd] in *; first [done|apply IH].
Qed.

(** A close that waits has not done anything yet. *)
Lemma do_close_suspended (exc : option Exc) (s : State) :
  (_do_close exc s).1 = Suspended -> (_do_close exc s).2 = s.
Proof.
  remember (_do_close exc s) as out eqn:Hout.
  unfold _do_close, with_lock, acquire in Hout.
  rewrite bind_unfold in Hout. unfold get at 1 in Hout.
  cbv beta iota in Hout.
  destruct (connected s) eqn:Hc; cbn [negb] in Hout; [|by subst out].
  rewrite bind_unfold in Hout.
  destruct (lock s) as [|l]; [by subst out|].
  cbv beta iota in Hout. rewrite bind_unfold in Hout.
  unfold modify at 1 in Hout. cbv beta iota in Hout.
  rewrite bind_unfold in Hout. unfold get at 1 in Hout.
  cbv beta iota in Hout. state_simpl.
  destruct (_reader_task s); [|by subst out].
  rewrite bind_unfold in Hout. unfold modify at 1 in Hout.
  cbv beta iota in Hout.
  destruct (_writer_task s); [|by subst out].
  do 3 (rewrite bind_unfold in Hout; unfold modify at 1 in Hout;
        cbv beta iota in Hout).
  rewrite bind_unfold in Hout.
  match type of Hout with context [for_each ?l ?f ?st] =>
    pose proof (for_each_close_returns exc l st) as Hfe;
    destruct (for_each l f st) as [[[]|e| |] s1] end;
    cbn [fst snd] in Hfe; subst out; done.
Qed.

Lemma tasks_do_close (exc : option Exc) : tasks_kept (_do_close exc).
Proof.
  intros s. destruct (_do_close exc s).1 as [[]|e| |] eqn:Hs.
  - apply keeps_tasks_disconnected, do_close_disconnects. by rewrite Hs.
  - apply keeps_tasks_disconnected, do_close_disconnects. by rewrite Hs.
  - rewrite do_close_suspended by done. intros Hok. exact Hok.
  - apply keeps_tasks_disconnected, do_close_disconnects. by rewrite Hs.
Qed.

Lemma tasks_reader_iteration (tmp_buf : bytes) : tasks_kept (reader_iteration tmp_buf).
Proof.
  unfold reader_iteration. apply tasks_bind.
  { destruct tmp_buf; [apply tasks_do_close|apply tasks_here]. }
  intros _. apply respects_get_bind. intros s. revert s.
  change (tasks_kept (fun s : State =>
            (modify (set_reader_buf (reader_buf s ++ tmp_buf)) ;;;
             curr <- frames_loop (S (length (reader_buf s ++ tmp_buf)))
                       (reader_buf s ++ tmp_buf)
                       (Z.of_nat (length (reader_buf s ++ tmp_buf))) 0 ;;
             (if curr =? 0 then ret tt
              else modify (set_reader_buf
                             (pyslice_from (reader_buf s ++ tmp_buf) curr)))) s)).
  intros s. generalize (reader_buf s ++ tmp_buf). intros buf. revert s.
  change (tasks_kept (modify (set_reader_buf buf) ;;;
                 curr <- frames_loop (S (length buf)) buf
                           (Z.of_nat (length buf)) 0 ;;
                 (if curr =? 0 then ret tt
                  else modify (set_reader_buf (pyslice_from buf curr))))).
  apply tasks_bind; [by apply tasks_modify|intros _].
  apply tasks_bind; [apply tasks_session, session_frames_loop|intros curr].
  destruct (curr =? 0); [apply tasks_here|by apply tasks_modify].
Qed.

Lemma tasks_response_reader (chunks : list bytes) : tasks_kept (_response_reader chunks).
Proof.
  induction chunks as [|tmp_buf chunks IH]; cbn [_response_reader];
    (apply respects_get_bind; intros s0);
    (destruct (connected s0); [|apply tasks_do_close]).
  - apply tasks_here.
  - apply tasks_bind; [apply tasks_reader_iteration|intros _; apply IH].
Qed.

Lemma tasks_writer_turn : tasks_kept writer_turn.
Proof.
  unfold writer_turn. apply respects_get_bind. intros s0.
  destruct (_writer_task s0) as [[|e]|]; try apply tasks_here.
  destruct (_write_event s0) as [[|]|]; try apply tasks_here.
  apply tasks_background_writer, tasks_session, session_writer_iteration.
Qed.

Lemma tasks_reader_turn : tasks_kept reader_turn.
Proof.
  unfold reader_turn. apply respects_get_bind. intros s0.
  destruct (_reader_task s0) as [[|e]|]; try apply tasks_here.
  destruct (socket_in s0) as [|tmp_buf rest]; [apply tasks_here|].
  apply tasks_bind; [by apply tasks_modify|intros _].
  apply tasks_bind; [|intros _; apply tasks_here].
  apply tasks_background_reader, tasks_reader_iteration.
Qed.

Lemma tasks_pump (chunks : nat) (a : addr) : tasks_kept (pump chunks a).
Proof.
  induction chunks as [|n IH]; cbn [pump];
    (apply respects_get_bind; intros s0);
    (destruct (is_pending a s0); [|apply tasks_here]).
  - apply tasks_here.
  - apply tasks_bind; [apply tasks_reader_turn|intros moved].
    destruct moved; [apply IH|apply tasks_here].
Qed.

Lemma tasks_await (waiter : addr) : tasks_kept (await waiter).
Proof.
  unfold await. apply tasks_bind; [apply tasks_writer_turn|intros _].
  apply respects_get_bind. intros s0.
  apply tasks_bind; [apply tasks_pump|intros _].
  apply tasks_session, session_future_result.
Qed.

Lemma tasks_new_request (encode : Z -> bytes) : tasks_kept (new_request encode).
Proof. intros s. rewrite new_request_unfold. by apply keeps_tasks_session. Qed.

Lemma tasks_send_loop (attempts : nat) (request : Request)
    (response : option Response) :
  tasks_kept (send_loop attempts request response).
Proof.
  revert response. induction attempts as [|n IH]; intros response;
    cbn [send_loop].
  - destruct response; apply tasks_here.
  - apply tasks_bind; [apply tasks_session, session_send_attempt|intros waiter].
    apply tasks_bind; [apply tasks_await|intros resp].
    apply tasks_bind; [apply tasks_session, session_send_resume|intros [r|]];
      [apply tasks_here|apply IH].
Qed.

Lemma tasks_connect : tasks_kept connect.
Proof.
  unfold connect. apply respects_get_bind. intros s0.
  destruct (connected s0); [apply tasks_here|].
  apply tasks_bind; [|intros returned].
  { unfold connect_locked. apply tasks_with_lock.
    intros s Hok. unfold bind, get, modify, ret.
    destruct (connected s) eqn:Hc; cbv beta iota; cbn [fst snd];
      [exact Hok|by intros _]. }
  destruct returned; [apply tasks_here|].
  apply respects_get_bind. intros s1.
  destruct (user s1) as [u|]; [|apply tasks_here].
  destruct (password s1) as [p|]; [|apply tasks_here].
  destruct (_ && _); [|apply tasks_here].
  apply tasks_bind; [apply tasks_new_request|intros request].
  apply tasks_bind; [apply tasks_send_loop|intros _; apply tasks_here].
Qed.

Lemma tasks_send_request (request : Request) : tasks_kept (_send_request request).
Proof.
  unfold _send_request. apply respects_get_bind. intros s0.
  apply tasks_bind; [|intros _; apply tasks_send_loop].
  destruct (connected s0); [apply tasks_here|apply tasks_connect].
Qed.

Lemma tasks_authenticate (u p : string) : tasks_kept (authenticate u p).
Proof.
  unfold authenticate.
  apply tasks_bind; [by apply tasks_modify|intros _].
  apply tasks_bind; [by apply tasks_modify|intros _].
  apply respects_get_bind. intros s0.
  apply tasks_bind; [|intros _].
  { destruct (connected s0); [apply tasks_here|apply tasks_connect]. }
  apply tasks_bind; [apply tasks_new_request|intros request].
  apply tasks_send_request.
Qed.

Lemma tasks_select space_name key offset limit index_name iterator_type :
  tasks_kept (select space_name key offset limit index_name iterator_type).
Proof.
  unfold select.
  apply tasks_bind; [apply tasks_new_request|intros request].
  apply tasks_send_request.
Qed.

Lemma tasks_get_space (space : SchemaKey) : tasks_kept (get_space space).
Proof.
  unfold get_space. apply respects_get_bind. intros s0.
  destruct (schema s0 !! space); [apply tasks_here|].
  apply tasks_bind; [|intros _].
  { destruct (connected s0); [apply tasks_here|apply tasks_connect]. }
  apply tasks_with_lock. apply respects_get_bind. intros s1.
  destruct (schema s1 !! space); [apply tasks_here|].
  apply tasks_bind; [apply tasks_select|intros array].
  apply tasks_session, session_get_space_rows.
Qed.

Lemma conn_step_tasks s s' : conn_step s s' -> keeps_tasks s s'.
Proof.
  destruct 1.
  - rewrite generate_sync_unfold. by apply keeps_tasks_session.
  - apply tasks_response_reader.
  - apply tasks_session, session_send_attempt.
  - apply tasks_await.
  - apply tasks_session, session_send_resume.
  - apply tasks_session, session_frames_loop.
  - apply tasks_reader_iteration.
  - apply tasks_session, session_writer_iteration.
  - apply tasks_do_close.
  - apply tasks_connect.
  - apply tasks_send_request.
  - apply tasks_authenticate.
  - apply tasks_select.
  - apply tasks_get_space.
  - by apply keeps_tasks_session.
Qed.

(** From a new connection object on, a connected instance has both
    tasks. *)
Lemma conn_steps_tasks usr pwd input s :
  rtc conn_step (Connection usr pwd input) s -> tasks_ok s.
Proof.
  intros Hsteps.
  assert (tasks_ok (Connection usr pwd input)) as Hinit by (by intros ?).
  revert Hinit. induction Hsteps as [|s1 s2 s3 Hstep _ IH]; [done|].
  intros H1. apply IH. by apply (conn_step_tasks s1 s2).
Qed.

(** C3, as the code has it: closing an instance that is not connected
    changes nothing.  Closing a connected one begins by taking the
    exclusion lock.  With the lock free it marks the instance
    disconnected and empties the waiter table; every slot of the table is
    resolved by exactly one step, to cancelled when there is no
    triggering error and to that error otherwise; the other slots stay as
    they were.  With the lock taken the close waits, and nothing has
    changed: the instance is still marked connected and no waiter is
    resolved.  What the second case asks of the state besides the flag
    and the lock, that the table maps every id to an unresolved slot of
    its own and that both tasks are there, holds of every state that a
    new connection object can get into. *)
Theorem do_close_resolves_every_waiter (exc : option Exc) (s : State) :
  (connected s = false -> _do_close exc s = (Ok tt, s))
  /\ (connected s = true ->
      lock s <> 0%nat ->
      _reader_task s <> None ->
      _writer_task s <> None ->
      waiters_ok s ->
      exists s' l,
        _do_close exc s = (Ok tt, s')
        /\ connected s' = false
        /\ _waiters s' = ∅
        /\ trace s' = trace s ++ ((fun w => EvResolve w (close_outcome exc)) <$> l)
        /\ NoDup l
        /\ (forall a, a ∈ l <-> exists k, _waiters s !! k = Some a)
        /\ (forall a, a ∈ l ->
              futures s !! a = Some Pending
              /\ futures s' !! a = Some (close_outcome exc))
        /\ (forall a, a ∉ l -> futures s' !! a = futures s !! a))
  /\ (connected s = true ->
      lock s = 0%nat ->
      _do_close exc s = (Suspended, s))
  /\ (forall usr pwd input,
        rtc conn_step (Connection usr pwd input) s ->
        waiters_ok s
        /\ (connected s = true ->
            _reader_task s <> None /\ _writer_task s <> None)).
Proof.
  split; [|split; [|split]].
  - intros Hc. unfold _do_close, bind, get. by rewrite Hc.
  - intros Hc Hl Hr Hw Hok.
    exists (closed exc s), (map_to_list (_waiters s)).*2.
    pose proof (waiters_values_NoDup s Hok) as Hnd.
    split; [by apply do_close_connected|].
    split; [done|]. split; [done|]. split; [done|]. split; [done|].
    split; [intros a; apply waiters_values_elem|].
    split.
    + intros a [k Hk]%waiters_values_elem. split; [by eapply (proj1 Hok)|].
      simpl. apply resolve_all_in; [done| |by eapply waiters_ok_lt].
      apply waiters_values_elem. by exists k.
    + intros a Ha. simpl. by apply resolve_all_notin.
  - intros Hc Hl. unfold _do_close, with_lock, acquire.
    rewrite bind_unfold. unfold get at 1. cbv beta iota. rewrite Hc.
    cbn [negb]. by rewrite bind_unfold, Hl.
  - intros usr pwd input Hsteps. split.
    + exact (proj2 (conn_steps_invariants usr pwd input s Hsteps)).
    + exact (conn_steps_tasks usr pwd input s Hsteps).
Qed.

End Tasks.

(** ** The events of a dispatcher *)

Section Script.
Context `{Tarantool}.

(** The events of a dispatcher: the appends to the outbound buffer, the
    registrations of a slot and the retry warnings. *)
Definition dispatcher_event (ev : Event) : bool :=
  match ev with
  | EvEnqueue _ | EvRegister _ _ | EvWarn _ => true
  | _ => false
  end.

Definition dispatcher_events (evs : list Event) : list Event :=
  List.filter dispatcher_event evs.

(** An attempt that ends in a retry: the append of line 295 and, once the
    response is there, the registration of line 304 and the warning of
    line 305. *)
Definition retry_round (request : Request) (round : addr * string) : list Event :=
  [EvEnqueue (request_bytes request);
   EvRegister (request_sync request) round.1;
   EvWarn round.2].

Lemma dispatcher_events_app evs1 evs2 :
  dispatcher_events (evs1 ++ evs2) = dispatcher_events evs1 ++ dispatcher_events evs2.
Proof. apply List.filter_app. Qed.

Lemma dispatcher_events_none evs :
  Forall (fun ev => dispatcher_event ev = false) evs -> dispatcher_events evs = [].
Proof.
  induction 1 as [|ev evs Hev _ IH]; [done|].
  unfold dispatcher_events in *. cbn [List.filter]. by rewrite Hev.
Qed.

Lemma enqueued_dispatcher_events evs :
  enqueued (dispatcher_events evs) = enqueued evs.
Proof.
  induction evs as [|ev evs IH]; [done|].
  change (ev :: evs) with ([ev] ++ evs).
  rewrite dispatcher_events_app, !enqueued_app, IH. f_equal. by destruct ev.
Qed.

Lemma enqueued_retry_rounds (request : Request) (rounds : list (addr * string)) :
  enqueued (concat (retry_round request <$> rounds))
  = replicate (length rounds) (request_bytes request).
Proof.
  induction rounds as [|round rounds IH]; [done|].
  rewrite fmap_cons. cbn [concat length replicate].
  by rewrite enqueued_app, IH.
Qed.

Lemma send_attempt_trace (request : Request) (s : State) :
  exists t,
    trace (send_attempt request s).2 = trace s ++ t
    /\ (t = [] \/ t = [EvEnqueue (request_bytes request)])
    /\ (forall w, (send_attempt request s).1 = Ok w ->
          t = [EvEnqueue (request_bytes request)]).
Proof.
  unfold send_attempt, bind, get, emit, modify, ret, raise.
  destruct (_waiters s !! request_sync request) as [w|];
    [|exists []; rewrite app_nil_r; split; [done|]; split; [by left|done]].
  destruct (_write_buf s) as [buf|];
    [|exists []; rewrite app_nil_r; split; [done|]; split; [by left|done]].
  exists [EvEnqueue (request_bytes request)]. cbv beta iota zeta. state_simpl.
  destruct (_write_event s); cbv beta iota zeta; state_simpl;
    (split; [done|]); (split; [by right|done]).
Qed.

Lemma await_dispatcher_events (waiter : addr) (s : State) :
  exists evs,
    trace (await waiter s).2 = trace s ++ evs /\ dispatcher_events evs = [].
Proof.
  set (P := fun ev => dispatcher_event ev = false).
  destruct (respects_await (grows P)
              (grows_trans _) (grows_same _)
              (grows_dispatch_response P ltac:(by intros) ltac:(by intros))
              (grows_do_close P ltac:(by intros))
              (fun b => grows_emit P (EvDecode b) eq_refl)
              (fun b => grows_emit P (EvWrite b) eq_refl)
              waiter s) as (evs & Ht & Hevs).
  exists evs. split; [exact Ht|by apply dispatcher_events_none].
Qed.

(** What a run of the attempts leaves in the trace of the dispatcher's own
    events: rounds of append, registration and warning, one for each
    response that asked for a retry, and then at most one more append. *)
Lemma send_loop_script (attempts : nat) (request : Request)
    (prev : option Response) (s : State) :
  exists evs rounds tail,
    trace (send_loop attempts request prev s).2 = trace s ++ evs
    /\ dispatcher_events evs = concat (retry_round request <$> rounds) ++ tail
    /\ (tail = [] \/ tail = [EvEnqueue (request_bytes request)])
    /\ (length rounds + length tail <= attempts)%nat
    /\ (forall response,
          (send_loop attempts request prev s).1 = Ok response ->
          tail = [EvEnqueue (request_bytes request)]).
Proof.
  revert prev s. induction attempts as [|a IH]; intros prev s.
  { exists [], [], []. cbn [send_loop]. rewrite app_nil_r.
    destruct prev; repeat split; auto; done. }
  cbn [send_loop]. rewrite bind_unfold.
  destruct (send_attempt_trace request s) as (t & Ht & Hcases & HOk).
  destruct (send_attempt request s) as [[w|e| |] s1] eqn:Ha; cbn [fst snd] in *;
    try (exists t, [], t; split; [exact Ht|]; split;
         [by destruct Hcases as [->| ->]|]; split; [exact Hcases|];
         split; [destruct Hcases as [->| ->]; cbn; lia|done]).
  rewrite (HOk w eq_refl) in Ht. clear t Hcases HOk.
  destruct (await_dispatcher_events w s1) as (e2 & Ht2 & He2).
  rewrite bind_unfold.
  destruct (await w s1) as [[resp|e| |] s2]; cbn [fst snd] in *;
    try (exists ([EvEnqueue (request_bytes request)] ++ e2), [],
           [EvEnqueue (request_bytes request)];
         split; [by rewrite Ht2, Ht, <- app_assoc|]; split;
         [by rewrite dispatcher_events_app, He2|]; split; [by right|];
         split; [cbn; lia|done]).
  rewrite bind_unfold.
  destruct (decide (completion_status resp = 1)) as [Hcs|Hcs].
  - rewrite send_resume_retry by done. cbv beta iota.
    destruct (IH (Some resp)
                (set_trace (trace s2 ++
                   [EvRegister (request_sync request) (length (futures s2));
                    EvWarn (return_message resp)])
                  (set_waiters (<[request_sync request := length (futures s2)]>
                                  (_waiters s2))
                     (set_futures (futures s2 ++ [Pending]) s2))))
      as (evs & rounds & tail & Hte & Hde & Htail & Hlen & HOk).
    exists ([EvEnqueue (request_bytes request)] ++ e2
            ++ [EvRegister (request_sync request) (length (futures s2));
                EvWarn (return_message resp)] ++ evs),
      ((length (futures s2), return_message resp) :: rounds), tail.
    split; [rewrite Hte; state_simpl; by rewrite Ht2, Ht, <- !app_assoc|].
    split.
    { rewrite !dispatcher_events_app, He2, Hde. done. }
    split; [exact Htail|]. split; [cbn [length]; lia|exact HOk].
  - rewrite send_resume_final by done. unfold ret. cbn [fst snd].
    exists ([EvEnqueue (request_bytes request)] ++ e2), [],
      [EvEnqueue (request_bytes request)].
    split; [by rewrite Ht2, Ht, <- app_assoc|]. split;
      [by rewrite dispatcher_events_app, He2|]. split; [by right|].
    split; [cbn; lia|done].
Qed.

(** C1, as the code has it: the append of the request's bytes is inside
    the loop of the dispatcher.  Of the events of its own that a call of
    [_send_request] adds to the trace, every response that asked for a
    retry accounts for a round of three, the append, the registration of
    a new slot under the same correlation id and the warning, and after
    the rounds comes at most one more append, which is there when the
    call returns a response: the bytes are appended once per attempt.
    When the first [n] attempts have been answered by "retry needed", the
    dispatcher is at the state this leaves, with the bytes appended [n]
    times and a new pending slot registered under the id, and the attempt
    that follows appends them once more. *)
Theorem retry_appends_request_again (request : Request) (s : State) :
  connected s = true ->
  (exists evs rounds tail,
     trace (_send_request request s).2 = trace s ++ evs
     /\ dispatcher_events evs = concat (retry_round request <$> rounds) ++ tail
     /\ (tail = [] \/ tail = [EvEnqueue (request_bytes request)])
     /\ (length rounds + length tail <= RETRY_MAX_ATTEMPTS)%nat
     /\ enqueued (trace (_send_request request s).2) =
          enqueued (trace s)
          ++ replicate (length rounds + length tail) (request_bytes request)
     /\ (forall response,
           (_send_request request s).1 = Ok response ->
           tail = [EvEnqueue (request_bytes request)]))
  /\ (forall responses s',
        retried request s responses s' ->
        (length responses <= RETRY_MAX_ATTEMPTS)%nat ->
        _send_request request s =
          send_loop (RETRY_MAX_ATTEMPTS - length responses) request
            (last responses) s'
        /\ enqueued (trace s') =
             enqueued (trace s)
             ++ replicate (length responses) (request_bytes request)
        /\ (responses <> [] ->
            exists fs,
              futures s' = fs ++ [Pending]
              /\ _waiters s' !! request_sync request = Some (length fs))
        /\ (forall waiter s1,
              send_attempt request s' = (Ok waiter, s1) ->
              enqueued (trace s1) =
                enqueued (trace s)
                ++ replicate (S (length responses)) (request_bytes request))).
Proof.
  intros Hc. rewrite send_request_connected by done. split.
  - destruct (send_loop_script RETRY_MAX_ATTEMPTS request None s)
      as (evs & rounds & tail & Ht & Hd & Htail & Hlen & HOk).
    exists evs, rounds, tail. split; [exact Ht|]. split; [exact Hd|].
    split; [exact Htail|]. split; [exact Hlen|]. split; [|exact HOk].
    rewrite Ht, enqueued_app, <- (enqueued_dispatcher_events evs), Hd.
    rewrite enqueued_app, enqueued_retry_rounds, replicate_add.
    by destruct Htail as [->| ->].
  - intros responses s' Hrun Hlen. split; [|split; [|split]].
    + replace RETRY_MAX_ATTEMPTS
        with (length responses + (RETRY_MAX_ATTEMPTS - length responses))%nat
        at 1 by lia.
      rewrite (send_loop_retried request s responses s' Hrun). f_equal.
      by destruct (last responses).
    + by apply retried_enqueued.
    + by apply (retried_registered request s).
    + intros waiter s1 Ha. apply send_attempt_inv in Ha as (_ & -> & _ & _).
      rewrite enqueued_app, (retried_enqueued _ _ _ _ Hrun). simpl.
      rewrite <- app_assoc. f_equal.
      change (request_bytes request
              :: replicate (length responses) (request_bytes request))
        with (replicate (S (length responses)) (request_bytes request)).
      by rewrite replicate_S_end.
Qed.

End Script.

(** * Runs of the model *)

Module Runs.
Import Demo.
#[local] Existing Instance wire.

(** A response for id 1 that asks for a retry, a final one with the tuple
    of space 5, and a final one with a tuple that has no fields. *)
Definition retry_frame : bytes := frame [x01; x00; x01].
Definition final_frame : bytes := frame [x01; x00; x00; x05].
Definition empty_tuple_frame : bytes := frame [x01; x00; x00; x00].

Definition retry_response : Response := mkResponse 1 0 1 "retry" [].
Definition final_response : Response :=
  mkResponse 1 0 0 "" [[VInt 5; VInt 0; VStr "users"]].

(** The first request of a connection that is up. *)
Definition request1 : Request := mkRequest 1 (encode x01 1).
Definition dispatched (input : list bytes) : State :=
  Eval vm_compute in (new_request (encode x01) (up input)).2.

(** A frame for an id that nobody waits for, then an answer to request 1,
    then the first six bytes of a frame of nine. *)
Definition stray_body : bytes := [x09; x00; x00].
Definition answer_body : bytes := [x01; x00; x00].
Definition buffer : bytes :=
  frame stray_body ++ frame answer_body ++ [xce; x00; x00; x00; x09; x01].

Example pyslice_middle : pyslice [x01; x02; x03; x04] 1 3 = [x02; x03].
Proof. reflexivity. Qed.

Example pyslice_from_the_end : pyslice [x01; x02; x03; x04] (-3) (-1) = [x02; x03].
Proof. reflexivity. Qed.

Example pyslice_past_the_end : pyslice [x01; x02; x03; x04] 2 10 = [x03; x04].
Proof. reflexivity. Qed.

Example pyslice_backwards : pyslice [x01; x02; x03; x04] 3 1 = [].
Proof. reflexivity. Qed.

Example unpack_length_uint32 : unpackb [xce; x00; x00; x01; x02] = Some 258.
Proof. reflexivity. Qed.

Example first_sync : (generate_sync (up [])).1 = Ok 1.
Proof. by vm_compute. Qed.

(** The whole buffer in one read: the stray frame is logged, the answer
    resolves the waiter of request 1, the six bytes of the partial frame
    stay in the buffer of the reader. *)
Example reader_iteration_buffer :
  (reader_iteration buffer (dispatched [])).1 = Ok tt
  /\ futures (reader_iteration buffer (dispatched [])).2
     = [Result (mkResponse 1 0 0 "" [])]
  /\ reader_buf (reader_iteration buffer (dispatched [])).2
     = [xce; x00; x00; x00; x09; x01]
  /\ trace (reader_iteration buffer (dispatched [])).2
     = [EvRegister 1 0%nat;
        EvDecode stray_body; EvLogError (mkResponse 9 0 0 "" []);
        EvDecode answer_body;
        EvResolve 0%nat (Result (mkResponse 1 0 0 "" []))].
Proof. by vm_compute. Qed.

(** An empty read tears the connection down and fails the waiter. *)
Example reader_iteration_eof :
  connected (reader_iteration [] (dispatched [])).2 = false
  /\ futures (reader_iteration [] (dispatched [])).2
     = [Exception (NetworkError "Lost connection to server during query")].
Proof. by vm_compute. Qed.

Lemma up_waiters_ok (input : list bytes) : waiters_ok (up input).
Proof.
  split; intros *; change (_waiters (up input)) with (∅ : gmap Z addr);
    rewrite lookup_empty; discriminate.
Qed.

Lemma dispatched_waiters_ok (input : list bytes) : waiters_ok (dispatched input).
Proof.
  assert ((generate_sync (up input)).2 = dispatched input) as <-
    by (vm_compute; reflexivity).
  apply waiters_ok_generate_sync, up_waiters_ok.
Qed.

Lemma buffer_stray_frame : frame_at buffer 0 3 stray_body.
Proof. repeat split; by vm_compute. Qed.

Lemma buffer_answer_frame : frame_at buffer 8 3 answer_body.
Proof. repeat split; by vm_compute. Qed.

Lemma buffer_partial_frame : incomplete_at buffer 16.
Proof. right. exists 9. split; by vm_compute. Qed.

Lemma reader_decodes_only_complete_frames_witness :
  incomplete_at buffer 16
  /\ frames_loop 1 buffer (Z.of_nat (length buffer)) 16 (dispatched [])
     = (Ok 16, dispatched []).
Proof.
  split; [exact buffer_partial_frame|].
  exact (proj1 (proj2 (reader_decodes_only_complete_frames
                         0 buffer 16 (dispatched [])))
           buffer_partial_frame).
Defined.

Lemma reader_discards_unmatched_frame_witness :
  frame_at buffer 0 3 stray_body
  /\ Response_unpack stray_body = Some (mkResponse 9 0 0 "" [])
  /\ _waiters (dispatched []) !! 9 = None
  /\ frames_loop 3 buffer (Z.of_nat (length buffer)) 0 (dispatched [])
     = frames_loop 2 buffer (Z.of_nat (length buffer)) (0 + (5 + 3))
         (set_trace (trace (dispatched [])
                     ++ [EvDecode stray_body; EvLogError (mkResponse 9 0 0 "" [])])
            (dispatched []))
  /\ framed buffer (0 + (5 + 3)) [mkResponse 1 0 0 "" []] 16
  /\ (frames_loop 3 buffer (Z.of_nat (length buffer)) 0 (dispatched [])).1
     = Ok 16.
Proof.
  assert (_waiters (dispatched []) !! 9 = None) as Hw by (by vm_compute).
  assert (framed buffer (0 + (5 + 3)) [mkResponse 1 0 0 "" []] 16) as Hrest.
  { eapply framed_cons; [exact buffer_answer_frame|reflexivity|].
    apply framed_nil, buffer_partial_frame. }
  split; [exact buffer_stray_frame|]. split; [reflexivity|]. split; [exact Hw|].
  destruct (reader_discards_unmatched_frame 2 buffer 0 3 stray_body
              (mkResponse 9 0 0 "" []) (dispatched [])
              buffer_stray_frame eq_refl Hw) as [Heq Hall].
  split; [exact Heq|]. split; [exact Hrest|].
  apply (Hall _ _ (dispatched_waiters_ok []) Hrest). simpl. lia.
Defined.

Lemma reader_resolves_matching_waiter_witness :
  waiters_ok (dispatched [])
  /\ frame_at buffer 8 3 answer_body
  /\ _waiters (dispatched []) !! 1 = Some 0%nat
  /\ exists s1,
       frames_loop 2 buffer (Z.of_nat (length buffer)) 8 (dispatched [])
       = frames_loop 1 buffer (Z.of_nat (length buffer)) (8 + (5 + 3)) s1
       /\ futures s1 !! 0%nat = Some (Result (mkResponse 1 0 0 "" []))
       /\ _waiters s1 !! 1 = None
       /\ waiters_ok s1.
Proof.
  assert (_waiters (dispatched []) !! 1 = Some 0%nat) as Hw by (by vm_compute).
  split; [apply dispatched_waiters_ok|]. split; [exact buffer_answer_frame|].
  split; [exact Hw|].
  destruct (proj2 reader_resolves_matching_waiter 1%nat buffer 8 3 answer_body
              (mkResponse 1 0 0 "" []) (dispatched []) 0%nat
              (dispatched_waiters_ok []) buffer_answer_frame eq_refl Hw)
    as (Hloop & _ & Hf & Hk & _ & Hok & _).
  eexists. split; [exact Hloop|]. split; [exact Hf|]. split; [exact Hk|exact Hok].
Defined.

Lemma generate_sync_next_id_witness :
  rtc conn_step (Connection None None [])
    (generate_sync (connect (Connection None None [])).2).2
  /\ match (generate_sync
              (generate_sync (connect (Connection None None [])).2).2).1 with
     | Ok k => 0 <= k <= 10000000
     | _ => False
     end.
Proof.
  assert (rtc conn_step (Connection None None [])
            (generate_sync (connect (Connection None None [])).2).2) as Hsteps.
  { eapply rtc_l; [apply step_connect|].
    eapply rtc_l; [apply step_generate_sync|]. apply rtc_refl. }
  split; [exact Hsteps|].
  exact (proj2 generate_sync_next_id None None [] _ Hsteps).
Defined.

(** Two requests in flight. *)
Definition two_dispatched : State :=
  Eval vm_compute in (new_request (encode x01) (dispatched [])).2.

Lemma two_dispatched_waiters_ok : waiters_ok two_dispatched.
Proof.
  assert ((generate_sync (dispatched [])).2 = two_dispatched) as <-
    by (vm_compute; reflexivity).
  apply waiters_ok_generate_sync, dispatched_waiters_ok.
Qed.

(** A voluntary close cancels both. *)
Example close_two_dispatched :
  (close two_dispatched).1 = Ok tt
  /\ futures (close two_dispatched).2 = [Cancelled; Cancelled]
  /\ connected (close two_dispatched).2 = false.
Proof. by vm_compute. Qed.

Lemma do_close_resolves_every_waiter_witness :
  connected two_dispatched = true
  /\ waiters_ok two_dispatched
  /\ exists s',
       _do_close (Some (NetworkError "Lost connection to server during query"))
         two_dispatched = (Ok tt, s')
       /\ connected s' = false
       /\ _waiters s' = ∅.
Proof.
  split; [reflexivity|]. split; [exact two_dispatched_waiters_ok|].
  destruct (proj1 (proj2 (do_close_resolves_every_waiter
                            (Some (NetworkError
                                     "Lost connection to server during query"))
                            two_dispatched)))
    as (s' & l & Hclose & Hc & Hw & _);
    [reflexivity|by vm_compute|by vm_compute|by vm_compute
    |exact two_dispatched_waiters_ok|].
  exists s'. by repeat split.
Defined.

(** A lookup that waits for the answer to its select holds the lock. *)
Definition lookup_waiting : State :=
  Eval vm_compute in (get_space (inr "users") (up [])).2.

(** C3 does not hold of a connected instance whose lock is taken: the
    close, voluntary or after a fault, waits for the lock; the waiter of
    the select is not resolved, the table is not emptied and the instance
    stays marked connected. *)
Lemma close_waits_for_the_lock :
  rtc conn_step (Connection None None []) lookup_waiting
  /\ connected lookup_waiting = true
  /\ lock lookup_waiting = 0%nat
  /\ _waiters lookup_waiting !! 1 = Some 0%nat
  /\ futures lookup_waiting !! 0%nat = Some Pending
  /\ close lookup_waiting = (Suspended, lookup_waiting)
  /\ _do_close (Some (NetworkError "Lost connection to server during query"))
       lookup_waiting = (Suspended, lookup_waiting)
  /\ futures (close lookup_waiting).2 !! 0%nat <> Some Cancelled
  /\ connected (close lookup_waiting).2 <> false
  /\ _waiters (close lookup_waiting).2 <> ∅.
Proof.
  split.
  { assert ((get_space (inr "users") (connect (Connection None None [])).2).2
            = lookup_waiting) as <- by (vm_compute; reflexivity).
    eapply rtc_l; [apply step_connect|].
    eapply rtc_l; [apply (step_get_space _ (inr "users"))|]. apply rtc_refl. }
  repeat split; by vm_compute.
Qed.

(** Ten responses in a row that ask for a retry. *)
Lemma ten_retries :
  exists s',
    retried request1 (dispatched (replicate 10 retry_frame))
      (replicate 10 retry_response) s'.
Proof.
  eexists.
  repeat (eapply retried_cons;
          [vm_compute; reflexivity|vm_compute; reflexivity|reflexivity|]).
  apply retried_nil.
Qed.

Lemma send_request_retry_budget_witness :
  connected (dispatched (replicate 10 retry_frame)) = true
  /\ exists s',
       retried request1 (dispatched (replicate 10 retry_frame))
         (replicate 10 retry_response) s'
       /\ _send_request request1 (dispatched (replicate 10 retry_frame))
          = (Raise (DatabaseError 0 "retry"), s').
Proof.
  split; [reflexivity|]. destruct ten_retries as [s' Hrun]. exists s'.
  split; [exact Hrun|].
  exact (proj1 (send_request_retry_budget request1
                  (dispatched (replicate 10 retry_frame)) eq_refl)
           (replicate 10 retry_response) s' retry_response Hrun eq_refl eq_refl).
Defined.

Lemma one_retry :
  exists s', retried request1 (dispatched [retry_frame; final_frame])
               [retry_response] s'.
Proof.
  eexists.
  eapply retried_cons;
    [vm_compute; reflexivity|vm_compute; reflexivity|reflexivity|].
  apply retried_nil.
Qed.

Lemma one_within_budget : (length [retry_response] <= RETRY_MAX_ATTEMPTS)%nat.
Proof. change (1 <= 10)%nat. lia. Qed.

Lemma retry_appends_request_again_witness :
  connected (dispatched [retry_frame; final_frame]) = true
  /\ exists s',
       retried request1 (dispatched [retry_frame; final_frame])
         [retry_response] s'
       /\ _send_request request1 (dispatched [retry_frame; final_frame]) =
            send_loop (RETRY_MAX_ATTEMPTS - length [retry_response]) request1
              (last [retry_response]) s'
       /\ enqueued (trace s') =
            enqueued (trace (dispatched [retry_frame; final_frame]))
            ++ replicate 1 (request_bytes request1).
Proof.
  split; [reflexivity|]. destruct one_retry as [s' Hrun]. exists s'.
  split; [exact Hrun|].
  destruct (proj2 (retry_appends_request_again request1
                     (dispatched [retry_frame; final_frame]) eq_refl)
              [retry_response] s' Hrun one_within_budget) as (H1 & H2 & _).
  split; [exact H1|exact H2].
Defined.

(** C1 does not hold of a request that is answered by one "retry
    needed" response and then by a final one: the dispatcher appends the
    bytes of the request to the outbound buffer twice, and the writer
    sends them twice. *)
Lemma retry_enqueues_request_twice :
  (select 512 [VInt 1] 0 10 0 0 (up [retry_frame; final_frame])).1
    = Ok final_response
  /\ enqueued
       (trace (select 512 [VInt 1] 0 10 0 0 (up [retry_frame; final_frame])).2)
     = [request_bytes request1; request_bytes request1]
  /\ enqueued
       (trace (select 512 [VInt 1] 0 10 0 0 (up [retry_frame; final_frame])).2)
     <> [request_bytes request1].
Proof. by vm_compute. Qed.

Lemma waiter_registered_before_enqueue_witness :
  _write_buf (up []) = Some []
  /\ _write_event (up []) = Some false
  /\ exists s2,
       send_attempt request1 (new_request (encode x01) (up [])).2
         = (Ok 0%nat, s2)
       /\ trace s2 = trace (up []) ++ [EvRegister 1 0%nat; EvEnqueue (encode x01 1)]
       /\ _waiters s2 !! 1 = Some 0%nat
       /\ futures s2 !! 0%nat = Some Pending.
Proof.
  split; [reflexivity|]. split; [reflexivity|].
  destruct (proj1 (proj2 (proj2 (waiter_registered_before_enqueue
                                   (encode x01) (up []))))
              [] false eq_refl eq_refl)
    as (s2 & Ha & Ht & _ & Hw & Hf & _).
  exists s2. by repeat split.
Defined.

(** C9 does not hold between a response that asks for a retry and the
    re-registration: the final response comes in the same read as the
    "retry needed" one, when the id has just been taken out of the table
    and the dispatcher has not resumed yet.  It is logged and dropped;
    the dispatcher then registers a new slot, sends the request again and
    waits for an answer that the stream does not hold any more. *)
Lemma response_between_retries_is_dropped :
  (_send_request request1 (dispatched [retry_frame ++ final_frame])).1
    = Suspended
  /\ trace (_send_request request1 (dispatched [retry_frame ++ final_frame])).2
     = [EvRegister 1 0%nat;
        EvEnqueue (request_bytes request1);
        EvWrite (request_bytes request1);
        EvDecode [x01; x00; x01];
        EvResolve 0%nat (Result retry_response);
        EvDecode [x01; x00; x00; x05];
        EvLogError final_response;
        EvRegister 1 1%nat;
        EvWarn "retry";
        EvEnqueue (request_bytes request1);
        EvWrite (request_bytes request1)]
  /\ futures (_send_request request1
                (dispatched [retry_frame ++ final_frame])).2
     = [Result retry_response; Pending]
  /\ socket_in (_send_request request1
                  (dispatched [retry_frame ++ final_frame])).2 = [].
Proof. by vm_compute. Qed.

(** The counter is at its ceiling and id 0 is still waited for. *)
Definition wrapping : State :=
  Eval vm_compute in set_req_num 10000000 (register 0 (up [])).2.

Lemma wrapping_waiters_ok : waiters_ok wrapping.
Proof.
  assert (waiters_ok (register 0 (up [])).2) as Hok
    by apply waiters_ok_register, up_waiters_ok.
  assert (_waiters (register 0 (up [])).2 = _waiters wrapping) as Ew
    by (vm_compute; reflexivity).
  assert (futures (register 0 (up [])).2 = futures wrapping) as Ef
    by (vm_compute; reflexivity).
  unfold waiters_ok in *. by rewrite <- Ew, <- Ef.
Qed.

Lemma generate_sync_drops_pending_waiter_witness :
  waiters_ok wrapping
  /\ _waiters wrapping !! 0 = Some 0%nat
  /\ (generate_sync wrapping).1 = Ok 0
  /\ _waiters (generate_sync wrapping).2 !! 0 = Some 1%nat
  /\ forall s2, rtc conn_step (generate_sync wrapping).2 s2 ->
       futures s2 !! 0%nat = Some Pending
       /\ forall k', _waiters s2 !! k' <> Some 0%nat.
Proof.
  assert (_waiters wrapping !! 0 = Some 0%nat) as Hw by (by vm_compute).
  split; [exact wrapping_waiters_ok|]. split; [exact Hw|].
  destruct (generate_sync_drops_pending_waiter wrapping)
    as ((Hid & _ & Hnew & _) & Hold).
  split; [exact Hid|]. split; [exact Hnew|].
  exact (proj2 (proj2 (Hold 0%nat wrapping_waiters_ok Hw))).
Defined.

(** The select of a lookup of space 5 on a connection that is up. *)
Abbreviation lookup_select input :=
  (select SPACE_SPACE (key_of (inl 5)) 0 4294967295 (space_index (inl 5)) 0
     (set_lock 0 (up input))).

Lemma lookup_select_final :
  exists s1, lookup_select [final_frame] = (Ok final_response, s1).
Proof. eexists. vm_compute. reflexivity. Qed.

Lemma get_space_inspects_rows_witness :
  schema (up [final_frame]) !! (inl 5 : SchemaKey) = None
  /\ connected (up [final_frame]) = true
  /\ lock (up [final_frame]) = 1%nat
  /\ exists s1 s2,
       lookup_select [final_frame] = (Ok final_response, s1)
       /\ get_space (inl 5) (up [final_frame])
          = (Ok (mkSchemaSpace 5 "users" ∅), s2)
       /\ schema s2 !! (inl 5 : SchemaKey) = Some (mkSchemaSpace 5 "users" ∅)
       /\ schema s2 !! (inr "users" : SchemaKey)
          = Some (mkSchemaSpace 5 "users" ∅).
Proof.
  assert (schema (up [final_frame]) !! (inl 5 : SchemaKey) = None) as Hmiss
    by (by vm_compute).
  assert (connected (up [final_frame]) = true) as Hc by (by vm_compute).
  assert (lock (up [final_frame]) = 1%nat) as Hl by (by vm_compute).
  assert (space_of_tuple [VInt 5; VInt 0; VStr "users"] = Some (5, "users"))
    as Ht by (by vm_compute).
  assert (rows final_response = [[VInt 5; VInt 0; VStr "users"]])
    as Hr by (by vm_compute).
  split; [exact Hmiss|]. split; [exact Hc|]. split; [exact Hl|].
  destruct lookup_select_final as [s1 Hsel].
  destruct (proj2 (get_space_inspects_rows (inl 5) (up [final_frame]) s1 0
                     final_response Hmiss Hc Hl Hsel)
              [VInt 5; VInt 0; VStr "users"] 5 "users" Hr
              ltac:(discriminate) Ht)
    as (Hget & Hid & Hname).
  eexists s1, _. split; [exact Hsel|]. split; [exact Hget|]. by split.
Defined.

(** C8 does not hold of an answer with exactly one tuple, when that
    tuple has no fields: the lookup raises the space-not-found error and
    caches nothing. *)
Lemma get_space_single_empty_tuple :
  (exists array s1,
     lookup_select [empty_tuple_frame] = (Ok array, s1)
     /\ rows array = [[]] /\ length (rows array) = 1%nat)
  /\ (get_space (inl 5) (up [empty_tuple_frame])).1
     = Raise (SchemaError "There's no space with id '5'")
  /\ schema (get_space (inl 5) (up [empty_tuple_frame])).2 = ∅.
Proof.
  split; [|by vm_compute].
  eexists _, _. split; [vm_compute; reflexivity|]. by split.
Qed.

(** With two tuples in the answer the lookup ends in the [TypeError] of
    the string concatenation, not in a schema error. *)
Example get_space_two_tuples :
  (get_space (inl 5) (up [frame [x01; x00; x00; x05; x06]])).1 = Raise TypeError.
Proof. by vm_compute. Qed.


(** ** Runs for the rest of the transport *)

Lemma up_counter_ok (input : list bytes) : counter_ok (up input).
Proof. unfold counter_ok. change (req_num (up input)) with 0. lia. Qed.

Lemma generate_sync_cycle_witness :
  counter_ok (up [])
  /\ exists ks,
       (generate_syncs 3 (up [])).1 = Ok ks
       /\ ks = (fun j => (req_num (up []) + Z.of_nat j) mod 10000001) <$> seq 1 3
       /\ (Z.of_nat 3 <= 10000001 -> NoDup ks).
Proof.
  split; [exact (up_counter_ok [])|].
  exact (generate_sync_cycle 3 (up []) (up_counter_ok [])).
Defined.

(** An answer to the first request and an error for the second. *)
Definition answer1 : Response := mkResponse 1 0 0 "" [].
Definition error2 : Response := mkResponse 2 3 0 "" [].

Lemma answer1_error2_ids : sync answer1 <> sync error2.
Proof. done. Qed.

Lemma two_dispatched_first : _waiters two_dispatched !! sync answer1 = Some 0%nat.
Proof. by vm_compute. Qed.

Lemma dispatch_response_any_order_witness :
  waiters_ok two_dispatched
  /\ sync answer1 <> sync error2
  /\ futures (dispatch_response error2
                (dispatch_response answer1 two_dispatched).2).2
     = futures (dispatch_response answer1
                  (dispatch_response error2 two_dispatched).2).2
  /\ futures (dispatch_response error2
                (dispatch_response answer1 two_dispatched).2).2 !! 0%nat
     = Some (outcome_of answer1).
Proof.
  destruct (dispatch_response_any_order answer1 error2 two_dispatched
              two_dispatched_waiters_ok answer1_error2_ids)
    as (_ & _ & Hf & _ & _ & H1 & _).
  split; [exact two_dispatched_waiters_ok|].
  split; [exact answer1_error2_ids|].
  split; [exact Hf|exact (H1 _ two_dispatched_first)].
Defined.

Lemma buffer_framing :
  framing (reader_buf (dispatched []) ++ buffer) 0
    [(stray_body, mkResponse 9 0 0 "" []); (answer_body, answer1)] 16.
Proof.
  change (reader_buf (dispatched []) ++ buffer) with buffer.
  apply (framing_cons _ 0 3); [exact buffer_stray_frame|lia|reflexivity|].
  apply (framing_cons _ 8 3); [exact buffer_answer_frame|lia|reflexivity|].
  apply framing_nil, buffer_partial_frame.
Qed.

Lemma buffer_not_empty : buffer <> [].
Proof. done. Qed.

Lemma reader_iteration_in_wire_order_witness :
  buffer <> []
  /\ framing (reader_buf (dispatched []) ++ buffer) 0
       [(stray_body, mkResponse 9 0 0 "" []); (answer_body, answer1)] 16
  /\ (reader_iteration buffer (dispatched [])).1
     = (deliver [(stray_body, mkResponse 9 0 0 "" []); (answer_body, answer1)]
          (dispatched [])).1
  /\ trace (reader_iteration buffer (dispatched [])).2
     = trace (deliver [(stray_body, mkResponse 9 0 0 "" []);
                       (answer_body, answer1)] (dispatched [])).2.
Proof.
  destruct (reader_iteration_in_wire_order buffer (dispatched []) _ 16
              buffer_not_empty buffer_framing) as (Hr & _ & _ & Ht & _).
  split; [exact buffer_not_empty|]. split; [exact buffer_framing|].
  split; [exact Hr|exact Ht].
Defined.

(** The stream cut in the middle of the prefix of the second frame. *)
Definition chunk1 : bytes := frame stray_body ++ [xce; x00].
Definition chunk2 : bytes := [x00; x00; x03] ++ answer_body.

Lemma chunk1_framing :
  framing (reader_buf (dispatched []) ++ chunk1) 0
    [(stray_body, mkResponse 9 0 0 "" [])] 8.
Proof.
  change (reader_buf (dispatched []) ++ chunk1) with chunk1.
  apply (framing_cons _ 0 3); [repeat split; by vm_compute|lia|reflexivity|].
  apply framing_nil. left. by vm_compute.
Qed.

Lemma chunk2_framing :
  framing (drop (Z.to_nat 8) (reader_buf (dispatched []) ++ chunk1) ++ chunk2) 0
    [(answer_body, answer1)] 8.
Proof.
  change (drop (Z.to_nat 8) (reader_buf (dispatched []) ++ chunk1) ++ chunk2)
    with (frame answer_body).
  apply (framing_cons _ 0 3); [repeat split; by vm_compute|lia|reflexivity|].
  apply framing_nil. left. by vm_compute.
Qed.

Lemma chunk1_not_empty : chunk1 <> [].
Proof. done. Qed.

Lemma chunk2_not_empty : chunk2 <> [].
Proof. done. Qed.

Lemma reader_iteration_chunks_witness :
  chunk1 <> [] /\ chunk2 <> []
  /\ framing (reader_buf (dispatched []) ++ chunk1) 0
       [(stray_body, mkResponse 9 0 0 "" [])] 8
  /\ framing (drop (Z.to_nat 8) (reader_buf (dispatched []) ++ chunk1) ++ chunk2)
       0 [(answer_body, answer1)] 8
  /\ ((reader_iteration chunk1 ;;; reader_iteration chunk2) (dispatched [])).1
     = (reader_iteration (chunk1 ++ chunk2) (dispatched [])).1
  /\ futures ((reader_iteration chunk1 ;;; reader_iteration chunk2)
                (dispatched [])).2
     = futures (reader_iteration (chunk1 ++ chunk2) (dispatched [])).2.
Proof.
  destruct (reader_iteration_chunks chunk1 chunk2 (dispatched []) _ 8 _ 8
              chunk1_not_empty chunk2_not_empty chunk1_framing chunk2_framing)
    as (Hr & Hf & _).
  split; [exact chunk1_not_empty|]. split; [exact chunk2_not_empty|].
  split; [exact chunk1_framing|]. split; [exact chunk2_framing|].
  split; [exact Hr|exact Hf].
Defined.

Definition request2 : Request := mkRequest 2 (encode x01 2).

Lemma two_dispatched_registered (rq : Request) :
  rq ∈ [request1; request2] ->
  is_Some (_waiters two_dispatched !! request_sync rq).
Proof.
  intros [->|[->|[]%elem_of_nil]%elem_of_cons]%elem_of_cons;
    [exists 0%nat|exists 1%nat]; by vm_compute.
Qed.

Lemma writer_sends_in_order_witness :
  _write_buf two_dispatched = Some []
  /\ _write_event two_dispatched = Some false
  /\ (forall rq, rq ∈ [request1; request2] ->
        is_Some (_waiters two_dispatched !! request_sync rq))
  /\ ((send_attempts [request1; request2] ;;; writer_iteration)
        two_dispatched).1 = Ok tt
  /\ written (trace ((send_attempts [request1; request2] ;;; writer_iteration)
                       two_dispatched).2)
     = written (trace two_dispatched)
       ++ (if [] ++ concat (request_bytes <$> [request1; request2]) is []
           then []
           else [[] ++ concat (request_bytes <$> [request1; request2])]).
Proof.
  destruct (writer_sends_in_order [request1; request2] two_dispatched [] false
              eq_refl eq_refl two_dispatched_registered) as (Hr & Hw & _).
  split; [reflexivity|]. split; [reflexivity|].
  split; [exact two_dispatched_registered|]. split; [exact Hr|exact Hw].
Defined.

Lemma request1_answered :
  (_send_request request1 (dispatched [final_frame])).1 = Ok final_response.
Proof. by vm_compute. Qed.

Lemma send_request_own_response_witness :
  waiters_ok (dispatched [final_frame])
  /\ (_send_request request1 (dispatched [final_frame])).1 = Ok final_response
  /\ sync final_response = request_sync request1
  /\ return_code final_response = 0.
Proof.
  split; [exact (dispatched_waiters_ok [final_frame])|].
  split; [exact request1_answered|].
  exact (send_request_own_response request1 (dispatched [final_frame])
           final_response (dispatched_waiters_ok [final_frame])
           request1_answered).
Defined.

Lemma two_dispatched_unlocked : lock two_dispatched <> 0%nat.
Proof. done. Qed.

Lemma two_dispatched_reader : _reader_task two_dispatched <> None.
Proof. done. Qed.

Lemma two_dispatched_writer : _writer_task two_dispatched <> None.
Proof. done. Qed.

Lemma two_dispatched_buffer : incomplete_at (reader_buf two_dispatched) 0.
Proof. left. by vm_compute. Qed.

Lemma reader_end_of_stream_witness :
  connected two_dispatched = true
  /\ lock two_dispatched <> 0%nat
  /\ waiters_ok two_dispatched
  /\ incomplete_at (reader_buf two_dispatched) 0
  /\ (_response_reader ([] :: [final_frame]) two_dispatched).1 = Ok tt
  /\ connected (_response_reader ([] :: [final_frame]) two_dispatched).2 = false
  /\ futures (_response_reader ([] :: [final_frame]) two_dispatched).2 !! 0%nat
     = Some (Exception lost_connection).
Proof.
  destruct (reader_end_of_stream [final_frame] two_dispatched eq_refl
              two_dispatched_unlocked two_dispatched_reader
              two_dispatched_writer two_dispatched_waiters_ok
              two_dispatched_buffer) as (Hr & Hc & _ & _ & Hf & _).
  split; [reflexivity|]. split; [exact two_dispatched_unlocked|].
  split; [exact two_dispatched_waiters_ok|].
  split; [exact two_dispatched_buffer|].
  split; [exact Hr|]. split; [exact Hc|exact (Hf _ _ two_dispatched_first)].
Defined.

(** The same, while somebody holds the lock. *)
Definition two_dispatched_locked : State :=
  Eval vm_compute in set_lock 0 two_dispatched.

Lemma reader_end_of_stream_locked_witness :
  connected two_dispatched_locked = true
  /\ lock two_dispatched_locked = 0%nat
  /\ _response_reader ([] :: [final_frame]) two_dispatched_locked
     = (Suspended, two_dispatched_locked).
Proof.
  split; [reflexivity|]. split; [reflexivity|].
  exact (reader_end_of_stream_locked [final_frame] two_dispatched_locked
           eq_refl eq_refl).
Defined.

Definition final_body : bytes := [x01; x00; x00; x05].

Lemma final_frame_framing :
  framing (reader_buf (dispatched [final_frame]) ++ final_frame) 0
    [(final_body, final_response)] 9.
Proof.
  change (reader_buf (dispatched [final_frame]) ++ final_frame) with final_frame.
  apply (framing_cons _ 0 4); [repeat split; by vm_compute|lia|reflexivity|].
  apply framing_nil. left. by vm_compute.
Qed.

Lemma final_frame_not_empty : final_frame <> [].
Proof. done. Qed.

Lemma final_response_final : completion_status final_response <> 1.
Proof. done. Qed.

Lemma dispatched_first (input : list bytes) :
  _waiters (dispatched input) !! request_sync request1 = Some 0%nat.
Proof. by vm_compute. Qed.

Lemma request_round_trip_witness :
  waiters_ok (dispatched [final_frame])
  /\ _waiters (dispatched [final_frame]) !! request_sync request1 = Some 0%nat
  /\ framing (reader_buf (dispatched [final_frame]) ++ final_frame) 0
       [(final_body, final_response)] 9
  /\ answer (request_sync request1) [(final_body, final_response)]
     = Some final_response
  /\ (send_loop 1 request1 None (dispatched [final_frame])).1 =
       (if return_code final_response =? 0 then Ok final_response
        else Raise (DatabaseError (return_code final_response)
                      (return_message final_response))).
Proof.
  split; [exact (dispatched_waiters_ok [final_frame])|].
  split; [exact (dispatched_first [final_frame])|].
  split; [exact final_frame_framing|]. split; [reflexivity|].
  exact (request_round_trip 0 request1 None (dispatched [final_frame]) 0%nat
           [] false final_frame [] [(final_body, final_response)] 9
           final_response
           (dispatched_waiters_ok [final_frame])
           (dispatched_first [final_frame]) eq_refl eq_refl eq_refl eq_refl
           final_frame_not_empty final_frame_framing eq_refl
           final_response_final).
Defined.

(** A new connection object with credentials. *)
Definition with_credentials : State :=
  Eval vm_compute in Connection (Some "user") (Some "secret") [].

Lemma with_credentials_unlocked : lock with_credentials <> 0%nat.
Proof. done. Qed.

Lemma connect_sends_only_authentication_witness :
  connected with_credentials = false
  /\ lock with_credentials <> 0%nat
  /\ exists n : nat,
       (n <= RETRY_MAX_ATTEMPTS)%nat
       /\ enqueued (trace (connect with_credentials).2) =
            enqueued (trace with_credentials)
            ++ replicate n (RequestAuthenticate "user" "secret"
                              (next_sync with_credentials))
       /\ ((connect with_credentials).1 = Ok tt -> (1 <= n)%nat).
Proof.
  split; [reflexivity|]. split; [exact with_credentials_unlocked|].
  exact (proj2 (connect_sends_only_authentication with_credentials eq_refl
                  with_credentials_unlocked)
           "user" "secret" eq_refl eq_refl eq_refl).
Defined.

Lemma get_space_sends_only_select_witness :
  schema (up []) !! (inl 5 : SchemaKey) = None
  /\ connected (up []) = true
  /\ exists n : nat,
       (n <= RETRY_MAX_ATTEMPTS)%nat
       /\ enqueued (trace (get_space (inl 5) (up [])).2) =
            enqueued (trace (up []))
            ++ replicate n
                 (RequestSelect SPACE_SPACE (space_index (inl 5))
                    (key_of (inl 5)) 0 4294967295 0 (next_sync (up [])))
       /\ (forall sp, (get_space (inl 5) (up [])).1 = Ok sp -> (1 <= n)%nat)
       /\ (lock (up []) = 0%nat ->
           get_space (inl 5) (up []) = (Suspended, up [])).
Proof.
  split; [reflexivity|]. split; [reflexivity|].
  exact (get_space_sends_only_select (inl 5) (up []) eq_refl eq_refl).
Defined.

Lemma retry_budget_not_zero : RETRY_MAX_ATTEMPTS <> 0%nat.
Proof. done. Qed.

Lemma get_space_end_of_stream_witness :
  schema (up [[]]) !! (inr "users" : SchemaKey) = None
  /\ connected (up [[]]) = true
  /\ lock (up [[]]) = 1%nat
  /\ socket_in (up [[]]) = [[]]
  /\ exists s',
       get_space (inr "users") (up [[]]) = (Suspended, s')
       /\ connected s' = true
       /\ lock s' = 0%nat
       /\ socket_in s' = []
       /\ _waiters s'
          = <[next_sync (up [[]]) := length (futures (up [[]]))]>
              (_waiters (up [[]]))
       /\ futures s' = futures (up [[]]) ++ [Pending].
Proof.
  split; [reflexivity|]. split; [reflexivity|]. split; [reflexivity|].
  split; [reflexivity|].
  exact (get_space_end_of_stream (inr "users") (up [[]]) [] false []
           eq_refl eq_refl eq_refl retry_budget_not_zero
           eq_refl eq_refl eq_refl eq_refl).
Defined.

Lemma close_two_dispatched_returns :
  (_do_close None two_dispatched).1 <> Suspended.
Proof. by vm_compute. Qed.

Lemma do_close_settles_witness :
  (_do_close None two_dispatched).1 <> Suspended
  /\ connected (_do_close None two_dispatched).2 = false
  /\ _do_close (Some lost_connection) (_do_close None two_dispatched).2
     = (Ok tt, (_do_close None two_dispatched).2).
Proof.
  split; [exact close_two_dispatched_returns|].
  exact (do_close_settles None (Some lost_connection) two_dispatched
           close_two_dispatched_returns).
Defined.

Lemma dispatched_writer (input : list bytes) :
  _writer_task (dispatched input) <> None.
Proof. done. Qed.

Lemma dispatched_unlocked (input : list bytes) : lock (dispatched input) <> 0%nat.
Proof. done. Qed.

Lemma dispatched_buffer (input : list bytes) :
  incomplete_at (reader_buf (dispatched input)) 0.
Proof. left. by vm_compute. Qed.

Lemma request_fails_at_end_of_stream_witness :
  waiters_ok (dispatched [[]])
  /\ _waiters (dispatched [[]]) !! request_sync request1 = Some 0%nat
  /\ socket_in (dispatched [[]]) = [[]]
  /\ connected (dispatched [[]]) = true
  /\ lock (dispatched [[]]) <> 0%nat
  /\ exists s',
       send_loop 1 request1 None (dispatched [[]]) = (Raise lost_connection, s')
       /\ connected s' = false
       /\ _waiters s' = ∅
       /\ socket_in s' = []
       /\ futures s' !! 0%nat = Some (Exception lost_connection).
Proof.
  split; [exact (dispatched_waiters_ok [[]])|].
  split; [exact (dispatched_first [[]])|]. split; [reflexivity|].
  split; [reflexivity|]. split; [exact (dispatched_unlocked [[]])|].
  exact (request_fails_at_end_of_stream 0 request1 None (dispatched [[]]) 0%nat
           [] false [] (dispatched_waiters_ok [[]]) (dispatched_first [[]])
           eq_refl eq_refl eq_refl (dispatched_writer [[]]) eq_refl eq_refl
           (dispatched_unlocked [[]]) (dispatched_buffer [[]])).
Defined.

Lemma returned_request_leaves_instance_up_witness :
  waiters_ok (dispatched [final_frame])
  /\ connected (dispatched [final_frame]) = true
  /\ (_send_request request1 (dispatched [final_frame])).1 = Ok final_response
  /\ connected (_send_request request1 (dispatched [final_frame])).2 = true
  /\ waiters_ok (_send_request request1 (dispatched [final_frame])).2.
Proof.
  split; [exact (dispatched_waiters_ok [final_frame])|].
  split; [reflexivity|]. split; [exact request1_answered|].
  exact (returned_request_leaves_instance_up request1
           (dispatched [final_frame]) final_response
           (dispatched_waiters_ok [final_frame]) eq_refl request1_answered).
Defined.






(** The encoders of the other requests, and a server that knows the
    space "users" and accepts what is sent to it. *)
Definition requests : Requests := {|
  RequestInsert := fun _ _ => encode x02;
  RequestUpdate := fun _ _ _ _ => encode x04;
  RequestDelete := fun _ _ _ => encode x05;
|}.

Definition serving : State :=
  Eval vm_compute in up [final_frame; frame [x02; x00; x00]].

Lemma serving_waiters_ok : waiters_ok serving.
Proof. exact (up_waiters_ok [final_frame; frame [x02; x00; x00]]). Qed.

Lemma serving_lookup :
  (get_space (inr "users") serving).1 = Ok (mkSchemaSpace 5 "users" ∅).
Proof. by vm_compute. Qed.

Lemma serving_insert :
  (@Methods.insert wire requests (inr "users") [VInt 1] serving).1
  = Ok (mkResponse 2 0 0 "" []).
Proof. by vm_compute. Qed.

Lemma named_requests_follow_the_lookup_witness :
  waiters_ok serving
  /\ connected serving = true
  /\ schema serving !! (inr "users" : SchemaKey) = None
  /\ (get_space (inr "users") serving).1 = Ok (mkSchemaSpace 5 "users" ∅)
  /\ (@Methods.insert wire requests (inr "users") [VInt 1] serving).1
     = Ok (mkResponse 2 0 0 "" [])
  /\ @sent_after_lookup wire "users" serving
       (@Methods.insert wire requests (inr "users") [VInt 1])
       (fun space_name => @RequestInsert requests space_name [VInt 1]).
Proof.
  split; [exact serving_waiters_ok|]. split; [reflexivity|].
  split; [reflexivity|]. split; [exact serving_lookup|].
  split; [exact serving_insert|].
  exact (proj1 (@named_requests_follow_the_lookup wire requests "users" serving
                  [VInt 1] [] [] 0 0 0 0 serving_waiters_ok eq_refl eq_refl)).
Defined.

End Runs.
